(** * Peak localization (spikeinterface.sortingcomponents.peak_localization)

    A shallow embedding of [localize_peaks] and of the three pipeline steps
    [LocalizePeakChannel], [LocalizeCenterOfMass] and
    [LocalizeMonopolarTriangulation], with the numpy operations they use.

    Conventions of the embedding:
    - an ndarray is a nested list; a 2-D array is the list of its rows, the
      waveform array is indexed [peak][sample][channel];
    - a Python exception is a value of [exn], a computation that may raise
      lives in [result];
    - scalars are kept abstract behind the class [Scalar]; the instance
      [float_scalar] is IEEE-754 binary64, the instance [Z_scalar] is exact
      integer arithmetic, and the instance [Dtype.scalar] is the values that
      carry their numpy dtype ([int16], [int64], [float64]), with numpy's
      promotions and the wrap-around of the fixed-width integers;
    - the order in which a sum along an axis adds its terms ([np.sum],
      [mean], [np.linalg.norm], [np.dot]) is not written in the source and is
      left to numpy and to its BLAS library: these sums are the kernels of
      the class [Numpy], a parameter of the steps; [sequential] is the kernel
      that accumulates from zero, left to right;
    - an assignment into an array is a list update ([alter], [insert]); the
      positions written come from [enumerate] or from [np.nonzero] over the
      array itself, so they are within bounds. *)

From Stdlib Require Import ZArith String Floats Lia.
From stdpp Require Import list.

#[local] Open Scope string_scope.
#[local] Open Scope list_scope.
#[local] Open Scope Z_scope.
#[local] Unset Default Proof Using.

(** ** Exceptions and fallible computations *)

Inductive exn : Type :=
| IndexError
| ValueError
| UnboundLocalError
| AssertionError
| TypeError.

Inductive result (A : Type) : Type :=
| Ok (a : A)
| Raise (e : exn).

Arguments Ok {A} a.
Arguments Raise {A} e.

Definition bind {A B : Type} (m : result A) (k : A -> result B) : result B :=
  match m with
  | Ok a => k a
  | Raise e => Raise e
  end.

Notation "x <- m ;; k" := (bind m (fun x => k))
  (at level 100, m at next level, right associativity).

Fixpoint mapM {A B : Type} (f : A -> result B) (l : list A) : result (list B) :=
  match l with
  | [] => Ok []
  | a :: t => b <- f a ;; bs <- mapM f t ;; Ok (b :: bs)
  end.

(** A [for] loop threading an accumulator; the first exception ends it. *)
Fixpoint foldM {A S : Type} (f : S -> A -> result S) (l : list A) (s : S)
  : result S :=
  match l with
  | [] => Ok s
  | a :: t => s' <- f s a ;; foldM f t s'
  end.

(** ** Scalars *)

Class Scalar (F : Type) : Type := {
  fzero : F;
  fadd : F -> F -> F;
  fsub : F -> F -> F;
  fmul : F -> F -> F;
  fdiv : F -> F -> F;
  fsqrt : F -> F;
  fmax : F -> F -> F;
  fmin : F -> F -> F;
  fltb : F -> F -> bool;
  of_nat : nat -> F;
  as_float : F -> F
}.

(** [as_float] is [astype(float)]: the value in binary64, the identity on
    an array that holds floats already. *)

(** [np.maximum] and [np.minimum] propagate NaN. *)
Definition float_max (a b : float) : float :=
  if PrimFloat.is_nan a then a
  else if PrimFloat.is_nan b then b
  else if PrimFloat.ltb a b then b else a.

Definition float_min (a b : float) : float :=
  if PrimFloat.is_nan a then a
  else if PrimFloat.is_nan b then b
  else if PrimFloat.ltb b a then b else a.

#[export] Instance float_scalar : Scalar float := {|
  fzero := PrimFloat.zero;
  fadd := PrimFloat.add;
  fsub := PrimFloat.sub;
  fmul := PrimFloat.mul;
  fdiv := PrimFloat.div;
  fsqrt := PrimFloat.sqrt;
  fmax := float_max;
  fmin := float_min;
  fltb := PrimFloat.ltb;
  of_nat := fun n => PrimFloat.of_uint63 (Uint63.of_Z (Z.of_nat n));
  as_float := fun f => f
|}.

#[export] Instance Z_scalar : Scalar Z := {|
  fzero := 0;
  fadd := Z.add;
  fsub := Z.sub;
  fmul := Z.mul;
  fdiv := Z.div;
  fsqrt := Z.sqrt;
  fmax := Z.max;
  fmin := Z.min;
  fltb := Z.ltb;
  of_nat := Z.of_nat;
  as_float := fun z => z
|}.

(** ** Values that carry their dtype

    A recording is often stored as 16-bit integers. Arithmetic between two
    arrays of one integer dtype stays in that dtype and wraps around; an
    [int16] operand is promoted next to an [int64] or a [float64] one; a
    true division, a square root and [astype(float)] give [float64]. *)
Module Dtype.
Inductive t : Type :=
| Int16 (z : Z)
| Int64 (z : Z)
| Float64 (f : float).

(** Two's complement wrap-around on [bits] bits. *)
Definition wrap (bits z : Z) : Z :=
  (z + 2 ^ (bits - 1)) mod 2 ^ bits - 2 ^ (bits - 1).

(** The binary64 value nearest to an integer. *)
Definition float_of_Z (z : Z) : float :=
  SF2Prim (binary_normalize prec emax z 0 false).

Definition to_float (v : t) : float :=
  match v with
  | Int16 z | Int64 z => float_of_Z z
  | Float64 f => f
  end.

(** A binary operation between two values, in the dtype numpy promotes
    them to. *)
Definition promote (op : Z -> Z -> Z) (fop : float -> float -> float)
  (a b : t) : t :=
  match a, b with
  | Int16 x, Int16 y => Int16 (wrap 16 (op x y))
  | Int16 x, Int64 y | Int64 x, Int16 y | Int64 x, Int64 y =>
      Int64 (wrap 64 (op x y))
  | _, _ => Float64 (fop (to_float a) (to_float b))
  end.

Definition ltb (a b : t) : bool :=
  match a, b with
  | Int16 x, Int16 y | Int16 x, Int64 y | Int64 x, Int16 y
  | Int64 x, Int64 y => x <? y
  | _, _ => PrimFloat.ltb (to_float a) (to_float b)
  end.

#[global] Instance scalar : Scalar t := {|
  fzero := Float64 PrimFloat.zero;
  fadd := promote Z.add PrimFloat.add;
  fsub := promote Z.sub PrimFloat.sub;
  fmul := promote Z.mul PrimFloat.mul;
  fdiv := fun a b => Float64 (PrimFloat.div (to_float a) (to_float b));
  fsqrt := fun a => Float64 (PrimFloat.sqrt (to_float a));
  fmax := promote Z.max float_max;
  fmin := promote Z.min float_min;
  fltb := ltb;
  of_nat := fun n => Int64 (Z.of_nat n);
  as_float := fun a => Float64 (to_float a)
|}.
End Dtype.

(** A binary64 weight that compares equal to zero: [+0] or [-0]. *)
Definition is_zero (w : float) : bool := PrimFloat.eqb w PrimFloat.zero.

(** A binary64 product with a zero weight: a zero or NaN; and the running sum
    of such products: [+0] or NaN. *)
Definition zero_or_nan (f : float) : Prop :=
  (exists s, Prim2SF f = S754_zero s) \/ Prim2SF f = S754_nan.

Definition pzero_or_nan (f : float) : Prop :=
  Prim2SF f = S754_zero false \/ Prim2SF f = S754_nan.

(** ** numpy indexing *)

(** [a[i]] for an integer [i]: a negative index counts from the end. *)
Definition np_index {A : Type} (l : list A) (i : Z) : result A :=
  let n := Z.of_nat (length l) in
  let j := if i <? 0 then i + n else i in
  if (0 <=? j) && (j <? n)
  then match l !! Z.to_nat j with
       | Some a => Ok a
       | None => Raise IndexError
       end
  else Raise IndexError.

(** [a[idx]] for an array [idx] of non-negative indices. *)
Definition np_take {A : Type} (l : list A) (idx : list nat) : result (list A) :=
  mapM (fun i => match l !! i with
                 | Some a => Ok a
                 | None => Raise IndexError
                 end) idx.

(** [a[start:stop]]: a slice never raises; a negative bound counts from the
    end, and both bounds are clipped to the array. *)
Definition slice_bound (n i : Z) : Z :=
  if i <? 0 then Z.max (i + n) 0 else Z.min i n.

Definition py_slice {A : Type} (l : list A) (start stop : Z) : list A :=
  let n := Z.of_nat (length l) in
  let lo := slice_bound n start in
  let hi := slice_bound n stop in
  take (Z.to_nat (hi - lo)) (drop (Z.to_nat lo) l).

(** [np.nonzero(mask)] / [np.flatnonzero(mask)] of a 1-D boolean array. *)
Fixpoint nonzero_from (k : nat) (mask : list bool) : list nat :=
  match mask with
  | [] => []
  | b :: t => if b then k :: nonzero_from (S k) t else nonzero_from (S k) t
  end.

Definition np_nonzero (mask : list bool) : list nat := nonzero_from 0 mask.

(** [np.unique]: the sorted distinct values. *)
Fixpoint insert_unique (z : Z) (l : list Z) : list Z :=
  match l with
  | [] => [z]
  | h :: t =>
      if z <? h then z :: l
      else if z =? h then l
      else h :: insert_unique z t
  end.

Definition np_unique (l : list Z) : list Z := foldr insert_unique [] l.

(** [enumerate(l)], counting from [k]. *)
Fixpoint enumerate_from {A : Type} (k : nat) (l : list A) : list (nat * A) :=
  match l with
  | [] => []
  | a :: t => (k, a) :: enumerate_from (S k) t
  end.

Definition enumerate {A : Type} (l : list A) : list (nat * A) :=
  enumerate_from 0 l.

(** ** The numerical kernels of numpy

    [np.sum], [mean], [np.linalg.norm] and [np.dot] add rounded terms, and
    the order in which the terms are added is not written in the source:
    numpy adds in blocks and in pairs, and the BLAS routine behind [np.dot]
    adds in vector lanes and picks its routine by the shape of the product.
    The rounded result depends on that order, so these sums are kernels the
    steps are parameterised by:
    - [np_sum row] is [np.sum] of one row of weights;
    - [mean_sum lane] and [norm_sum lane] are the sums along the sample axis
      inside [mean] and [np.linalg.norm];
    - [np_dot n i j row col] is the entry at row [i] and column [j] of the
      product of a matrix of [n] rows with a second matrix, [row] being the
      row [i] of the first and [col] the column [j] of the second.
    A reduction along an axis treats every lane alike: its result on a lane
    is a function of the values of that lane. *)
Class Numpy (F : Type) : Type := {
  np_sum : list F -> F;
  mean_sum : list F -> F;
  norm_sum : list F -> F;
  np_dot : nat -> nat -> nat -> list F -> list F -> F
}.

(** ** Sums in a fixed order, and the kernels built from them *)

Section Sums.
Context {F : Type} {SF : Scalar F}.

(** The sum of a 1-D array, accumulated from zero, left to right. *)
Definition fsum (l : list F) : F := fold_left fadd l fzero.

(** The products of a row [w] with a column of a matrix, accumulated from
    zero, left to right. *)
Definition fdot (w col : list F) : F := fsum (zip_with fmul w col).


(** The kernel that accumulates every sum from zero, left to right. *)
Definition sequential : Numpy F := {|
  np_sum := fsum;
  mean_sum := fsum;
  norm_sum := fsum;
  np_dot := fun _ _ _ => fdot
|}.


End Sums.

(** What the kernels share in binary64, whatever their order: a sum of
    zeros is a zero, and a product whose weights are all zero is a zero, or
    NaN where a location is not finite. *)
Definition keeps_zeros (N : Numpy float) : Prop :=
  (forall ws,
     Forall (fun w => is_zero w = true) ws -> is_zero (np_sum ws) = true) /\
  (forall n i j ws ps,
     Forall (fun w => is_zero w = true) ws ->
     zero_or_nan (np_dot n i j ws ps)).

(** On [Dtype.t]: [np.sum] of an integer array accumulates in [int64];
    [np.dot] with a [float64] matrix and the sums inside [mean] and
    [np.linalg.norm] are taken in [float64]. *)
Definition dtype_sequential : Numpy Dtype.t := {|
  np_sum := fun l => fold_left fadd l (Dtype.Int64 0);
  mean_sum := fsum;
  norm_sum := fsum;
  np_dot := fun _ _ _ => fdot
|}.

(** ** Reductions along the sample axis *)

Section Reductions.
Context {F : Type} {SF : Scalar F} {N : Numpy F}.

(** [a[:, chan_inds]] on a 2-D array (samples x channels). *)
Definition select_channels (rows : list (list F)) (chan_inds : list nat)
  : result (list (list F)) :=
  mapM (fun row => np_take row chan_inds) rows.

(** [op.reduce] over the rows, each column on its own. *)
Definition reduce_rows (op : F -> F -> F) (r0 : list F)
  (rest : list (list F)) : list F :=
  fold_left (zip_with op) rest r0.

(** [a.ptp(axis=samples)]: [maximum.reduce - minimum.reduce]; numpy refuses
    to reduce over an axis of length zero. *)
Definition np_ptp (rows : list (list F)) : result (list F) :=
  match rows with
  | [] => Raise ValueError
  | r0 :: rest =>
      Ok (zip_with fsub (reduce_rows fmax r0 rest) (reduce_rows fmin r0 rest))
  end.

(** The lanes of a 2-D array with [m] columns along its first axis: lane
    [b] holds the entry [b] of every row. *)
Fixpoint lanes (m : nat) (rows : list (list F)) : list (list F) :=
  match rows with
  | [] => replicate m []
  | row :: rest => zip_with cons row (lanes m rest)
  end.

(** [a.mean(axis=samples)] of an array with [m] columns: the sum of every
    lane, accumulated in binary64, over the number of samples. *)
Definition np_mean (m : nat) (rows : list (list F)) : list F :=
  map (fun lane => fdiv (mean_sum (map as_float lane))
                        (of_nat (length rows)))
      (lanes m rows).

(** [np.linalg.norm(a, axis=samples)] of an array with [m] columns: the
    square root of the sum of the squares of every lane, taken in
    binary64. *)
Definition np_norm (m : nat) (rows : list (list F)) : list F :=
  map (fun lane =>
         fsqrt (norm_sum (map (fun v => fmul (as_float v) (as_float v))
                              lane)))
      (lanes m rows).

(** [a.min()] of a 1-D array. *)
Definition np_min (l : list F) : result F :=
  match l with
  | [] => Raise ValueError
  | v :: t => Ok (fold_left fmin t v)
  end.

(** [a.max()] of a 1-D array. *)
Definition np_max (l : list F) : result F :=
  match l with
  | [] => Raise ValueError
  | v :: t => Ok (fold_left fmax t v)
  end.
End Reductions.

(** ** Data model *)

(** One entry of the peaks array. *)
Record Peak : Type := {
  sample_ind : Z;
  channel_ind : Z;
  segment_ind : Z
}.

(** What [PeakPipelineStep.__init__] leaves on a step: the probe geometry and
    the window, in samples, cut around a peak. *)
Record PeakPipelineStep (F : Type) : Type := {
  contact_locations : list (list F);
  neighbours_mask : list (list bool);
  nbefore : Z;
  nafter : Z
}.

Arguments contact_locations {F} _.
Arguments neighbours_mask {F} _.
Arguments nbefore {F} _.
Arguments nafter {F} _.

(** Modelled from the spec: [dtype_localize_by_method] is imported from
    [postprocessing.unit_localization]; the record layouts are the ones the
    specification gives, [{x, y}] for [center_of_mass] and [peak_channel],
    [{x, y, z, alpha}] for [monopolar_triangulation]. *)
Module XY.
Record t (F : Type) : Type := { x : F; y : F }.
Arguments x {F} _.
Arguments y {F} _.
Arguments Build_t {F} _ _.

Definition zero {F : Type} {SF : Scalar F} : t F :=
  {| x := fzero; y := fzero |}.
Definition set_x {F : Type} (v : F) (r : t F) : t F :=
  {| x := v; y := y r |}.
Definition set_y {F : Type} (v : F) (r : t F) : t F :=
  {| x := x r; y := v |}.
End XY.

Module XYZA.
Record t (F : Type) : Type := { x : F; y : F; z : F; alpha : F }.
Arguments x {F} _.
Arguments y {F} _.
Arguments z {F} _.
Arguments alpha {F} _.
Arguments Build_t {F} _ _ _ _.

Definition zero {F : Type} {SF : Scalar F} : t F :=
  {| x := fzero; y := fzero; z := fzero; alpha := fzero |}.
End XYZA.

(** [np.zeros(n, dtype)] *)
Definition np_zeros {A : Type} (n : nat) (zero : A) : list A := replicate n zero.

(** ** LocalizePeakChannel *)

Module LocalizePeakChannel.
Section Step.
Context {F : Type} {SF : Scalar F}.

Definition compute_buffer (self : PeakPipelineStep F)
  (traces : list (list F)) (peaks : list Peak) : result (list (XY.t F)) :=
  let peak_locations := np_zeros (length peaks) XY.zero in
  foldM (fun peak_locations '(index, main_chan) =>
           locations <- np_index (contact_locations self) main_chan ;;
           l0 <- np_index locations 0 ;;
           let peak_locations := alter (XY.set_x l0) index peak_locations in
           l1 <- np_index locations 1 ;;
           Ok (alter (XY.set_y l1) index peak_locations))
        (enumerate (map channel_ind peaks))
        peak_locations.

(** The record of one peak on its own: the first two coordinates of the
    contact of its channel. *)
Definition localize (self : PeakPipelineStep F) (peak : Peak)
  : result (XY.t F) :=
  locations <- np_index (contact_locations self) (channel_ind peak) ;;
  l0 <- np_index locations 0 ;;
  l1 <- np_index locations 1 ;;
  Ok {| XY.x := l0; XY.y := l1 |}.
End Step.
End LocalizePeakChannel.

(** ** LocalizeCenterOfMass *)

Module LocalizeCenterOfMass.
Section Step.
Context {F : Type} {SF : Scalar F} {N : Numpy F}.

Record t : Type := {
  base : PeakPipelineStep F;
  feature : string
}.

(** The constructor stores [feature] as it is given. *)
Definition __init__ (step : PeakPipelineStep F) (feature : string)
  : result t :=
  Ok {| base := step; feature := feature |}.

(** The [if]/[elif] chain computing [wf_data], one row of weights per peak
    of the group. No branch is taken for another feature name: [wf_data]
    stays unbound and the statement that reads it raises. *)
Definition feature_data (self : t) (waveforms : list (list (list F)))
  (idx chan_inds : list nat) : result (list (list F)) :=
  if String.eqb (feature self) "ptp" then
    wfs <- np_take waveforms idx ;;
    mapM (fun wf => rows <- select_channels wf chan_inds ;; np_ptp rows) wfs
  else if String.eqb (feature self) "mean" then
    wfs <- np_take waveforms idx ;;
    mapM (fun wf => rows <- select_channels wf chan_inds ;;
                    Ok (np_mean (length chan_inds) rows)) wfs
  else if String.eqb (feature self) "energy" then
    wfs <- np_take waveforms idx ;;
    mapM (fun wf => rows <- select_channels wf chan_inds ;;
                    Ok (np_norm (length chan_inds) rows)) wfs
  else if String.eqb (feature self) "v_origin" then
    wfs <- np_take waveforms idx ;;
    mapM (fun wf => row <- np_index wf (nbefore (base self)) ;;
                    np_take row chan_inds) wfs
  else Raise UnboundLocalError.

(** One entry of [np.dot(wf_data, locations) / np.sum(wf_data, axis=1)]:
    the row [i] of weights [w], out of [n] rows, against the column [j] of
    the locations, [col]. *)
Definition com (n i j : nat) (w col : list F) : F :=
  fdiv (np_dot n i j w col) (np_sum w).

(** [coms[:, j]] *)
Definition coms (wf_data : list (list F)) (j : nat) (col : list F)
  : list F :=
  imap (fun i w => com (length wf_data) i j w col) wf_data.

(** [idx, = np.nonzero(peaks['channel_ind'] == main_chan)] *)
Definition group_indices (peaks : list Peak) (main_chan : Z) : list nat :=
  np_nonzero (map (fun p => channel_ind p =? main_chan) peaks).

(** [peak_locations[field][idx] = values] *)
Definition assign (set : F -> XY.t F -> XY.t F) (idx : list nat)
  (values : list F) (peak_locations : list (XY.t F)) : list (XY.t F) :=
  fold_left (fun acc '(i, v) => alter (set v) i acc)
            (zip idx values) peak_locations.

(** The body of the loop over [np.unique(peaks['channel_ind'])]. *)
Definition group (self : t) (peaks : list Peak)
  (waveforms : list (list (list F)))
  (peak_locations : list (XY.t F)) (main_chan : Z)
  : result (list (XY.t F)) :=
  let idx := group_indices peaks main_chan in
  mask_row <- np_index (neighbours_mask (base self)) main_chan ;;
  let chan_inds := np_nonzero mask_row in
  local_contact_locations <-
    np_take (contact_locations (base self)) chan_inds ;;
  wf_data <- feature_data self waveforms idx chan_inds ;;
  col0 <- mapM (fun loc => np_index loc 0) local_contact_locations ;;
  let peak_locations :=
    assign XY.set_x idx (coms wf_data 0 col0) peak_locations in
  col1 <- mapM (fun loc => np_index loc 1) local_contact_locations ;;
  Ok (assign XY.set_y idx (coms wf_data 1 col1) peak_locations).

Definition compute_buffer (self : t) (traces : list (list F))
  (peaks : list Peak) (waveforms : list (list (list F)))
  : result (list (XY.t F)) :=
  let peak_locations := np_zeros (length peaks) XY.zero in
  foldM (group self peaks waveforms)
        (np_unique (map channel_ind peaks))
        peak_locations.

(** *** One peak of a group

    The same computation read for a single peak, with which the grouped
    loop above is compared: [feature_row] is the branch of [feature_data]
    on one snippet, [localize] the centre of mass of the peak whose weights
    are the row [k] of a group of [n] peaks. *)
Definition feature_row (self : t) (chan_inds : list nat)
  (wf : list (list F)) : result (list F) :=
  if String.eqb (feature self) "ptp" then
    rows <- select_channels wf chan_inds ;; np_ptp rows
  else if String.eqb (feature self) "mean" then
    rows <- select_channels wf chan_inds ;;
    Ok (np_mean (length chan_inds) rows)
  else if String.eqb (feature self) "energy" then
    rows <- select_channels wf chan_inds ;;
    Ok (np_norm (length chan_inds) rows)
  else if String.eqb (feature self) "v_origin" then
    row <- np_index wf (nbefore (base self)) ;; np_take row chan_inds
  else Raise UnboundLocalError.

Definition localize (self : t) (n k : nat) (peak : Peak)
  (wf : list (list F)) : result (XY.t F) :=
  mask_row <- np_index (neighbours_mask (base self)) (channel_ind peak) ;;
  let chan_inds := np_nonzero mask_row in
  local_contact_locations <-
    np_take (contact_locations (base self)) chan_inds ;;
  w <- feature_row self chan_inds wf ;;
  col0 <- mapM (fun loc => np_index loc 0) local_contact_locations ;;
  col1 <- mapM (fun loc => np_index loc 1) local_contact_locations ;;
  Ok {| XY.x := com n k 0 w col0; XY.y := com n k 1 w col1 |}.

(** *** The weighted centroid, channel by channel

    The neighbours of a channel, the weight of one neighbour channel (the
    feature applied to that channel's waveform, in the arithmetic of the
    dtype of the waveforms) and the centroid [sum (w_c * p_c) / sum w_c]
    with its two sums accumulated from left to right. *)
Definition neighbour_channels (mask_row : list bool) : list nat :=
  filter (fun c => mask_row !! c = Some true) (seq 0 (length mask_row)).

(** The waveform of channel [c]: its value at every sample of the window. *)
Definition channel_waveform (wf : list (list F)) (c : nat)
  : result (list F) :=
  mapM (fun row => match row !! c with
                   | Some v => Ok v
                   | None => Raise IndexError
                   end) wf.

Definition feature_weight (self : t) (wf : list (list F)) (c : nat)
  : result F :=
  if String.eqb (feature self) "ptp" then
    s <- channel_waveform wf c ;;
    hi <- np_max s ;; lo <- np_min s ;; Ok (fsub hi lo)
  else if String.eqb (feature self) "mean" then
    s <- channel_waveform wf c ;;
    Ok (fdiv (mean_sum (map as_float s)) (of_nat (length s)))
  else if String.eqb (feature self) "energy" then
    s <- channel_waveform wf c ;;
    Ok (fsqrt (norm_sum (map (fun v => fmul (as_float v) (as_float v)) s)))
  else if String.eqb (feature self) "v_origin" then
    row <- np_index wf (nbefore (base self)) ;;
    match row !! c with
    | Some v => Ok v
    | None => Raise IndexError
    end
  else Raise UnboundLocalError.

(** The coordinate [k] of the contact [c]. *)
Definition coordinate (self : t) (k : Z) (c : nat) : result F :=
  match contact_locations (base self) !! c with
  | Some loc => np_index loc k
  | None => Raise IndexError
  end.


(** *** Well-shaped inputs

    The shapes a run presents: a square mask over the channels of the
    probe, one location with at least two coordinates per channel, peaks on
    channels of the probe, and one snippet per peak, over all channels, long
    enough to hold the sample [nbefore]. *)
Definition supported_features : list string :=
  ["ptp"; "mean"; "energy"; "v_origin"].

Definition supported (feature : string) : bool :=
  existsb (String.eqb feature) supported_features.

Definition geometry_ok (step : PeakPipelineStep F) : Prop :=
  let nchan := length (neighbours_mask step) in
  length (contact_locations step) = nchan /\
  Forall (fun loc => (2 <= length loc)%nat) (contact_locations step) /\
  Forall (fun row => length row = nchan) (neighbours_mask step).

Definition snippet_ok (self : t) (wf : list (list F)) : Prop :=
  0 <= nbefore (base self) < Z.of_nat (length wf) /\
  Forall (fun row => length row = length (neighbours_mask (base self))) wf.

Definition well_shaped (self : t) (peaks : list Peak)
  (waveforms : list (list (list F))) : Prop :=
  supported (feature self) = true /\
  geometry_ok (base self) /\
  Forall (fun p => 0 <= channel_ind p
                   < Z.of_nat (length (neighbours_mask (base self)))) peaks /\
  length waveforms = length peaks /\
  Forall (snippet_ok self) waveforms.
End Step.
Arguments t F : clear implicits.
End LocalizeCenterOfMass.

(** ** Monotonicity enforcer *)

(** Modelled from the spec: [make_radial_order_parents] and
    [enforce_decrease_shells_ptp] are imported from
    [postprocessing.unit_localization]. The structure the first one builds is,
    for every channel, the sequence of its radial shells (shell 0 holds the
    channel itself); a shell lists positions of the amplitude vector. The
    second one processes the shells in increasing order starting at shell 1,
    and clamps every amplitude of shell k that exceeds the minimum amplitude
    of shell k-1 down to that minimum; all channels of a shell are compared
    with the same minimum. *)
Definition ShellOrder : Type := list (list nat).
Definition RadialParents : Type := list ShellOrder.

Section Enforcer.
Context {F : Type} {SF : Scalar F}.

Definition clamp_channel (m : F) (amps : list F) (c : nat)
  : result (list F) :=
  match amps !! c with
  | Some a => Ok (if fltb m a then <[c := m]> amps else amps)
  | None => Raise IndexError
  end.

Definition enforce_shell (amps : list F) (prev shell : list nat)
  : result (list F) :=
  vals <- np_take amps prev ;;
  m <- np_min vals ;;
  foldM (clamp_channel m) shell amps.

Fixpoint enforce_shells (amps : list F) (prev : list nat)
  (shells : list (list nat)) : result (list F) :=
  match shells with
  | [] => Ok amps
  | shell :: rest =>
      amps' <- enforce_shell amps prev shell ;;
      enforce_shells amps' shell rest
  end.

Definition enforce_decrease_shells_ptp (wf_ptp : list F) (maxchan : Z)
  (radial_parents : RadialParents) : result (list F) :=
  shells <- np_index radial_parents maxchan ;;
  match shells with
  | [] => Ok wf_ptp
  | shell0 :: rest => enforce_shells wf_ptp shell0 rest
  end.
End Enforcer.

(** A shell fits an amplitude vector of length [n] when it is not empty and
    lists positions below [n]. *)
Definition shell_ok (n : nat) (shell : list nat) : Prop :=
  shell <> [] /\ Forall (fun c => (c < n)%nat) shell.

(** ** LocalizeMonopolarTriangulation *)

Module LocalizeMonopolarTriangulation.
Section Step.
Context {F : Type} {SF : Scalar F}.

(** [make_radial_order_parents] and [solve_monopolar_triangulation] come
    from [postprocessing.unit_localization]; the step is parameterised by
    them. *)
Variable make_radial_order_parents :
  list (list F) -> list (list bool) -> RadialParents.
Variable solve_monopolar_triangulation :
  list F -> list (list F) -> F -> string -> result (XYZA.t F).

Record t : Type := {
  base : PeakPipelineStep F;
  max_distance_um : F;
  optimizer : string;
  enforce_decrease_radial_parents : option RadialParents
}.

Definition __init__ (step : PeakPipelineStep F) (max_distance_um : F)
  (optimizer : string) (enforce_decrease : bool) : result t :=
  Ok {| base := step;
        max_distance_um := max_distance_um;
        optimizer := optimizer;
        enforce_decrease_radial_parents :=
          if enforce_decrease
          then Some (make_radial_order_parents (contact_locations step)
                                               (neighbours_mask step))
          else None |}.

(** [traces[sample_ind - nbefore:sample_ind + nafter, :]] *)
Definition window (self : t) (traces : list (list F)) (peak : Peak)
  : list (list F) :=
  py_slice traces (sample_ind peak - nbefore (base self))
                  (sample_ind peak + nafter (base self)).

(** The amplitude vector handed to the solver: [wf.ptp(axis=0)], passed
    through the enforcer when the step holds radial parents. *)
Definition amplitudes (self : t) (traces : list (list F)) (peak : Peak)
  (chan_inds : list nat) : result (list F) :=
  wf <- select_channels (window self traces peak) chan_inds ;;
  wf_ptp <- np_ptp wf ;;
  match enforce_decrease_radial_parents self with
  | Some radial_parents =>
      enforce_decrease_shells_ptp wf_ptp (channel_ind peak) radial_parents
  | None => Ok wf_ptp
  end.

(** The body of the loop over the peaks. *)
Definition localize (self : t) (traces : list (list F)) (peak : Peak)
  : result (XYZA.t F) :=
  chan_mask <- np_index (neighbours_mask (base self)) (channel_ind peak) ;;
  let chan_inds := np_nonzero chan_mask in
  local_contact_locations <-
    np_take (contact_locations (base self)) chan_inds ;;
  wf_ptp <- amplitudes self traces peak chan_inds ;;
  solve_monopolar_triangulation wf_ptp local_contact_locations
    (max_distance_um self) (optimizer self).

Definition compute_buffer (self : t) (traces : list (list F))
  (peaks : list Peak) : result (list (XYZA.t F)) :=
  let peak_locations := np_zeros (length peaks) XYZA.zero in
  foldM (fun peak_locations '(i, peak) =>
           location <- localize self traces peak ;;
           Ok (<[i := location]> peak_locations))
        (enumerate peaks)
        peak_locations.
End Step.
Arguments t F : clear implicits.
End LocalizeMonopolarTriangulation.

(** ** localize_peaks *)

(** Modelled from the spec: [possible_localization_methods] is imported
    from [postprocessing.unit_localization]; the specification gives the
    three method names. *)
Definition possible_localization_methods : list string :=
  ["peak_channel"; "center_of_mass"; "monopolar_triangulation"].

(** The keyword arguments a caller may pass on to a step; [None] is a keyword
    that was not given. *)
Record MethodKwargs (F : Type) : Type := {
  kw_ms_before : option F;
  kw_ms_after : option F;
  kw_local_radius_um : option F;
  kw_feature : option string;
  kw_max_distance_um : option F;
  kw_optimizer : option string;
  kw_enforce_decrease : option bool
}.

Arguments kw_ms_before {F} _.
Arguments kw_ms_after {F} _.
Arguments kw_local_radius_um {F} _.
Arguments kw_feature {F} _.
Arguments kw_max_distance_um {F} _.
Arguments kw_optimizer {F} _.
Arguments kw_enforce_decrease {F} _.

(** The step handed to the pipeline. *)
Inductive step (F : Type) : Type :=
| PeakChannelStep (s : PeakPipelineStep F)
| CenterOfMassStep (s : LocalizeCenterOfMass.t F)
| MonopolarTriangulationStep (s : LocalizeMonopolarTriangulation.t F).

Arguments PeakChannelStep {F} s.
Arguments CenterOfMassStep {F} s.
Arguments MonopolarTriangulationStep {F} s.

Section LocalizePeaks.
Context {F : Type} {SF : Scalar F}.

(** The collaborators of [localize_peaks]: the recording, the job options,
    [split_job_kwargs], [PeakPipelineStep.__init__], the shell builder and
    the pipeline engine. *)
Variables (Recording Kwargs JobKwargs Output : Type).
Variable split_job_kwargs : Kwargs -> MethodKwargs F * JobKwargs.
Variable pipeline_step_init :
  Recording -> F -> F -> F -> result (PeakPipelineStep F).
Variable make_radial_order_parents :
  list (list F) -> list (list bool) -> RadialParents.
Variable run_peak_pipeline :
  Recording -> list Peak -> list (step F) -> JobKwargs -> result Output.

Definition given {A : Type} (o : option A) : bool :=
  match o with Some _ => true | None => false end.

(** [LocalizeCenterOfMass(recording, **method_kwargs)] *)
Definition new_center_of_mass (recording : Recording) (kw : MethodKwargs F)
  : result (step F) :=
  if given (kw_max_distance_um kw) || given (kw_optimizer kw)
     || given (kw_enforce_decrease kw)
  then Raise TypeError
  else
    base <- pipeline_step_init recording
              (default (of_nat 1) (kw_ms_before kw))
              (default (of_nat 1) (kw_ms_after kw))
              (default (of_nat 75) (kw_local_radius_um kw)) ;;
    s <- LocalizeCenterOfMass.__init__ base (default "ptp" (kw_feature kw)) ;;
    Ok (CenterOfMassStep s).

(** [LocalizeMonopolarTriangulation(recording, **method_kwargs)] *)
Definition new_monopolar_triangulation (recording : Recording)
  (kw : MethodKwargs F) : result (step F) :=
  if given (kw_feature kw) then Raise TypeError
  else
    base <- pipeline_step_init recording
              (default (of_nat 1) (kw_ms_before kw))
              (default (of_nat 1) (kw_ms_after kw))
              (default (of_nat 75) (kw_local_radius_um kw)) ;;
    s <- LocalizeMonopolarTriangulation.__init__ make_radial_order_parents
           base
           (default (of_nat 1000) (kw_max_distance_um kw))
           (default "minimize_with_log_penality" (kw_optimizer kw))
           (default false (kw_enforce_decrease kw)) ;;
    Ok (MonopolarTriangulationStep s).

(** [LocalizePeakChannel(recording, **method_kwargs)] *)
Definition new_peak_channel (recording : Recording) (kw : MethodKwargs F)
  : result (step F) :=
  if given (kw_feature kw) || given (kw_max_distance_um kw)
     || given (kw_optimizer kw) || given (kw_enforce_decrease kw)
  then Raise TypeError
  else
    base <- pipeline_step_init recording
              (default (of_nat 1) (kw_ms_before kw))
              (default (of_nat 1) (kw_ms_after kw))
              (default (of_nat 75) (kw_local_radius_um kw)) ;;
    Ok (PeakChannelStep base).

(** The [if]/[elif] chain on [method]; it has no [else], so [step] would be
    unbound for any other name that passed the assertion. *)
Definition dispatch (recording : Recording) (method : string)
  (method_kwargs : MethodKwargs F) : result (step F) :=
  if String.eqb method "center_of_mass" then
    new_center_of_mass recording method_kwargs
  else if String.eqb method "monopolar_triangulation" then
    new_monopolar_triangulation recording method_kwargs
  else if String.eqb method "peak_channel" then
    new_peak_channel recording method_kwargs
  else Raise UnboundLocalError.

Definition method_supported (method : string) : bool :=
  existsb (String.eqb method) possible_localization_methods.

Definition localize_peaks (recording : Recording) (peaks : list Peak)
  (method : string) (kwargs : Kwargs) : result Output :=
  if negb (method_supported method) then Raise AssertionError
  else
    let '(method_kwargs, job_kwargs) := split_job_kwargs kwargs in
    step <- dispatch recording method method_kwargs ;;
    run_peak_pipeline recording peaks [step] job_kwargs.
End LocalizePeaks.


(** ** The arrays as objects

    numpy arrays are mutable objects reached through references. To follow
    what a call writes, the steps are read a second time over a store of
    objects: an input of [compute_buffer] is a reference into the store, an
    array the code creates ([np.zeros], the result of [ptp]) is a new object,
    and an assignment into an array replaces the object behind its
    reference. The numerical work of a loop body is the one of the value
    reading above. *)
Module Store.
Inductive ndarray (F : Type) : Type :=
| Array1 (v : list F)
| Array2 (m : list (list F))
| Array3 (t : list (list (list F)))
| Mask (m : list (list bool))
| PeakArray (p : list Peak)
| Parents (r : RadialParents)
| LocationsXY (l : list (XY.t F))
| LocationsXYZA (l : list (XYZA.t F)).

Arguments Array1 {F} v.
Arguments Array2 {F} m.
Arguments Array3 {F} t.
Arguments Mask {F} m.
Arguments PeakArray {F} p.
Arguments Parents {F} r.
Arguments LocationsXY {F} l.
Arguments LocationsXYZA {F} l.

Definition ref : Type := nat.
Abbreviation store F := (list (ndarray F)) (only parsing).

(** A computation over the store that may raise. *)
Definition St (F A : Type) : Type := store F -> result (A * store F).

Definition ret {F A : Type} (a : A) : St F A := fun h => Ok (a, h).

Definition bindS {F A B : Type} (m : St F A) (k : A -> St F B) : St F B :=
  fun h => match m h with
           | Ok (a, h') => k a h'
           | Raise e => Raise e
           end.

Definition lift {F A : Type} (m : result A) : St F A :=
  fun h => match m with
           | Ok a => Ok (a, h)
           | Raise e => Raise e
           end.

(** A new object, behind a reference no one else holds. *)
Definition new {F : Type} (o : ndarray F) : St F ref :=
  fun h => Ok (length h, h ++ [o]).

Definition load {F : Type} (r : ref) : St F (ndarray F) :=
  fun h => match h !! r with
           | Some o => Ok (o, h)
           | None => Raise TypeError
           end.

(** Writing into the array behind [r]. *)
Definition write {F : Type} (r : ref) (o : ndarray F) : St F unit :=
  fun h => match h !! r with
           | Some _ => Ok (tt, <[r := o]> h)
           | None => Raise TypeError
           end.

Fixpoint for_each {F A : Type} (body : A -> St F unit) (l : list A)
  : St F unit :=
  match l with
  | [] => ret tt
  | a :: t => bindS (body a) (fun _ => for_each body t)
  end.

Notation "x <~ m ;; k" := (bindS m (fun x => k))
  (at level 100, m at next level, right associativity).

Section Steps.
Context {F : Type} {SF : Scalar F} {N : Numpy F}.

Definition load_array1 (r : ref) : St F (list F) :=
  o <~ load r ;;
  match o with Array1 v => ret v | _ => lift (Raise TypeError) end.

Definition load_array2 (r : ref) : St F (list (list F)) :=
  o <~ load r ;;
  match o with Array2 m => ret m | _ => lift (Raise TypeError) end.

Definition load_array3 (r : ref) : St F (list (list (list F))) :=
  o <~ load r ;;
  match o with Array3 t => ret t | _ => lift (Raise TypeError) end.

Definition load_mask (r : ref) : St F (list (list bool)) :=
  o <~ load r ;;
  match o with Mask m => ret m | _ => lift (Raise TypeError) end.

Definition load_peaks (r : ref) : St F (list Peak) :=
  o <~ load r ;;
  match o with PeakArray p => ret p | _ => lift (Raise TypeError) end.

Definition load_parents (r : ref) : St F RadialParents :=
  o <~ load r ;;
  match o with Parents p => ret p | _ => lift (Raise TypeError) end.

Definition load_xy (r : ref) : St F (list (XY.t F)) :=
  o <~ load r ;;
  match o with LocationsXY l => ret l | _ => lift (Raise TypeError) end.

Definition load_xyza (r : ref) : St F (list (XYZA.t F)) :=
  o <~ load r ;;
  match o with LocationsXYZA l => ret l | _ => lift (Raise TypeError) end.

(** A step object: it refers to the arrays of the probe. *)
Record Self : Type := {
  contact_locations_ref : ref;
  neighbours_mask_ref : ref;
  self_nbefore : Z;
  self_nafter : Z
}.

Definition load_step (self : Self) : St F (PeakPipelineStep F) :=
  locations <~ load_array2 (contact_locations_ref self) ;;
  mask <~ load_mask (neighbours_mask_ref self) ;;
  ret {| contact_locations := locations; neighbours_mask := mask;
         nbefore := self_nbefore self; nafter := self_nafter self |}.

(** [LocalizePeakChannel.compute_buffer] *)
Definition peak_channel_compute_buffer (self : Self) (traces peaks : ref)
  : St F ref :=
  ps <~ load_peaks peaks ;;
  peak_locations <~ new (LocationsXY (np_zeros (length ps) XY.zero)) ;;
  _ <~ for_each
         (fun '(index, main_chan) =>
            step <~ load_step self ;;
            locations <~ lift (np_index (contact_locations step) main_chan) ;;
            l0 <~ lift (np_index locations 0) ;;
            pl <~ load_xy peak_locations ;;
            _ <~ write peak_locations
                   (LocationsXY (alter (XY.set_x l0) index pl)) ;;
            l1 <~ lift (np_index locations 1) ;;
            pl <~ load_xy peak_locations ;;
            write peak_locations (LocationsXY (alter (XY.set_y l1) index pl)))
         (enumerate (map channel_ind ps)) ;;
  ret peak_locations.

(** [LocalizeCenterOfMass.compute_buffer]: a pass of the loop reads the
    inputs and assigns into [peak_locations]. *)
Definition center_of_mass_compute_buffer (self : Self) (feature : string)
  (traces peaks waveforms : ref) : St F ref :=
  ps <~ load_peaks peaks ;;
  peak_locations <~ new (LocationsXY (np_zeros (length ps) XY.zero)) ;;
  _ <~ for_each
         (fun main_chan =>
            step <~ load_step self ;;
            ps <~ load_peaks peaks ;;
            wfs <~ load_array3 waveforms ;;
            pl <~ load_xy peak_locations ;;
            pl' <~ lift (LocalizeCenterOfMass.group
                           {| LocalizeCenterOfMass.base := step;
                              LocalizeCenterOfMass.feature := feature |}
                           ps wfs pl main_chan) ;;
            write peak_locations (LocationsXY pl'))
         (np_unique (map channel_ind ps)) ;;
  ret peak_locations.

(** Modelled from the spec: [enforce_decrease_shells_ptp(..., in_place=True)]
    leaves its result in the buffer it was given. *)
Definition enforce_decrease_shells_ptp_in_place (wf_ptp : ref) (maxchan : Z)
  (radial_parents : ref) : St F unit :=
  amps <~ load_array1 wf_ptp ;;
  parents <~ load_parents radial_parents ;;
  amps' <~ lift (enforce_decrease_shells_ptp amps maxchan parents) ;;
  write wf_ptp (Array1 amps').

(** [LocalizeMonopolarTriangulation.compute_buffer]: [wf.ptp(axis=0)] is a
    new array, the one the enforcer works on. *)
Definition monopolar_triangulation_compute_buffer
  (solve_monopolar_triangulation :
     list F -> list (list F) -> F -> string -> result (XYZA.t F))
  (self : Self) (enforce_decrease_radial_parents : option ref)
  (max_distance_um : F) (optimizer : string) (traces peaks : ref)
  : St F ref :=
  ps <~ load_peaks peaks ;;
  peak_locations <~ new (LocationsXYZA (np_zeros (length ps) XYZA.zero)) ;;
  _ <~ for_each
         (fun '(i, peak) =>
            step <~ load_step self ;;
            chan_mask <~ lift (np_index (neighbours_mask step)
                                        (channel_ind peak)) ;;
            let chan_inds := np_nonzero chan_mask in
            local_contact_locations <~
              lift (np_take (contact_locations step) chan_inds) ;;
            tr <~ load_array2 traces ;;
            wf <~ lift (select_channels
                          (py_slice tr (sample_ind peak - nbefore step)
                                       (sample_ind peak + nafter step))
                          chan_inds) ;;
            ptp <~ lift (np_ptp wf) ;;
            wf_ptp <~ new (Array1 ptp) ;;
            _ <~ match enforce_decrease_radial_parents with
                 | Some radial_parents =>
                     enforce_decrease_shells_ptp_in_place wf_ptp
                       (channel_ind peak) radial_parents
                 | None => ret tt
                 end ;;
            amps <~ load_array1 wf_ptp ;;
            location <~ lift (solve_monopolar_triangulation amps
                                local_contact_locations max_distance_um
                                optimizer) ;;
            pl <~ load_xyza peak_locations ;;
            write peak_locations (LocationsXYZA (<[i := location]> pl)))
         (enumerate ps) ;;
  ret peak_locations.

(** The reference a triangulation step holds on its radial parents, if any,
    and what the store has behind it. *)
Definition parents_in_store (h : store F) (r : option ref)
  (rp : option RadialParents) : Prop :=
  match r, rp with
  | Some r, Some p => h !! r = Some (Parents p)
  | None, None => True
  | _, _ => False
  end.

(** Every object of [h] is still there, as it was, in [h']. *)
Definition unchanged (h h' : store F) : Prop :=
  forall r o, h !! r = Some o -> h' !! r = Some o.

Definition is_array1 (o : ndarray F) : Prop := exists v, o = Array1 v.
End Steps.
End Store.

(** ** A four-channel linear probe, in binary64

    The probe of the end-to-end example: four contacts 20 um apart on a line,
    every channel a neighbour of every other. The runs below use the kernel
    [sequential]. *)
Module Example.
#[local] Existing Instance sequential.

Definition probe : PeakPipelineStep float :=
  {| contact_locations :=
       [[0%float; 0%float]; [20%float; 0%float];
        [40%float; 0%float]; [60%float; 0%float]];
     neighbours_mask := replicate 4 (replicate 4 true);
     nbefore := 1;
     nafter := 2 |}.

Definition peak0 : Peak :=
  {| sample_ind := 2; channel_ind := 2; segment_ind := 0 |}.
Definition peak1 : Peak :=
  {| sample_ind := 3; channel_ind := 0; segment_ind := 0 |}.
Definition peak2 : Peak :=
  {| sample_ind := 4; channel_ind := 2; segment_ind := 0 |}.

Definition peaks : list Peak := [peak0; peak1; peak2].

(** One snippet of three samples per peak; the first one has the
    peak-to-peak amplitudes 1, 4, 10, 4. *)
Definition waveforms : list (list (list float)) :=
  [ [[0%float; 0%float; 0%float; 0%float];
     [1%float; 4%float; 10%float; 4%float];
     [0%float; 1%float; 2%float; 1%float]];
    [[1%float; 1%float; 1%float; 1%float];
     [3%float; 2%float; 1%float; 1%float];
     [2%float; 1%float; 1%float; 1%float]];
    [[2%float; 2%float; 2%float; 2%float];
     [3%float; 4%float; 6%float; 4%float];
     [2%float; 3%float; 4%float; 3%float]] ].

Definition traces : list (list float) :=
  [ [0%float; 0%float; 0%float; 0%float];
    [1%float; 1%float; 1%float; 1%float];
    [1%float; 4%float; 10%float; 4%float];
    [3%float; 2%float; 1%float; 1%float];
    [2%float; 2%float; 2%float; 2%float];
    [3%float; 4%float; 6%float; 4%float] ].

Definition center_of_mass (feature : string) : LocalizeCenterOfMass.t float :=
  {| LocalizeCenterOfMass.base := probe;
     LocalizeCenterOfMass.feature := feature |}.

(** What a call returned, or the empty array if it raised. *)
Definition returned {A : Type} (r : result (list A)) : list A :=
  match r with Ok out => out | Raise _ => [] end.

Definition center_of_mass_out : list (XY.t float) :=
  Eval vm_compute in
    returned (LocalizeCenterOfMass.compute_buffer
                (center_of_mass "ptp") traces peaks waveforms).

Definition peak_channel_out : list (XY.t float) :=
  Eval vm_compute in
    returned (LocalizePeakChannel.compute_buffer probe traces peaks).

(** A stand-in for the solver and for the shell builder, to run the
    triangulation step on the probe: the stand-in solver answers with the
    location of the first contact and the sum of the amplitudes, the shells of
    a channel are the channel, then its two nearest contacts, then the last
    one. *)
Definition solver (wf_ptp : list float) (locations : list (list float))
  (max_distance_um : float) (optimizer : string) : result (XYZA.t float) :=
  loc <- np_index locations 0 ;;
  x <- np_index loc 0 ;;
  y <- np_index loc 1 ;;
  Ok {| XYZA.x := x; XYZA.y := y; XYZA.z := 1%float;
        XYZA.alpha := fsum wf_ptp |}.

Definition shells (locations : list (list float)) (mask : list (list bool))
  : RadialParents :=
  [ [[0]; [1]; [2]; [3]];
    [[1]; [0; 2]; [3]];
    [[2]; [1; 3]; [0]];
    [[3]; [2]; [1]; [0]] ]%nat.

Definition triangulation (enforce_decrease : bool)
  : LocalizeMonopolarTriangulation.t float :=
  {| LocalizeMonopolarTriangulation.base := probe;
     LocalizeMonopolarTriangulation.max_distance_um := 1000%float;
     LocalizeMonopolarTriangulation.optimizer := "minimize_with_log_penality";
     LocalizeMonopolarTriangulation.enforce_decrease_radial_parents :=
       if enforce_decrease
       then Some (shells (contact_locations probe) (neighbours_mask probe))
       else None |}.

Definition triangulation_out : list (XYZA.t float) :=
  Eval vm_compute in
    returned (LocalizeMonopolarTriangulation.compute_buffer solver
                (triangulation false) traces peaks).

(** Weights that cancel: the means of the first snippet are 0, 0, 1, -1;
    the second snippet is silent. *)
Definition silent_peaks : list Peak := [peak0; peak2].

Definition silent_waveforms : list (list (list float)) :=
  [ replicate 3 [0%float; 0%float; 1%float; (-1)%float];
    replicate 3 [0%float; 0%float; 0%float; 0%float] ].

Definition silent_out : list (XY.t float) :=
  Eval vm_compute in
    returned (LocalizeCenterOfMass.compute_buffer (center_of_mass "mean")
                traces silent_peaks silent_waveforms).

(** A peak on the first sample of the buffer, closer to its start than
    [nbefore], and a peak on its last sample. *)
Definition early_peak : Peak :=
  {| sample_ind := 0; channel_ind := 2; segment_ind := 0 |}.
Definition late_peak : Peak :=
  {| sample_ind := 5; channel_ind := 2; segment_ind := 0 |}.

(** Amplitudes that increase outwards from channel 2, and what the enforcer
    makes of them. *)
Definition rising_ptp : list float := [5%float; 3%float; 9%float; 12%float].

Definition enforced_ptp : list float :=
  Eval vm_compute in
    returned (enforce_decrease_shells_ptp rising_ptp 2
                (shells (contact_locations probe) (neighbours_mask probe))).

(** The inputs of a call as objects of a store, and a step that refers to
    the arrays of the probe. *)
Definition inputs : list (Store.ndarray float) :=
  [ Store.Array2 traces; Store.PeakArray peaks; Store.Array3 waveforms;
    Store.Array2 (contact_locations probe);
    Store.Mask (neighbours_mask probe);
    Store.Parents (shells (contact_locations probe) (neighbours_mask probe)) ].

Definition self : Store.Self :=
  {| Store.contact_locations_ref := 3%nat;
     Store.neighbours_mask_ref := 4%nat;
     Store.self_nbefore := 1; Store.self_nafter := 2 |}.

(** The store a call left, or the empty store if it raised. *)
Definition left_store {A : Type}
  (r : result (A * list (Store.ndarray float)))
  : list (Store.ndarray float) :=
  match r with Ok (_, h) => h | Raise _ => [] end.

Definition after_peak_channel : list (Store.ndarray float) :=
  Eval vm_compute in
    left_store (Store.peak_channel_compute_buffer self 0%nat 1%nat inputs).

Definition after_center_of_mass : list (Store.ndarray float) :=
  Eval vm_compute in
    left_store (Store.center_of_mass_compute_buffer self "ptp" 0%nat 1%nat
                  2%nat inputs).

Definition after_triangulation : list (Store.ndarray float) :=
  Eval vm_compute in
    left_store (Store.monopolar_triangulation_compute_buffer solver self
                  (Some 5%nat) 1000%float "minimize_with_log_penality"
                  0%nat 1%nat inputs).

(** A stand-in for the collaborators of [localize_peaks]: the recording is
    the probe, there are no job options, and the engine feeds the one buffer
    above to the step and returns the records as rows. *)
Definition no_kwargs : MethodKwargs float :=
  {| kw_ms_before := None; kw_ms_after := None; kw_local_radius_um := None;
     kw_feature := None; kw_max_distance_um := None; kw_optimizer := None;
     kw_enforce_decrease := None |}.

Definition step_init (recording : unit) (ms_before ms_after radius : float)
  : result (PeakPipelineStep float) := Ok probe.

Definition engine (recording : unit) (peaks : list Peak)
  (steps : list (step float)) (job_kwargs : unit)
  : result (list (list float)) :=
  match steps with
  | [PeakChannelStep s] =>
      out <- LocalizePeakChannel.compute_buffer s traces peaks ;;
      Ok (map (fun r => [XY.x r; XY.y r]) out)
  | [CenterOfMassStep s] =>
      out <- LocalizeCenterOfMass.compute_buffer s traces peaks waveforms ;;
      Ok (map (fun r => [XY.x r; XY.y r]) out)
  | [MonopolarTriangulationStep s] =>
      out <- LocalizeMonopolarTriangulation.compute_buffer solver s traces
               peaks ;;
      Ok (map (fun r => [XYZA.x r; XYZA.y r; XYZA.z r; XYZA.alpha r]) out)
  | _ => Raise TypeError
  end.

Definition run (method : string) (kwargs : MethodKwargs float)
  : result (list (list float)) :=
  localize_peaks unit (MethodKwargs float) unit (list (list float))
    (fun kw => (kw, tt)) step_init shells engine tt peaks method kwargs.
End Example.

(** ** The registry of documented methods

    The class attribute [name], the list [_methods_list] and the dictionary
    [localize_peak_methods] built from it at the end of the module.
    [LocalizePeakChannel] is left out of the list on purpose. *)
Inductive step_class : Type :=
| LocalizePeakChannelClass
| LocalizeCenterOfMassClass
| LocalizeMonopolarTriangulationClass.

Definition name (cls : step_class) : string :=
  match cls with
  | LocalizePeakChannelClass => "peak_channel"
  | LocalizeCenterOfMassClass => "center_of_mass"
  | LocalizeMonopolarTriangulationClass => "monopolar_triangulation"
  end.

Definition _methods_list : list step_class :=
  [LocalizeCenterOfMassClass; LocalizeMonopolarTriangulationClass].

(** A dictionary with string keys, as the list of its items; a key written
    twice keeps its last value. *)
Fixpoint dict_get {A : Type} (d : list (string * A)) (k : string) : option A :=
  match d with
  | [] => None
  | (k', v) :: rest =>
      match dict_get rest k with
      | Some v' => Some v'
      | None => if String.eqb k k' then Some v else None
      end
  end.

(** [{m.name: m for m in _methods_list}] *)
Definition localize_peak_methods : list (string * step_class) :=
  map (fun m => (name m, m)) _methods_list.

(** The class of a step object. *)
Definition class_of {F : Type} (s : step F) : step_class :=
  match s with
  | PeakChannelStep _ => LocalizePeakChannelClass
  | CenterOfMassStep _ => LocalizeCenterOfMassClass
  | MonopolarTriangulationStep _ => LocalizeMonopolarTriangulationClass
  end.

(** ** Peaks and buffers that differ where a step does not look *)



(** The peak as seen from a buffer that starts [m] samples earlier. *)
Definition shift_peak (m : Z) (p : Peak) : Peak :=
  {| sample_ind := sample_ind p + m;
     channel_ind := channel_ind p;
     segment_ind := segment_ind p |}.

(** Two arrays (samples x channels) with the same number of samples and the
    same values on the channels [chans]. *)
Definition agree_on {F : Type} (chans : list nat) (wf wf' : list (list F))
  : Prop :=
  Forall2 (fun row row' => forall c, c ∈ chans -> row !! c = row' !! c)
          wf wf'.

(** ** The linear probe with a radius of 25 um

    Every channel has its two nearest contacts as neighbours. *)
Module Sparse.
#[local] Existing Instance sequential.

Definition probe : PeakPipelineStep float :=
  {| contact_locations := contact_locations Example.probe;
     neighbours_mask :=
       [ [true; true; false; false];
         [true; true; true; false];
         [false; true; true; true];
         [false; false; true; true] ];
     nbefore := 1;
     nafter := 2 |}.

Definition center_of_mass : LocalizeCenterOfMass.t float :=
  {| LocalizeCenterOfMass.base := probe;
     LocalizeCenterOfMass.feature := "ptp" |}.

Definition triangulation : LocalizeMonopolarTriangulation.t float :=
  {| LocalizeMonopolarTriangulation.base := probe;
     LocalizeMonopolarTriangulation.max_distance_um := 1000%float;
     LocalizeMonopolarTriangulation.optimizer := "minimize_with_log_penality";
     LocalizeMonopolarTriangulation.enforce_decrease_radial_parents := None |}.

(** A peak on channel 0, and the same event with other sample and segment
    indices. *)
Definition peak : Peak :=
  {| sample_ind := 2; channel_ind := 0; segment_ind := 0 |}.
Definition peak' : Peak :=
  {| sample_ind := 40; channel_ind := 0; segment_ind := 3 |}.

(** Two snippets that differ on the channels 2 and 3 only. *)
Definition snippet : list (list float) :=
  [ [0%float; 0%float; 0%float; 0%float];
    [1%float; 4%float; 10%float; 4%float];
    [0%float; 1%float; 2%float; 1%float] ].
Definition snippet' : list (list float) :=
  [ [0%float; 0%float; 5%float; 7%float];
    [1%float; 4%float; 0%float; 0%float];
    [0%float; 1%float; 9%float; 8%float] ].

(** Two trace buffers that differ outside the window of [peak] and on the
    channels 2 and 3. *)
Definition traces' : list (list float) :=
  [ [9%float; 9%float; 9%float; 9%float];
    [1%float; 1%float; 7%float; 7%float];
    [1%float; 4%float; 7%float; 7%float];
    [3%float; 2%float; 7%float; 7%float];
    [9%float; 9%float; 9%float; 9%float];
    [9%float; 9%float; 9%float; 9%float] ].

Definition center_of_mass_out : list (XY.t float) :=
  Eval vm_compute in
    Example.returned (LocalizeCenterOfMass.compute_buffer center_of_mass
                        Example.traces [peak] [snippet]).
End Sparse.

(** ** A recording stored as 16-bit integers

    The linear probe, with a snippet whose channel 2 swings from -30000 to
    30000: the maximum minus the minimum, 60000, does not fit 16 bits. *)
Module Int16.
Definition probe : PeakPipelineStep Dtype.t :=
  {| contact_locations :=
       map (map Dtype.Float64) (contact_locations Example.probe);
     neighbours_mask := replicate 4 (replicate 4 true);
     nbefore := 1;
     nafter := 2 |}.

Definition center_of_mass : LocalizeCenterOfMass.t Dtype.t :=
  {| LocalizeCenterOfMass.base := probe;
     LocalizeCenterOfMass.feature := "ptp" |}.

Definition peak : Peak :=
  {| sample_ind := 1; channel_ind := 2; segment_ind := 0 |}.

Definition samples : list (list Z) :=
  [ [0; 0; -30000; 0];
    [1000; 2000; 30000; 1000];
    [0; 0; 0; 0] ].

Definition snippet : list (list Dtype.t) := map (map Dtype.Int16) samples.


Definition center_of_mass_out : list (XY.t Dtype.t) :=
  Eval vm_compute in
    Example.returned
      (LocalizeCenterOfMass.compute_buffer (N := dtype_sequential)
         center_of_mass snippet [peak] [snippet]).
End Int16.

(** ** Weights that are not binary fractions

    Two peaks on channel 2 of the linear probe; the snippet of the first
    has the peak-to-peak amplitudes 1/3, 2/3, 1/3, 1/3. [batched] is the run
    of the two peaks together, [alone] the run of the first peak on its own,
    both with the kernel [by_shape]. *)
Module Thirds.
Definition center_of_mass : LocalizeCenterOfMass.t float :=
  Example.center_of_mass "ptp".

Definition snippet : list (list float) :=
  [ [0; 0; 0; 0];
    [1 / 3; 2 / 3; 1 / 3; 1 / 3];
    [0; 0; 0; 0] ]%float.


Definition peaks : list Peak := [Example.peak0; Example.peak2].


End Thirds.

(** ** A window that holds a NaN

    Three channels in a row, each one a shell of channel 0, and a window of
    two samples whose channel 1 holds a NaN. *)
Module NotANumber.
Definition window : list (list float) :=
  [ [1; nan; 0];
    [4; 0; 5] ]%float.

Definition radial_parents : RadialParents := [ [[0]; [1]; [2]] ]%nat.

Definition wf_ptp : list float :=
  Eval vm_compute in Example.returned (np_ptp window).

Definition enforced : list float :=
  Eval vm_compute in
    Example.returned (enforce_decrease_shells_ptp wf_ptp 0 radial_parents).
End NotANumber.
(** * Properties *)

#[local] Close Scope string_scope.

(** ** The result monad and the loops *)

Lemma bind_Ok {A B : Type} (m : result A) (k : A -> result B) (b : B) :
  bind m k = Ok b <-> exists a, m = Ok a /\ k a = Ok b.
Proof.
  split.
  - destruct m as [a|e]; simpl; intros Hk; [eauto | discriminate].
  - intros (a & -> & Hk). exact Hk.
Qed.

Ltac inv_bind H :=
  repeat match type of H with
  | bind _ _ = Ok _ =>
      let a := fresh "v" in
      let Ha := fresh "Hv" in
      apply bind_Ok in H; destruct H as (a & Ha & H)
  end.

Lemma mapM_Ok {A B : Type} (f : A -> result B) (l : list A) (bs : list B) :
  mapM f l = Ok bs <-> Forall2 (fun a b => f a = Ok b) l bs.
Proof.
  revert bs. induction l as [|a l IH]; intros bs; simpl.
  - split.
    + intros [= <-]. constructor.
    + intros Hf. inversion Hf. reflexivity.
  - split.
    + intros H. inv_bind H. injection H as <-.
      constructor; [assumption | by apply IH].
    + intros Hf. inversion Hf as [|? b ? bs' Hb Hbs]; subst.
      rewrite Hb. simpl. apply IH in Hbs. rewrite Hbs. reflexivity.
Qed.

Lemma mapM_ext {A B : Type} (f g : A -> result B) (l : list A) :
  (forall a, a ∈ l -> f a = g a) -> mapM f l = mapM g l.
Proof.
  induction l as [|a l IH]; intros Hfg; simpl; [reflexivity|].
  rewrite Hfg by left. rewrite IH; [reflexivity|].
  intros b Hb. apply Hfg. by right.
Qed.

Lemma mapM_total {A B : Type} (f : A -> result B) (l : list A) :
  (forall a, a ∈ l -> exists b, f a = Ok b) -> exists bs, mapM f l = Ok bs.
Proof.
  induction l as [|a l IH]; intros Hf; simpl; [eauto|].
  destruct (Hf a) as [b Hb]; [left|]. rewrite Hb. simpl.
  destruct IH as [bs Hbs]; [intros; apply Hf; by right|].
  rewrite Hbs. simpl. eauto.
Qed.

Lemma mapM_length {A B : Type} (f : A -> result B) (l : list A) (bs : list B) :
  mapM f l = Ok bs -> length bs = length l.
Proof. intros H%mapM_Ok. symmetry. eapply Forall2_length, H. Qed.

Lemma mapM_lookup {A B : Type} (f : A -> result B) (l : list A) (bs : list B)
  (i : nat) (a : A) :
  mapM f l = Ok bs -> l !! i = Some a ->
  exists b, bs !! i = Some b /\ f a = Ok b.
Proof.
  intros H%mapM_Ok Ha.
  destruct (Forall2_lookup_l _ _ _ _ _ H Ha) as (b & Hb & Hf). eauto.
Qed.

Lemma mapM_lookup_r {A B : Type} (f : A -> result B) (l : list A)
  (bs : list B) (i : nat) (b : B) :
  mapM f l = Ok bs -> bs !! i = Some b ->
  exists a, l !! i = Some a /\ f a = Ok b.
Proof.
  intros H%mapM_Ok Hb.
  destruct (Forall2_lookup_r _ _ _ _ _ H Hb) as (a & Ha & Hf). eauto.
Qed.

Lemma foldM_ext {A S : Type} (f g : S -> A -> result S) (l : list A) (s : S) :
  (forall s a, f s a = g s a) -> foldM f l s = foldM g l s.
Proof.
  intros Hfg. revert s. induction l as [|a l IH]; intros s; simpl.
  - reflexivity.
  - rewrite Hfg. destruct (g s a); simpl; [apply IH | reflexivity].
Qed.

(** ** numpy indexing *)

Lemma np_index_Ok {A : Type} (l : list A) (i : Z) (a : A) :
  np_index l i = Ok a <->
  (0 <= i < Z.of_nat (length l) /\ l !! Z.to_nat i = Some a) \/
  (- Z.of_nat (length l) <= i < 0 /\
   l !! Z.to_nat (i + Z.of_nat (length l)) = Some a).
Proof.
  unfold np_index. cbv zeta.
  destruct (Z.ltb_spec i 0) as [Hneg|Hpos].
  - destruct (Z.leb_spec 0 (i + Z.of_nat (length l)));
      destruct (Z.ltb_spec (i + Z.of_nat (length l)) (Z.of_nat (length l)));
      simpl; try (split; [discriminate | intros [[? _]|[? _]]; lia]).
    destruct (l !! Z.to_nat (i + Z.of_nat (length l))) as [b|] eqn:Hl.
    + split.
      * intros [= ->]. right. split; [lia | reflexivity].
      * intros [[? _]|[_ [= ->]]]; [lia | reflexivity].
    + split; [discriminate|]. intros [[? _]|[_ ?]]; [lia | discriminate].
  - destruct (Z.leb_spec 0 i); destruct (Z.ltb_spec i (Z.of_nat (length l)));
      simpl; try (split; [discriminate | intros [[? _]|[? _]]; lia]).
    destruct (l !! Z.to_nat i) as [b|] eqn:Hl.
    + split.
      * intros [= ->]. left. split; [lia | reflexivity].
      * intros [[_ [= ->]]|[? _]]; [reflexivity | lia].
    + split; [discriminate|]. intros [[_ ?]|[? _]]; [discriminate | lia].
Qed.

Lemma np_index_nat {A : Type} (l : list A) (i : nat) :
  np_index l (Z.of_nat i) =
  match l !! i with Some a => Ok a | None => Raise IndexError end.
Proof.
  unfold np_index. cbv zeta.
  destruct (Z.ltb_spec (Z.of_nat i) 0) as [?|_]; [lia|].
  destruct (Z.leb_spec 0 (Z.of_nat i)) as [_|?]; [|lia].
  rewrite Nat2Z.id. simpl.
  destruct (Z.ltb_spec (Z.of_nat i) (Z.of_nat (length l))) as [Hlt|Hge].
  - reflexivity.
  - rewrite lookup_ge_None_2 by lia. reflexivity.
Qed.

Lemma np_take_Ok {A : Type} (l : list A) (idx : list nat) (r : list A) :
  np_take l idx = Ok r <-> Forall2 (fun i a => l !! i = Some a) idx r.
Proof.
  unfold np_take. rewrite mapM_Ok. split; intros H.
  - eapply Forall2_impl; [exact H|]. intros i a Hi. simpl in Hi.
    destruct (l !! i); [congruence | discriminate].
  - eapply Forall2_impl; [exact H|]. intros i a Hi. simpl. by rewrite Hi.
Qed.

Lemma np_take_length {A : Type} (l : list A) (idx : list nat) (r : list A) :
  np_take l idx = Ok r -> length r = length idx.
Proof. apply mapM_length. Qed.

Lemma np_take_lookup {A : Type} (l : list A) (idx : list nat) (r : list A)
  (k i : nat) :
  np_take l idx = Ok r -> idx !! k = Some i ->
  exists a, r !! k = Some a /\ l !! i = Some a.
Proof.
  intros H%np_take_Ok Hk.
  destruct (Forall2_lookup_l _ _ _ _ _ H Hk) as (a & Ha & Hl). eauto.
Qed.

Lemma np_take_total {A : Type} (l : list A) (idx : list nat) :
  (forall i, i ∈ idx -> is_Some (l !! i)) -> exists r, np_take l idx = Ok r.
Proof.
  intros Hidx. apply mapM_total. intros i Hi.
  destruct (Hidx i Hi) as [a Ha]. rewrite Ha. eauto.
Qed.

Lemma elem_of_nonzero_from (k : nat) (mask : list bool) (i : nat) :
  i ∈ nonzero_from k mask <->
  (k <= i)%nat /\ mask !! (i - k)%nat = Some true.
Proof.
  revert k. induction mask as [|b t IH]; intros k; simpl.
  - rewrite elem_of_nil. split; [tauto | intros [_ ?]; discriminate].
  - assert (Hstep : i ∈ nonzero_from (S k) t <->
                    (k < i)%nat /\ (b :: t) !! (i - k)%nat = Some true).
    { rewrite IH. split.
      - intros [Hlt Ht]. split; [lia|].
        replace (i - k)%nat with (S (i - S k)) by lia. exact Ht.
      - intros [Hlt Ht]. split; [lia|].
        replace (i - k)%nat with (S (i - S k)) in Ht by lia. exact Ht. }
    destruct b.
    + rewrite elem_of_cons, Hstep. split.
      * intros [->|[Hlt Ht]].
        -- split; [lia|]. by rewrite Nat.sub_diag.
        -- split; [lia | exact Ht].
      * intros [Hle Ht].
        destruct (decide (i = k)) as [->|Hne]; [by left|].
        right. split; [lia | exact Ht].
    + rewrite Hstep. split.
      * intros [Hlt Ht]. split; [lia | exact Ht].
      * intros [Hle Ht].
        destruct (decide (i = k)) as [->|Hne].
        -- rewrite Nat.sub_diag in Ht. discriminate.
        -- split; [lia | exact Ht].
Qed.

Lemma elem_of_np_nonzero (mask : list bool) (i : nat) :
  i ∈ np_nonzero mask <-> mask !! i = Some true.
Proof.
  unfold np_nonzero. rewrite elem_of_nonzero_from, Nat.sub_0_r.
  split; [tauto | intros; split; [lia | assumption]].
Qed.

Lemma NoDup_nonzero_from (k : nat) (mask : list bool) :
  NoDup (nonzero_from k mask).
Proof.
  revert k. induction mask as [|b t IH]; intros k; simpl; [constructor|].
  destruct b; [|apply IH].
  constructor; [|apply IH].
  rewrite elem_of_nonzero_from. lia.
Qed.

Lemma NoDup_np_nonzero (mask : list bool) : NoDup (np_nonzero mask).
Proof. apply NoDup_nonzero_from. Qed.

Lemma elem_of_insert_unique (z x : Z) (l : list Z) :
  x ∈ insert_unique z l <-> x = z \/ x ∈ l.
Proof.
  induction l as [|h t IH]; simpl.
  - rewrite list_elem_of_singleton, elem_of_nil. tauto.
  - destruct (Z.ltb_spec z h).
    + rewrite elem_of_cons. tauto.
    + destruct (Z.eqb_spec z h) as [->|Hne].
      * rewrite elem_of_cons. tauto.
      * rewrite !elem_of_cons, IH. tauto.
Qed.

Lemma elem_of_np_unique (x : Z) (l : list Z) : x ∈ np_unique l <-> x ∈ l.
Proof.
  unfold np_unique. induction l as [|h t IH]; simpl; [reflexivity|].
  rewrite elem_of_insert_unique, elem_of_cons, IH. reflexivity.
Qed.

Lemma mapM_map {A B C : Type} (g : A -> B) (f : B -> result C) (l : list A) :
  mapM f (map g l) = mapM (fun a => f (g a)) l.
Proof.
  induction l as [|a l IH]; simpl; [reflexivity|]. by rewrite IH.
Qed.

Lemma enumerate_from_map {A B : Type} (g : A -> B) (k : nat) (l : list A) :
  enumerate_from k (map g l) =
  map (fun '(i, a) => (i, g a)) (enumerate_from k l).
Proof.
  revert k. induction l as [|a l IH]; intros k; simpl; [reflexivity|].
  by rewrite IH.
Qed.

Lemma length_enumerate_from {A : Type} (k : nat) (l : list A) :
  length (enumerate_from k l) = length l.
Proof.
  revert k. induction l as [|a l IH]; intros k; simpl; [reflexivity|].
  by rewrite IH.
Qed.

(** The loop [for i, a in enumerate(l): out[i] = f(a)] on a fresh array
    computes [f] on every element, in order, and stops at the first
    exception. *)
Lemma foldM_enumerate_fill {A B : Type} (f : A -> result B)
  (body : list B -> nat * A -> result (list B)) (zero : B) :
  (forall done rest a,
     body (done ++ zero :: rest) (length done, a) =
     (b <- f a ;; Ok (done ++ b :: rest))) ->
  forall l done,
    foldM body (enumerate_from (length done) l)
          (done ++ replicate (length l) zero) =
    (bs <- mapM f l ;; Ok (done ++ bs)).
Proof.
  intros Hbody l. induction l as [|a l IH]; intros done; simpl.
  - reflexivity.
  - rewrite Hbody. destruct (f a) as [b|e]; simpl; [|reflexivity].
    specialize (IH (done ++ [b])).
    rewrite length_app, Nat.add_1_r in IH.
    rewrite <- (app_assoc done [b]) in IH. simpl in IH. rewrite IH.
    destruct (mapM f l) as [bs|e]; simpl; [|reflexivity].
    by rewrite <- app_assoc.
Qed.

Lemma foldM_enumerate_zeros {A B : Type} (f : A -> result B)
  (body : list B -> nat * A -> result (list B)) (zero : B) (l : list A) :
  (forall done rest a,
     body (done ++ zero :: rest) (length done, a) =
     (b <- f a ;; Ok (done ++ b :: rest))) ->
  foldM body (enumerate l) (np_zeros (length l) zero) = mapM f l.
Proof.
  intros Hbody.
  pose proof (foldM_enumerate_fill f body zero Hbody l []) as H.
  simpl in H. unfold enumerate, np_zeros. rewrite H.
  destruct (mapM f l); reflexivity.
Qed.

(** ** LocalizePeakChannel *)

Section PeakChannelFacts.
Context {F : Type} {SF : Scalar F}.
Implicit Types (self : PeakPipelineStep F) (traces : list (list F)).

Lemma peak_channel_compute_buffer_mapM self traces (peaks : list Peak) :
  LocalizePeakChannel.compute_buffer self traces peaks =
  mapM (LocalizePeakChannel.localize self) peaks.
Proof.
  unfold LocalizePeakChannel.compute_buffer. cbv zeta.
  rewrite <- (length_map channel_ind peaks).
  rewrite (foldM_enumerate_zeros
             (fun c => LocalizePeakChannel.localize self
                         {| sample_ind := 0; channel_ind := c;
                            segment_ind := 0 |})).
  - rewrite mapM_map. reflexivity.
  - intros done rest c. unfold LocalizePeakChannel.localize. simpl.
    destruct (np_index (contact_locations self) c) as [loc|e]; simpl;
      [|reflexivity].
    destruct (np_index loc 0) as [l0|e]; simpl; [|reflexivity].
    destruct (np_index loc 1) as [l1|e]; simpl; [|reflexivity].
    f_equal.
    rewrite <- (Nat.add_0_r (length done)).
    rewrite !alter_app_r. reflexivity.
Qed.
End PeakChannelFacts.

(** ** LocalizeCenterOfMass: the grouped loop, peak by peak *)

Section CenterOfMassFacts.
Context {F : Type} {SF : Scalar F} {N : Numpy F}.
Import LocalizeCenterOfMass.
Implicit Types (self : LocalizeCenterOfMass.t F) (peaks : list Peak).
Implicit Types (waveforms : list (list (list F))) (wf : list (list F)).
Implicit Types (pl : list (XY.t F)) (idx : list nat).

Lemma assign_length set idx (values : list F) pl :
  length (assign set idx values pl) = length pl.
Proof.
  unfold assign. revert values pl.
  induction idx as [|i idx IH]; intros [|v values] pl; simpl;
    try reflexivity.
  rewrite IH. apply length_alter.
Qed.

Lemma assign_lookup_notin set idx (values : list F) pl (i : nat) :
  i ∉ idx -> assign set idx values pl !! i = pl !! i.
Proof.
  unfold assign. revert values pl.
  induction idx as [|j idx IH]; intros [|v values] pl Hi; simpl;
    try reflexivity.
  rewrite not_elem_of_cons in Hi. destruct Hi as [Hne Hi].
  rewrite IH by assumption. by apply list_lookup_alter_ne.
Qed.

Lemma assign_lookup_in set idx (values : list F) pl (k i : nat) (v : F) :
  NoDup idx -> idx !! k = Some i -> values !! k = Some v ->
  assign set idx values pl !! i = set v <$> pl !! i.
Proof.
  revert values pl k.
  induction idx as [|j idx IH]; intros [|v0 values] pl k Hnd Hk Hv;
    try discriminate.
  apply NoDup_cons in Hnd as [Hj Hnd].
  destruct k as [|k]; simpl in Hk, Hv.
  - injection Hk as ->. injection Hv as ->.
    change (assign set (i :: idx) (v :: values) pl)
      with (assign set idx values (alter (set v) i pl)).
    rewrite assign_lookup_notin by assumption.
    apply list_lookup_alter_eq.
  - change (assign set (j :: idx) (v0 :: values) pl)
      with (assign set idx values (alter (set v0) j pl)).
    rewrite (IH values _ k) by assumption.
    rewrite list_lookup_alter_ne; [reflexivity|].
    intros ->. apply Hj. eapply list_elem_of_lookup_2, Hk.
Qed.

Lemma feature_data_Ok self waveforms idx (chan_inds : list nat)
  (data : list (list F)) :
  feature_data self waveforms idx chan_inds = Ok data ->
  exists wfs, np_take waveforms idx = Ok wfs /\
              mapM (feature_row self chan_inds) wfs = Ok data.
Proof.
  unfold feature_data, feature_row. intros H.
  repeat (destruct (String.eqb (feature self) _);
          [inv_bind H; eauto|]).
  discriminate.
Qed.

Lemma feature_data_total self waveforms idx (chan_inds : list nat)
  (wfs : list (list (list F))) (data : list (list F)) :
  np_take waveforms idx = Ok wfs -> wfs <> [] ->
  mapM (feature_row self chan_inds) wfs = Ok data ->
  feature_data self waveforms idx chan_inds = Ok data.
Proof.
  unfold feature_data, feature_row. intros Htake Hne H.
  repeat (destruct (String.eqb (feature self) _);
          [rewrite Htake; exact H|]).
  destruct wfs; [congruence | discriminate].
Qed.

Lemma elem_of_group_idx peaks (mc : Z) (i : nat) :
  i ∈ group_indices peaks mc <->
  exists p, peaks !! i = Some p /\ channel_ind p = mc.
Proof.
  unfold group_indices.
  rewrite elem_of_np_nonzero, list_lookup_fmap. split.
  - destruct (peaks !! i) as [p|]; simpl; [|discriminate].
    intros [= H%Z.eqb_eq]. eauto.
  - intros (p & -> & <-). simpl. by rewrite Z.eqb_refl.
Qed.

Lemma NoDup_group_indices peaks (mc : Z) : NoDup (group_indices peaks mc).
Proof. apply NoDup_np_nonzero. Qed.

Lemma group_indices_row peaks (mc : Z) (k k' i : nat) :
  group_indices peaks mc !! k = Some i ->
  group_indices peaks mc !! k' = Some i -> k = k'.
Proof. apply NoDup_lookup, NoDup_group_indices. Qed.

Lemma coms_lookup (data : list (list F)) (j : nat) (col : list F) (k : nat) :
  coms data j col !! k = (fun w => com (length data) k j w col) <$> data !! k.
Proof. unfold coms. apply list_lookup_imap. Qed.


(** One pass of the loop writes the record of every peak of channel
    [main_chan], each one being a row of the group, and leaves the other
    records alone. *)
Lemma group_Ok self peaks waveforms pl (mc : Z) (pl' : list (XY.t F)) :
  group self peaks waveforms pl mc = Ok pl' ->
  length pl' = length pl /\
  forall i p, peaks !! i = Some p ->
    (channel_ind p = mc ->
     exists k wf r,
       group_indices peaks mc !! k = Some i /\
       waveforms !! i = Some wf /\
       localize self (length (group_indices peaks mc)) k p wf = Ok r /\
       pl' !! i = (fun _ => r) <$> pl !! i) /\
    (channel_ind p <> mc -> pl' !! i = pl !! i).
Proof.
  unfold group. cbv zeta. intros H.
  apply bind_Ok in H as (row & Hrow & H).
  apply bind_Ok in H as (loc & Hloc & H).
  apply bind_Ok in H as (data & Hdata & H).
  apply bind_Ok in H as (col0 & Hcol0 & H).
  apply bind_Ok in H as (col1 & Hcol1 & H).
  injection H as <-.
  apply feature_data_Ok in Hdata as (wfs & Hwfs & Hdata).
  assert (Hn : length data = length (group_indices peaks mc)).
  { rewrite (mapM_length _ _ _ Hdata). apply (np_take_length _ _ _ Hwfs). }
  split; [by rewrite !assign_length|].
  intros i p Hp. split.
  - intros Hmc.
    assert (Hi : i ∈ group_indices peaks mc)
      by (apply elem_of_group_idx; eauto).
    apply list_elem_of_lookup in Hi as [k Hk].
    destruct (np_take_lookup _ _ _ _ _ Hwfs Hk) as (wf & Hwf & Hwfi).
    destruct (mapM_lookup _ _ _ _ _ Hdata Hwf) as (w & Hw & Hrow_w).
    exists k, wf,
      {| XY.x := com (length data) k 0 w col0;
         XY.y := com (length data) k 1 w col1 |}.
    split; [assumption|]. split; [assumption|]. split.
    + unfold localize. rewrite Hmc, Hrow. simpl. rewrite Hloc. simpl.
      rewrite Hrow_w. simpl. rewrite Hcol0. simpl. rewrite Hcol1.
      simpl. by rewrite Hn.
    + rewrite (assign_lookup_in _ _ _ _ k i (com (length data) k 1 w col1));
        [|apply NoDup_group_indices|assumption
         |by rewrite coms_lookup, Hw].
      rewrite (assign_lookup_in _ _ _ _ k i (com (length data) k 0 w col0));
        [|apply NoDup_group_indices|assumption
         |by rewrite coms_lookup, Hw].
      destruct (pl !! i); reflexivity.
  - intros Hmc.
    assert (Hi : i ∉ group_indices peaks mc).
    { rewrite elem_of_group_idx. intros (p' & Hp' & Hc). congruence. }
    by rewrite !assign_lookup_notin.
Qed.

Lemma group_total self peaks waveforms pl (mc : Z) :
  (exists i p, peaks !! i = Some p /\ channel_ind p = mc) ->
  (forall i p, peaks !! i = Some p -> channel_ind p = mc ->
     exists n k wf r,
       waveforms !! i = Some wf /\ localize self n k p wf = Ok r) ->
  exists pl', group self peaks waveforms pl mc = Ok pl'.
Proof.
  intros (i0 & p0 & Hp0 & Hc0) Hall.
  destruct (Hall i0 p0 Hp0 Hc0) as (n0 & k0 & wf0 & r0 & Hwf0 & Hr0).
  unfold localize in Hr0. rewrite Hc0 in Hr0. cbv zeta in Hr0.
  apply bind_Ok in Hr0 as (row & Hrow & Hr0).
  apply bind_Ok in Hr0 as (loc & Hloc & Hr0).
  apply bind_Ok in Hr0 as (w0 & Hw0 & Hr0).
  apply bind_Ok in Hr0 as (col0 & Hcol0 & Hr0).
  apply bind_Ok in Hr0 as (col1 & Hcol1 & _).
  set (idx := group_indices peaks mc).
  destruct (np_take_total waveforms idx) as [wfs Hwfs].
  { intros i (p & Hp & Hc)%elem_of_group_idx.
    destruct (Hall i p Hp Hc) as (_ & _ & wf & _ & -> & _). eauto. }
  destruct (mapM_total (feature_row self (np_nonzero row)) wfs)
    as [data Hdata].
  { intros wf (k & Hk)%list_elem_of_lookup.
    apply np_take_Ok in Hwfs.
    destruct (Forall2_lookup_r _ _ _ _ _ Hwfs Hk) as (i & Hi & Hwf).
    assert (Hin : i ∈ idx) by (eapply list_elem_of_lookup_2, Hi).
    apply elem_of_group_idx in Hin as (p & Hp & Hc).
    destruct (Hall i p Hp Hc) as (n & k' & wf' & r & Hwf' & Hr).
    assert (wf' = wf) as -> by congruence.
    unfold localize in Hr. rewrite Hc, Hrow in Hr. simpl in Hr.
    rewrite Hloc in Hr. simpl in Hr.
    apply bind_Ok in Hr as (w & Hw & _). eauto. }
  assert (Hne : wfs <> []).
  { intros ->. apply np_take_length in Hwfs.
    assert (Hin : i0 ∈ idx) by (apply elem_of_group_idx; eauto).
    destruct idx; [by apply elem_of_nil in Hin | discriminate]. }
  unfold group. cbv zeta. fold idx.
  rewrite Hrow. simpl. rewrite Hloc. simpl.
  rewrite (feature_data_total _ _ _ _ _ _ Hwfs Hne Hdata). simpl.
  rewrite Hcol0. simpl. rewrite Hcol1. simpl. eauto.
Qed.

Lemma foldM_group_Ok self peaks waveforms (ucs : list Z) pl
  (out : list (XY.t F)) :
  foldM (group self peaks waveforms) ucs pl = Ok out ->
  length out = length pl /\
  forall i p, peaks !! i = Some p ->
    (channel_ind p ∈ ucs ->
     exists k wf r,
       group_indices peaks (channel_ind p) !! k = Some i /\
       waveforms !! i = Some wf /\
       localize self (length (group_indices peaks (channel_ind p))) k p wf
       = Ok r /\
       out !! i = (fun _ => r) <$> pl !! i) /\
    (channel_ind p ∉ ucs -> out !! i = pl !! i).
Proof.
  revert pl. induction ucs as [|mc ucs IH]; intros pl; simpl.
  - intros [= <-]. split; [reflexivity|].
    intros i p _. split; [by intros ?%elem_of_nil | reflexivity].
  - intros H. apply bind_Ok in H as (pl1 & Hg & H).
    apply group_Ok in Hg as [Hlen1 Hg].
    apply IH in H as [Hlen H].
    split; [congruence|].
    intros i p Hp. destruct (H i p Hp) as [Hin Hout].
    destruct (Hg i p Hp) as [Hmc Hother].
    destruct (decide (channel_ind p ∈ ucs)) as [Hu|Hu].
    + split; [|rewrite not_elem_of_cons; tauto].
      intros _. destruct (Hin Hu) as (k & wf & r & Hk & Hwf & Hr & Ho).
      exists k, wf, r. repeat split; try assumption. rewrite Ho.
      assert (is_Some (pl1 !! i) <-> is_Some (pl !! i)) as Hs
        by (rewrite !lookup_lt_is_Some; lia).
      destruct (pl1 !! i) as [a|] eqn:E1; destruct (pl !! i) as [b|] eqn:E2;
        try reflexivity.
      * destruct Hs as [Hs _]. destruct Hs as [? ?]; [eauto | discriminate].
      * destruct Hs as [_ Hs]. destruct Hs as [? ?]; [eauto | discriminate].
    + rewrite (Hout Hu). split.
      * intros [Heq|?]%elem_of_cons; [|contradiction].
        destruct (Hmc Heq) as (k & wf & r & Hk & Hwf & Hr & Ho).
        exists k, wf, r. rewrite Heq. by repeat split.
      * intros [Hne _]%not_elem_of_cons. by apply Hother.
Qed.

Lemma foldM_group_total self peaks waveforms (ucs : list Z) pl :
  (forall mc, mc ∈ ucs ->
     exists i p, peaks !! i = Some p /\ channel_ind p = mc) ->
  (forall i p, peaks !! i = Some p ->
     exists n k wf r,
       waveforms !! i = Some wf /\ localize self n k p wf = Ok r) ->
  exists out, foldM (group self peaks waveforms) ucs pl = Ok out.
Proof.
  intros Hucs Hall. revert pl.
  induction ucs as [|mc ucs IH]; intros pl; simpl; [eauto|].
  destruct (group_total self peaks waveforms pl mc) as [pl1 Hg].
  - apply Hucs. by left.
  - intros i p Hp _. by apply Hall.
  - rewrite Hg. simpl. apply IH. intros mc' Hmc'. apply Hucs. by right.
Qed.

(** A loop over any list of channels that covers the channels of the peaks,
    in any order, returns exactly when every peak can be localized, and then
    holds, at the index of each peak, the record that peak has as a row of
    the group of its channel. *)
Lemma com_groups_Ok self peaks waveforms (ucs : list Z)
  (out : list (XY.t F)) :
  (forall mc, mc ∈ ucs <-> mc ∈ map channel_ind peaks) ->
  foldM (group self peaks waveforms) ucs (np_zeros (length peaks) XY.zero)
  = Ok out <->
  length out = length peaks /\
  forall i p, peaks !! i = Some p ->
    exists k wf r,
      group_indices peaks (channel_ind p) !! k = Some i /\
      waveforms !! i = Some wf /\
      localize self (length (group_indices peaks (channel_ind p))) k p wf
      = Ok r /\
      out !! i = Some r.
Proof.
  intros Hucs.
  assert (Hfwd : forall out',
    foldM (group self peaks waveforms) ucs
          (np_zeros (length peaks) XY.zero) = Ok out' ->
    length out' = length peaks /\
    forall i p, peaks !! i = Some p ->
      exists k wf r,
        group_indices peaks (channel_ind p) !! k = Some i /\
        waveforms !! i = Some wf /\
        localize self (length (group_indices peaks (channel_ind p))) k p wf
        = Ok r /\
        out' !! i = Some r).
  { intros out' H. apply foldM_group_Ok in H as [Hlen H].
    unfold np_zeros in *. rewrite length_replicate in Hlen.
    split; [assumption|]. intros i p Hp.
    destruct (H i p Hp) as [Hin _].
    destruct Hin as (k & wf & r & Hk & Hwf & Hr & Ho).
    { apply Hucs, list_elem_of_fmap. exists p.
      split; [reflexivity|]. eapply list_elem_of_lookup_2, Hp. }
    exists k, wf, r. repeat split; try assumption.
    rewrite Ho, lookup_replicate_2; [reflexivity|].
    eapply lookup_lt_Some, Hp. }
  split; [apply Hfwd|].
  intros [Hlen Hall].
  destruct (foldM_group_total self peaks waveforms ucs
              (np_zeros (length peaks) XY.zero)) as [out' Hout'].
  - intros mc (p & -> & Hp)%Hucs%list_elem_of_fmap.
    apply list_elem_of_lookup in Hp as [i Hi]. eauto.
  - intros i p Hp.
    destruct (Hall i p Hp) as (k & wf & r & _ & ? & ? & _). eauto 6.
  - rewrite Hout'. f_equal.
    destruct (Hfwd out' Hout') as [Hlen' Hall'].
    apply list_eq. intros i.
    destruct (peaks !! i) as [p|] eqn:Hp.
    + destruct (Hall i p Hp) as (k & wf & r & Hk & Hwf & Hr & ->).
      destruct (Hall' i p Hp) as (k' & wf' & r' & Hk' & Hwf' & Hr' & ->).
      assert (k' = k) as -> by (eapply group_indices_row; eassumption).
      congruence.
    + apply lookup_ge_None in Hp.
      rewrite !lookup_ge_None_2 by lia. reflexivity.
Qed.

(** The grouped loop of [compute_buffer] is the case of [np.unique]. *)
Lemma com_compute_buffer_Ok self (traces : list (list F)) peaks waveforms
  (out : list (XY.t F)) :
  compute_buffer self traces peaks waveforms = Ok out <->
  length out = length peaks /\
  forall i p, peaks !! i = Some p ->
    exists k wf r,
      group_indices peaks (channel_ind p) !! k = Some i /\
      waveforms !! i = Some wf /\
      localize self (length (group_indices peaks (channel_ind p))) k p wf
      = Ok r /\
      out !! i = Some r.
Proof.
  unfold compute_buffer. cbv zeta. apply com_groups_Ok.
  intros mc. apply elem_of_np_unique.
Qed.


End CenterOfMassFacts.

(** ** Reductions, column by column *)

Section ReductionFacts.
Context {F : Type} {SF : Scalar F} {N : Numpy F}.
Implicit Types (rows : list (list F)) (col acc : list F).

Lemma reduce_rows_length (op : F -> F -> F) (m : nat) rows acc :
  Forall (fun r => length r = m) rows -> length acc = m ->
  length (reduce_rows op acc rows) = m.
Proof.
  unfold reduce_rows. intros Hrows. revert acc.
  induction Hrows as [|r rows Hr _ IH]; intros acc Hacc; simpl.
  - assumption.
  - apply IH. rewrite length_zip_with. lia.
Qed.

(** Column [b] of the reduction is the reduction of column [b]. *)
Lemma reduce_rows_lookup (op : F -> F -> F) rows acc col (b : nat) (a0 : F) :
  acc !! b = Some a0 ->
  Forall2 (fun r v => r !! b = Some v) rows col ->
  reduce_rows op acc rows !! b = Some (fold_left op col a0).
Proof.
  unfold reduce_rows. intros Hacc Hcol. revert acc a0 Hacc.
  induction Hcol as [|r v rows col Hr _ IH]; intros acc a0 Hacc; simpl.
  - assumption.
  - apply IH. rewrite lookup_zip_with, Hacc. simpl. by rewrite Hr.
Qed.

Lemma lanes_length (m : nat) rows :
  Forall (fun r => length r = m) rows -> length (lanes m rows) = m.
Proof.
  intros Hrows. induction Hrows as [|r rows Hr _ IH]; simpl.
  - apply length_replicate.
  - rewrite length_zip_with. lia.
Qed.

(** Lane [b] holds the entry [b] of every row. *)
Lemma lanes_lookup (m : nat) rows col (b : nat) :
  (b < m)%nat ->
  Forall2 (fun r v => r !! b = Some v) rows col ->
  lanes m rows !! b = Some col.
Proof.
  intros Hb Hcol. induction Hcol as [|r v rows col Hr _ IH]; simpl.
  - by apply lookup_replicate_2.
  - rewrite lookup_zip_with, Hr. simpl. by rewrite IH.
Qed.

Lemma select_channels_rows (wf : list (list F)) (chan_inds : list nat) rows :
  select_channels wf chan_inds = Ok rows ->
  Forall (fun r => length r = length chan_inds) rows /\
  length rows = length wf.
Proof.
  unfold select_channels. intros H. split.
  - apply Forall_forall. intros r (t & Ht)%list_elem_of_lookup.
    destruct (mapM_lookup_r _ _ _ _ _ H Ht) as (row & _ & Hrow).
    eapply np_take_length, Hrow.
  - eapply mapM_length, H.
Qed.

(** The column [b] of [wf[:, chan_inds]] is the waveform of the channel
    [chan_inds[b]]. *)
Lemma select_channels_column (wf : list (list F)) (chan_inds : list nat)
  rows (b c : nat) :
  select_channels wf chan_inds = Ok rows -> chan_inds !! b = Some c ->
  exists col,
    mapM (fun row => match row !! c with
                     | Some v => Ok v
                     | None => Raise IndexError
                     end) wf = Ok col /\
    Forall2 (fun r v => r !! b = Some v) rows col.
Proof.
  unfold select_channels. intros H%mapM_Ok Hb.
  induction H as [|row r wf rows Hrow _ (col & Hcol & Hrows)].
  - exists []. split; [reflexivity | constructor].
  - destruct (np_take_lookup _ _ _ _ _ Hrow Hb) as (v & Hv & Hc).
    exists (v :: col). split.
    + simpl. rewrite Hc. simpl. rewrite Hcol. reflexivity.
    + by constructor.
Qed.

Lemma Forall2_fmap_column (g : F -> F) rows col (b : nat) :
  Forall2 (fun r v => r !! b = Some v) rows col ->
  Forall2 (fun r v => r !! b = Some v) (map (map g) rows) (map g col).
Proof.
  intros H. induction H as [|r v rows col Hr _ IH]; simpl; constructor.
  - by rewrite list_lookup_fmap, Hr.
  - assumption.
Qed.
End ReductionFacts.

Lemma filter_seq_ext (P Q : nat -> Prop) `{!forall c, Decision (P c)}
  `{!forall c, Decision (Q c)} (k n : nat) :
  (forall c, (k <= c)%nat -> P c <-> Q c) ->
  filter P (seq k n) = filter Q (seq k n).
Proof.
  revert k. induction n as [|n IH]; intros k HPQ; simpl; [reflexivity|].
  rewrite !filter_cons. rewrite (IH (S k)) by (intros; apply HPQ; lia).
  destruct (decide (P k)) as [HP|HP]; destruct (decide (Q k)) as [HQ|HQ];
    try reflexivity; exfalso; apply (HPQ k) in HP || apply (HPQ k) in HQ;
    auto.
Qed.

Lemma nonzero_from_filter (k : nat) (mask : list bool) :
  nonzero_from k mask =
  filter (fun c => mask !! (c - k)%nat = Some true) (seq k (length mask)).
Proof.
  revert k. induction mask as [|b t IH]; intros k; simpl; [reflexivity|].
  rewrite filter_cons, Nat.sub_diag. simpl.
  rewrite (filter_seq_ext _ (fun c => t !! (c - S k)%nat = Some true)).
  - rewrite <- IH. destruct b.
    + rewrite decide_True by reflexivity. reflexivity.
    + rewrite decide_False by discriminate. reflexivity.
  - intros c Hc. replace (c - k)%nat with (S (c - S k)) by lia. reflexivity.
Qed.

(** ** LocalizeCenterOfMass: the weights and the centroid *)

Section CenterOfMassWeights.
Context {F : Type} {SF : Scalar F} {N : Numpy F}.
Import LocalizeCenterOfMass.
Implicit Types (self : LocalizeCenterOfMass.t F) (wf : list (list F)).

Lemma np_nonzero_neighbour_channels (mask_row : list bool) :
  np_nonzero mask_row = neighbour_channels mask_row.
Proof.
  unfold np_nonzero, neighbour_channels. rewrite nonzero_from_filter.
  apply filter_seq_ext. intros c _. by rewrite Nat.sub_0_r.
Qed.

(** The row of weights of a peak holds, for every selected channel, the
    feature of that channel's waveform. *)
Lemma feature_row_weights self (chan_inds : list nat) wf (ws : list F) :
  feature_row self chan_inds wf = Ok ws ->
  Forall2 (fun c w => feature_weight self wf c = Ok w) chan_inds ws.
Proof.
  unfold feature_row, feature_weight. intros H.
  destruct (String.eqb (feature self) "ptp").
  { apply bind_Ok in H as (rows & Hsel & H).
    destruct (select_channels_rows _ _ _ Hsel) as [Hlen _].
    destruct rows as [|r0 rest]; [discriminate|]. injection H as <-.
    apply Forall_cons in Hlen as [Hr0 Hrest].
    apply Forall2_same_length_lookup_2.
    - rewrite length_zip_with.
      rewrite !(reduce_rows_length _ (length chan_inds)) by assumption.
      lia.
    - intros b c w Hb Hw.
      destruct (select_channels_column _ _ _ _ _ Hsel Hb)
        as (col & Hcol & Hcols).
      unfold channel_waveform. rewrite Hcol. simpl.
      inversion Hcols as [|? v0 ? vs Hv0 Hvs]; subst. simpl.
      rewrite lookup_zip_with in Hw.
      rewrite (reduce_rows_lookup fmax rest r0 vs b v0 Hv0 Hvs) in Hw.
      rewrite (reduce_rows_lookup fmin rest r0 vs b v0 Hv0 Hvs) in Hw.
      simpl in Hw. by injection Hw as <-. }
  destruct (String.eqb (feature self) "mean").
  { apply bind_Ok in H as (rows & Hsel & H). injection H as <-.
    destruct (select_channels_rows _ _ _ Hsel) as [Hlen Hrows].
    apply Forall2_same_length_lookup_2.
    - unfold np_mean. rewrite length_map. symmetry. by apply lanes_length.
    - intros b c w Hb Hw.
      destruct (select_channels_column _ _ _ _ _ Hsel Hb)
        as (col & Hcol & Hcols).
      unfold channel_waveform. rewrite Hcol. simpl.
      unfold np_mean in Hw. rewrite list_lookup_fmap in Hw.
      rewrite (lanes_lookup _ rows col b) in Hw;
        [|eapply lookup_lt_Some, Hb|assumption].
      simpl in Hw. injection Hw as <-.
      rewrite Hrows, <- (mapM_length _ _ _ Hcol). reflexivity. }
  destruct (String.eqb (feature self) "energy").
  { apply bind_Ok in H as (rows & Hsel & H). injection H as <-.
    destruct (select_channels_rows _ _ _ Hsel) as [Hlen Hrows].
    apply Forall2_same_length_lookup_2.
    - unfold np_norm. rewrite length_map. symmetry. by apply lanes_length.
    - intros b c w Hb Hw.
      destruct (select_channels_column _ _ _ _ _ Hsel Hb)
        as (col & Hcol & Hcols).
      unfold channel_waveform. rewrite Hcol. simpl.
      unfold np_norm in Hw. rewrite list_lookup_fmap in Hw.
      rewrite (lanes_lookup _ rows col b) in Hw;
        [|eapply lookup_lt_Some, Hb|assumption].
      simpl in Hw. by injection Hw as <-. }
  destruct (String.eqb (feature self) "v_origin"); [|discriminate].
  apply bind_Ok in H as (row & Hrow & H). rewrite Hrow. simpl.
  apply np_take_Ok in H. eapply Forall2_impl; [exact H|].
  intros c w Hc. simpl in Hc. by rewrite Hc.
Qed.

Lemma local_column self (chan_inds : list nat) (local : list (list F))
  (k : Z) (col : list F) :
  np_take (contact_locations (base self)) chan_inds = Ok local ->
  mapM (fun loc => np_index loc k) local = Ok col ->
  Forall2 (fun c v => coordinate self k c = Ok v) chan_inds col.
Proof.
  intros Hl%np_take_Ok Hc%mapM_Ok. unfold coordinate.
  revert col Hc. induction Hl as [|c loc cs local Hloc _ IH]; intros col Hc.
  - inversion Hc. constructor.
  - inversion Hc as [|? v ? col' Hv Hcol']; subst. constructor.
    + by rewrite Hloc.
    + by apply IH.
Qed.

(** A localized peak sits at the quotient of [np.dot] and [np.sum] over
    the contacts of its neighbour channels, weighted by the feature of their
    waveforms. *)
Lemma localize_centroid self (n k : nat) (p : Peak) wf (r : XY.t F) :
  localize self n k p wf = Ok r ->
  exists mask_row ws xs ys,
    np_index (neighbours_mask (base self)) (channel_ind p) = Ok mask_row /\
    Forall2 (fun c w => feature_weight self wf c = Ok w)
            (neighbour_channels mask_row) ws /\
    Forall2 (fun c v => coordinate self 0 c = Ok v)
            (neighbour_channels mask_row) xs /\
    Forall2 (fun c v => coordinate self 1 c = Ok v)
            (neighbour_channels mask_row) ys /\
    r = {| XY.x := com n k 0 ws xs; XY.y := com n k 1 ws ys |}.
Proof.
  unfold localize. cbv zeta. intros H.
  apply bind_Ok in H as (row & Hrow & H).
  apply bind_Ok in H as (loc & Hloc & H).
  apply bind_Ok in H as (w & Hw & H).
  apply bind_Ok in H as (col0 & Hcol0 & H).
  apply bind_Ok in H as (col1 & Hcol1 & H).
  injection H as <-.
  exists row, w, col0, col1. rewrite <- np_nonzero_neighbour_channels.
  split; [assumption|].
  split; [by apply feature_row_weights|].
  split; [by eapply local_column|].
  split; [by eapply local_column|].
  reflexivity.
Qed.
End CenterOfMassWeights.

(** ** LocalizeMonopolarTriangulation: the loop over the peaks *)

Section MonopolarFacts.
Context {F : Type} {SF : Scalar F}.
Variable make_radial_order_parents :
  list (list F) -> list (list bool) -> RadialParents.
Variable solve_monopolar_triangulation :
  list F -> list (list F) -> F -> string -> result (XYZA.t F).
Implicit Types (self : LocalizeMonopolarTriangulation.t F).

Lemma monopolar_compute_buffer_mapM self (traces : list (list F))
  (peaks : list Peak) :
  LocalizeMonopolarTriangulation.compute_buffer
    solve_monopolar_triangulation self traces peaks =
  mapM (LocalizeMonopolarTriangulation.localize
          solve_monopolar_triangulation self traces) peaks.
Proof.
  unfold LocalizeMonopolarTriangulation.compute_buffer. cbv zeta.
  apply foldM_enumerate_zeros. intros done rest peak.
  destruct (LocalizeMonopolarTriangulation.localize _ self traces peak)
    as [r|e]; simpl; [|reflexivity].
  f_equal. rewrite <- (Nat.add_0_r (length done)).
  rewrite insert_app_r. reflexivity.
Qed.
End MonopolarFacts.

Lemma mapM_Ok_lookup {A B : Type} (f : A -> result B) (l : list A)
  (bs : list B) :
  mapM f l = Ok bs ->
  length bs = length l /\
  forall i a, l !! i = Some a -> exists b, f a = Ok b /\ bs !! i = Some b.
Proof.
  intros H. split; [eapply mapM_length, H|].
  intros i a Ha. destruct (mapM_lookup _ _ _ _ _ H Ha) as (b & ? & ?). eauto.
Qed.

(** ** LocalizeCenterOfMass: well-shaped inputs are localized *)

Section CenterOfMassTotal.
Context {F : Type} {SF : Scalar F} {N : Numpy F}.
Import LocalizeCenterOfMass.
Implicit Types (self : LocalizeCenterOfMass.t F) (wf : list (list F)).

Lemma np_index_total {A : Type} (l : list A) (i : Z) :
  0 <= i < Z.of_nat (length l) -> exists a, np_index l i = Ok a.
Proof.
  intros Hi. destruct (lookup_lt_is_Some_2 l (Z.to_nat i)) as [a Ha]; [lia|].
  exists a. apply np_index_Ok. left. split; assumption.
Qed.

Lemma np_index_elem_of {A : Type} (l : list A) (i : Z) (a : A) :
  np_index l i = Ok a -> a ∈ l.
Proof.
  intros [[_ H]|[_ H]]%np_index_Ok; eapply list_elem_of_lookup_2, H.
Qed.

Lemma select_channels_total wf (chan_inds : list nat) (n : nat) :
  Forall (fun row => length row = n) wf ->
  Forall (fun c => (c < n)%nat) chan_inds ->
  exists rows, select_channels wf chan_inds = Ok rows.
Proof.
  intros Hwf Hc. apply mapM_total. intros row Hrow.
  apply np_take_total. intros c Hin. apply lookup_lt_is_Some.
  rewrite Forall_forall in Hwf. rewrite Forall_forall in Hc. rewrite (Hwf row Hrow). by apply Hc.
Qed.

Lemma feature_row_total self (chan_inds : list nat) wf :
  supported (feature self) = true -> snippet_ok self wf ->
  Forall (fun c => (c < length (neighbours_mask (base self)))%nat) chan_inds ->
  exists ws, feature_row self chan_inds wf = Ok ws.
Proof.
  intros Hsup [Hnb Hrows] Hc.
  destruct (select_channels_total wf chan_inds _ Hrows Hc) as [rows Hsel].
  unfold feature_row. unfold supported, supported_features in Hsup.
  simpl in Hsup.
  destruct (String.eqb (feature self) "ptp").
  { rewrite Hsel. simpl.
    destruct rows as [|r0 rest]; simpl; [|eauto].
    apply select_channels_rows in Hsel as [_ Hlen].
    destruct wf; [simpl in Hnb; lia | discriminate]. }
  destruct (String.eqb (feature self) "mean").
  { rewrite Hsel. simpl. eauto. }
  destruct (String.eqb (feature self) "energy").
  { rewrite Hsel. simpl. eauto. }
  destruct (String.eqb (feature self) "v_origin"); [|discriminate].
  destruct (np_index_total wf (nbefore (base self)) Hnb) as [row Hrow].
  rewrite Hrow. simpl. apply np_take_total. intros c Hin.
  apply lookup_lt_is_Some. rewrite Forall_forall in Hrows. rewrite Forall_forall in Hc.
  rewrite (Hrows row); [by apply Hc|]. eapply np_index_elem_of, Hrow.
Qed.

Lemma neighbours_in_range (step : PeakPipelineStep F) (ch : Z)
  (row : list bool) :
  geometry_ok step -> np_index (neighbours_mask step) ch = Ok row ->
  Forall (fun c => (c < length (neighbours_mask step))%nat) (np_nonzero row).
Proof.
  intros (_ & _ & Hmask) Hrow. apply Forall_forall. intros c Hc.
  apply elem_of_np_nonzero, lookup_lt_Some in Hc.
  rewrite Forall_forall in Hmask. rewrite <- (Hmask row); [assumption|].
  eapply np_index_elem_of, Hrow.
Qed.

Lemma local_locations_total (step : PeakPipelineStep F) (chan_inds : list nat) :
  geometry_ok step ->
  Forall (fun c => (c < length (neighbours_mask step))%nat) chan_inds ->
  exists local col0 col1,
    np_take (contact_locations step) chan_inds = Ok local /\
    mapM (fun loc => np_index loc 0) local = Ok col0 /\
    mapM (fun loc => np_index loc 1) local = Ok col1.
Proof.
  intros (Hlen & Hloc & _) Hc.
  destruct (np_take_total (contact_locations step) chan_inds) as [local Hl].
  { intros c Hin. apply lookup_lt_is_Some. rewrite Hlen.
    rewrite Forall_forall in Hc. by apply Hc. }
  assert (Hlocal : forall loc, loc ∈ local -> (2 <= length loc)%nat).
  { intros loc (k & Hk)%list_elem_of_lookup. apply np_take_Ok in Hl.
    destruct (Forall2_lookup_r _ _ _ _ _ Hl Hk) as (c & _ & Hcl).
    rewrite Forall_forall in Hloc. apply Hloc.
    eapply list_elem_of_lookup_2, Hcl. }
  destruct (mapM_total (fun loc : list F => np_index loc 0) local)
    as [col0 H0].
  { intros loc Hin. apply np_index_total. specialize (Hlocal loc Hin). lia. }
  destruct (mapM_total (fun loc : list F => np_index loc 1) local)
    as [col1 H1].
  { intros loc Hin. apply np_index_total. specialize (Hlocal loc Hin). lia. }
  eauto 6.
Qed.

Lemma localize_total self (n k : nat) (p : Peak) wf :
  supported (feature self) = true -> geometry_ok (base self) ->
  0 <= channel_ind p < Z.of_nat (length (neighbours_mask (base self))) ->
  snippet_ok self wf ->
  exists r, localize self n k p wf = Ok r.
Proof.
  intros Hsup Hgeo Hch Hwf.
  destruct (np_index_total _ _ Hch) as [row Hrow].
  pose proof (neighbours_in_range _ _ _ Hgeo Hrow) as Hc.
  destruct (local_locations_total _ _ Hgeo Hc)
    as (local & col0 & col1 & Hl & H0 & H1).
  destruct (feature_row_total self _ wf Hsup Hwf Hc) as [ws Hws].
  unfold localize. cbv zeta. rewrite Hrow. simpl. rewrite Hl. simpl.
  rewrite Hws. simpl. rewrite H0. simpl. rewrite H1. simpl. eauto.
Qed.

Lemma well_shaped_localize self (peaks : list Peak)
  (waveforms : list (list (list F))) :
  well_shaped self peaks waveforms ->
  forall i p, peaks !! i = Some p ->
    forall n k,
      exists wf r, waveforms !! i = Some wf /\ localize self n k p wf = Ok r.
Proof.
  intros (Hsup & Hgeo & Hpeaks & Hlen & Hwfs) i p Hp n k.
  destruct (lookup_lt_is_Some_2 waveforms i) as [wf Hwf].
  { rewrite Hlen. eapply lookup_lt_Some, Hp. }
  rewrite Forall_forall in Hpeaks. rewrite Forall_forall in Hwfs.
  destruct (localize_total self n k p wf) as [r Hr]; try assumption.
  - apply Hpeaks. eapply list_elem_of_lookup_2, Hp.
  - apply Hwfs. eapply list_elem_of_lookup_2, Hwf.
  - eauto.
Qed.

Lemma com_compute_buffer_total self (traces : list (list F))
  (peaks : list Peak) (waveforms : list (list (list F))) :
  well_shaped self peaks waveforms ->
  exists out, compute_buffer self traces peaks waveforms = Ok out.
Proof.
  intros Hws. apply foldM_group_total.
  - intros mc (p & -> & Hp)%elem_of_np_unique%list_elem_of_fmap.
    apply list_elem_of_lookup in Hp as [i Hi]. eauto.
  - intros i p Hp.
    destruct (well_shaped_localize self peaks waveforms Hws i p Hp 0%nat
                0%nat) as (wf & r & ? & ?).
    eauto 6.
Qed.
End CenterOfMassTotal.

(** ** The monotonicity enforcer *)

Section EnforcerFacts.
Context {F : Type} {SF : Scalar F}.
Hypothesis fltb_irrefl : forall a : F, fltb a a = false.
Implicit Types (amps : list F) (shell prev : list nat).

(** Clamping a channel leaves the other channels alone, and the clamped
    channel does not exceed the bound afterwards. *)
Lemma clamp_channel_Ok (m : F) amps (c : nat) (amps' : list F) :
  clamp_channel m amps c = Ok amps' ->
  length amps' = length amps /\
  (forall j, j <> c -> amps' !! j = amps !! j) /\
  (exists a, amps' !! c = Some a /\ fltb m a = false) /\
  (forall j a, amps !! j = Some a -> fltb m a = false ->
     exists a', amps' !! j = Some a' /\ fltb m a' = false).
Proof.
  unfold clamp_channel. destruct (amps !! c) as [a|] eqn:Hc; [|discriminate].
  intros [= <-]. destruct (fltb m a) eqn:Hlt.
  - split; [apply length_insert|].
    split; [intros j Hj; by apply list_lookup_insert_ne|].
    assert (Hm : <[c:=m]> amps !! c = Some m).
    { apply list_lookup_insert_eq. eapply lookup_lt_Some, Hc. }
    split; [eauto|].
    intros j a0 Hj Ha0. destruct (decide (j = c)) as [->|Hne]; [eauto|].
    rewrite list_lookup_insert_ne by congruence. eauto.
  - repeat split; eauto.
Qed.

Lemma clamp_shell_Ok (m : F) shell amps (amps' : list F) :
  foldM (clamp_channel m) shell amps = Ok amps' ->
  length amps' = length amps /\
  (forall j, j ∉ shell -> amps' !! j = amps !! j) /\
  (forall j, j ∈ shell -> exists a, amps' !! j = Some a /\ fltb m a = false) /\
  (forall j a, amps !! j = Some a -> fltb m a = false ->
     exists a', amps' !! j = Some a' /\ fltb m a' = false).
Proof.
  revert amps. induction shell as [|c shell IH]; intros amps; simpl.
  - intros [= <-]. split; [reflexivity|]. split; [reflexivity|].
    split; [by intros j ?%elem_of_nil | eauto].
  - intros H. apply bind_Ok in H as (amps1 & H1 & H).
    apply clamp_channel_Ok in H1 as (Hlen1 & Hother1 & Hc1 & Hkeep1).
    apply IH in H as (Hlen & Hother & Hin & Hkeep).
    split; [congruence|]. split; [|split].
    + intros j [Hne Hj]%not_elem_of_cons.
      rewrite Hother by assumption. by apply Hother1.
    + intros j [->|Hj]%elem_of_cons; [|by apply Hin].
      destruct Hc1 as (a & Ha & Hle). eapply Hkeep; eassumption.
    + intros j a Hj Ha. destruct (Hkeep1 j a Hj Ha) as (a1 & Ha1 & Hle1).
      eapply Hkeep; eassumption.
Qed.

Lemma np_take_agree {A : Type} (l l' : list A) (idx : list nat) :
  (forall j, j ∈ idx -> l' !! j = l !! j) -> np_take l' idx = np_take l idx.
Proof.
  intros H. apply mapM_ext. intros j Hj. by rewrite H.
Qed.

(** One shell against the previous one. *)
Lemma enforce_shell_Ok amps prev shell (amps' : list F) :
  enforce_shell amps prev shell = Ok amps' ->
  (forall j, j ∈ prev -> j ∉ shell) ->
  length amps' = length amps /\
  (forall j, j ∉ shell -> amps' !! j = amps !! j) /\
  exists vals m,
    np_take amps' prev = Ok vals /\ np_min vals = Ok m /\
    forall j, j ∈ shell -> exists a, amps' !! j = Some a /\ fltb m a = false.
Proof.
  unfold enforce_shell. intros H Hdisj.
  apply bind_Ok in H as (vals & Hvals & H).
  apply bind_Ok in H as (m & Hm & H).
  apply clamp_shell_Ok in H as (Hlen & Hother & Hin & _).
  split; [assumption|]. split; [assumption|].
  exists vals, m. split; [|split; assumption].
  rewrite <- Hvals. apply np_take_agree. intros j Hj.
  apply Hother. by apply Hdisj.
Qed.

(** The shells in sequence: a pair of consecutive shells is settled when the
    outer one is processed, and is left alone afterwards. *)
Lemma enforce_shells_Ok (shells : list (list nat)) amps prev
  (amps' : list F) :
  enforce_shells amps prev shells = Ok amps' ->
  NoDup (prev ++ concat shells) ->
  length amps' = length amps /\
  (forall j, j ∉ concat shells -> amps' !! j = amps !! j) /\
  forall k sp sk,
    (prev :: shells) !! k = Some sp -> (prev :: shells) !! S k = Some sk ->
    exists vals m,
      np_take amps' sp = Ok vals /\ np_min vals = Ok m /\
      forall j, j ∈ sk -> exists a, amps' !! j = Some a /\ fltb m a = false.
Proof.
  revert amps prev. induction shells as [|shell rest IH]; intros amps prev.
  - simpl. intros [= <-] _. split; [reflexivity|]. split; [reflexivity|].
    intros k sp sk _ Hsk. destruct k; discriminate.
  - simpl. intros H Hnd. apply bind_Ok in H as (amps1 & H1 & H).
    apply NoDup_app in Hnd as (Hprev & Hdisj & Hnd).
    assert (Hps : forall j, j ∈ prev -> j ∉ shell).
    { intros j Hj Hin. apply (Hdisj j Hj). apply elem_of_app. by left. }
    apply enforce_shell_Ok in H1 as (Hlen1 & Hother1 & vals & m & Hv & Hm & Hle);
      [|assumption].
    apply IH in H as (Hlen & Hother & Hpairs); [|assumption].
    apply NoDup_app in Hnd as (_ & Hdisj' & _).
    split; [congruence|]. split; [|].
    + intros j [Hj1 Hj2]%not_elem_of_app.
      rewrite Hother by assumption. by apply Hother1.
    + intros [|k] sp sk Hsp Hsk.
      * simpl in Hsp, Hsk. injection Hsp as <-. injection Hsk as <-.
        exists vals, m. split; [|split; [assumption|]].
        -- rewrite <- Hv. apply np_take_agree. intros j Hj. apply Hother.
           intros Hin. apply (Hdisj j Hj). apply elem_of_app. by right.
        -- intros j Hj. destruct (Hle j Hj) as (a & Ha & Hlt).
           exists a. split; [|assumption].
           rewrite Hother; [assumption|]. by apply Hdisj'.
      * apply (Hpairs k sp sk); assumption.
Qed.

Lemma enforce_decrease_shells_ptp_Ok (wf_ptp : list F) (maxchan : Z)
  (radial_parents : RadialParents) (shells : ShellOrder) (out : list F) :
  np_index radial_parents maxchan = Ok shells ->
  NoDup (concat shells) ->
  enforce_decrease_shells_ptp wf_ptp maxchan radial_parents = Ok out ->
  length out = length wf_ptp /\
  (forall shell0 j, shells !! 0%nat = Some shell0 -> j ∈ shell0 ->
     out !! j = wf_ptp !! j) /\
  forall k sp sk,
    shells !! k = Some sp -> shells !! S k = Some sk ->
    exists vals m,
      np_take out sp = Ok vals /\ np_min vals = Ok m /\
      forall j, j ∈ sk -> exists a, out !! j = Some a /\ fltb m a = false.
Proof.
  unfold enforce_decrease_shells_ptp. intros -> Hnd. simpl.
  destruct shells as [|shell0 rest].
  - intros [= <-]. split; [reflexivity|]. split; [discriminate|].
    intros k sp sk Hsp. destruct k; discriminate.
  - intros H. simpl in Hnd.
    pose proof Hnd as (_ & Hdisj & _)%NoDup_app.
    apply enforce_shells_Ok in H as (Hlen & Hother & Hpairs); [|assumption].
    split; [assumption|]. split; [|assumption].
    intros s0 j [= <-] Hj. apply Hother. by apply Hdisj.
Qed.
End EnforcerFacts.

(** The enforcer returns whenever every shell is non-empty and lists
    positions of the amplitude vector. *)
Section EnforcerTotal.
Context {F : Type} {SF : Scalar F}.
Implicit Types (amps : list F) (shell prev : list nat).

Lemma clamp_shell_total (m : F) shell amps :
  Forall (fun c => (c < length amps)%nat) shell ->
  exists amps', foldM (clamp_channel m) shell amps = Ok amps' /\
                length amps' = length amps.
Proof.
  revert amps. induction shell as [|c shell IH]; intros amps Hs; simpl.
  - eauto.
  - apply Forall_cons in Hs as [Hc Hs]. unfold clamp_channel at 1.
    destruct (lookup_lt_is_Some_2 amps c Hc) as [a ->]. simpl.
    destruct (IH (if fltb m a then <[c:=m]> amps else amps))
      as (amps' & H & Hlen).
    + destruct (fltb m a); [by rewrite length_insert | assumption].
    + exists amps'. split; [assumption|]. rewrite Hlen.
      destruct (fltb m a); [apply length_insert | reflexivity].
Qed.

Lemma enforce_shells_total (shells : list (list nat)) amps prev :
  shell_ok (length amps) prev ->
  Forall (shell_ok (length amps)) shells ->
  exists amps', enforce_shells amps prev shells = Ok amps'.
Proof.
  revert amps prev. induction shells as [|shell rest IH]; intros amps prev;
    simpl; [eauto|].
  intros [Hne Hprev] [[Hne' Hshell] Hrest]%Forall_cons.
  unfold enforce_shell.
  destruct (np_take_total amps prev) as [vals Hvals].
  { intros c Hc. apply lookup_lt_is_Some. rewrite Forall_forall in Hprev.
    by apply Hprev. }
  rewrite Hvals. simpl.
  destruct vals as [|v vals].
  { apply np_take_length in Hvals. destruct prev; [congruence|discriminate]. }
  simpl.
  destruct (clamp_shell_total (fold_left fmin vals v) shell amps Hshell)
    as (amps1 & H1 & Hlen1).
  rewrite H1. simpl. apply IH.
  - split; [assumption|]. by rewrite Hlen1.
  - by rewrite Hlen1.
Qed.

Lemma enforce_decrease_shells_ptp_total (wf_ptp : list F) (maxchan : Z)
  (radial_parents : RadialParents) (shells : ShellOrder) :
  np_index radial_parents maxchan = Ok shells ->
  Forall (shell_ok (length wf_ptp)) shells ->
  exists out, enforce_decrease_shells_ptp wf_ptp maxchan radial_parents = Ok out.
Proof.
  unfold enforce_decrease_shells_ptp. intros -> Hs. simpl.
  destruct shells as [|shell0 rest]; [eauto|].
  apply Forall_cons in Hs as [H0 Hrest]. by apply enforce_shells_total.
Qed.
End EnforcerTotal.

(** The enforcer invents no amplitude: a property of the amplitudes that
    [fmin] keeps is kept by the enforcer, and holds of the minimum of a
    shell. *)
Section EnforcerInvariant.
Context {F : Type} {SF : Scalar F}.
Variable P : F -> Prop.
Hypothesis fmin_P : forall a b : F, P a -> P b -> P (fmin a b).
Implicit Types (amps : list F) (shell prev : list nat).

Lemma np_min_P (vals : list F) (m : F) :
  Forall P vals -> np_min vals = Ok m -> P m.
Proof.
  destruct vals as [|v vals]; [discriminate|].
  intros [Hv Hvals]%Forall_cons [= <-]. revert v Hv.
  induction Hvals as [|a vals Ha _ IH]; intros v Hv; simpl; [assumption|].
  apply IH. by apply fmin_P.
Qed.

Lemma np_take_P amps (idx : list nat) (vals : list F) :
  Forall P amps -> np_take amps idx = Ok vals -> Forall P vals.
Proof.
  intros Hamps Hvals%np_take_Ok. apply Forall_forall.
  intros a (k & Hk)%list_elem_of_lookup.
  destruct (Forall2_lookup_r _ _ _ _ _ Hvals Hk) as (i & _ & Hi).
  rewrite Forall_forall in Hamps. apply Hamps.
  eapply list_elem_of_lookup_2, Hi.
Qed.

Lemma clamp_shell_P (m : F) shell amps (amps' : list F) :
  P m -> Forall P amps ->
  foldM (clamp_channel m) shell amps = Ok amps' -> Forall P amps'.
Proof.
  intros Hm. revert amps. induction shell as [|c shell IH]; intros amps Hamps.
  - by intros [= <-].
  - simpl. intros H. apply bind_Ok in H as (amps1 & H1 & H).
    apply (IH amps1); [|assumption].
    unfold clamp_channel in H1. destruct (amps !! c) as [a|]; [|discriminate].
    injection H1 as <-. destruct (fltb m a); [|assumption].
    by apply Forall_insert.
Qed.

Lemma enforce_shells_P (shells : list (list nat)) amps prev
  (amps' : list F) :
  Forall P amps -> enforce_shells amps prev shells = Ok amps' ->
  Forall P amps'.
Proof.
  revert amps prev. induction shells as [|shell rest IH]; intros amps prev.
  - by intros ? [= <-].
  - simpl. intros Hamps H. apply bind_Ok in H as (amps1 & H1 & H).
    apply (IH amps1 shell); [|assumption].
    unfold enforce_shell in H1.
    apply bind_Ok in H1 as (vals & Hvals & H1).
    apply bind_Ok in H1 as (m & Hm & H1).
    apply (clamp_shell_P m shell amps); [|assumption|assumption].
    eapply np_min_P; [|exact Hm]. by eapply np_take_P.
Qed.

Lemma enforce_decrease_shells_ptp_P (wf_ptp : list F) (maxchan : Z)
  (radial_parents : RadialParents) (out : list F) :
  Forall P wf_ptp ->
  enforce_decrease_shells_ptp wf_ptp maxchan radial_parents = Ok out ->
  Forall P out.
Proof.
  unfold enforce_decrease_shells_ptp. intros Hamps H.
  apply bind_Ok in H as (shells & _ & H).
  destruct shells as [|shell0 rest]; [by injection H as <-|].
  by eapply enforce_shells_P.
Qed.
End EnforcerInvariant.

(** ** Slices and the window around a peak *)

Lemma slice_bound_range (n i : Z) : 0 <= n -> 0 <= slice_bound n i <= n.
Proof. unfold slice_bound. destruct (Z.ltb_spec i 0); lia. Qed.

Lemma slice_bound_nonneg (n i : Z) : 0 <= i -> slice_bound n i = Z.min i n.
Proof. unfold slice_bound. destruct (Z.ltb_spec i 0); [lia | reflexivity]. Qed.

Lemma slice_bound_neg (n i : Z) : i < 0 -> slice_bound n i = Z.max (i + n) 0.
Proof. unfold slice_bound. destruct (Z.ltb_spec i 0); [reflexivity | lia]. Qed.

Lemma py_slice_lookup {A : Type} (l : list A) (start stop : Z) (k : nat) :
  py_slice l start stop !! k =
  if decide (Z.of_nat k < slice_bound (Z.of_nat (length l)) stop
                         - slice_bound (Z.of_nat (length l)) start)
  then l !! (Z.to_nat (slice_bound (Z.of_nat (length l)) start) + k)%nat
  else None.
Proof.
  unfold py_slice. cbv zeta.
  set (lo := slice_bound (Z.of_nat (length l)) start).
  set (hi := slice_bound (Z.of_nat (length l)) stop).
  destruct (decide (Z.of_nat k < hi - lo)) as [Hk|Hk].
  - rewrite lookup_take_lt by lia. apply lookup_drop.
  - apply lookup_ge_None. rewrite length_take. lia.
Qed.

Lemma py_slice_length {A : Type} (l : list A) (start stop : Z) :
  Z.of_nat (length (py_slice l start stop)) =
  Z.max 0 (slice_bound (Z.of_nat (length l)) stop
           - slice_bound (Z.of_nat (length l)) start).
Proof.
  unfold py_slice. cbv zeta. rewrite length_take, length_drop.
  pose proof (slice_bound_range (Z.of_nat (length l)) start).
  pose proof (slice_bound_range (Z.of_nat (length l)) stop).
  lia.
Qed.

Lemma select_channels_nil {F : Type} (wf : list (list F))
  (chan_inds : list nat) (rows : list (list F)) :
  select_channels wf chan_inds = Ok rows -> rows = [] <-> wf = [].
Proof.
  intros H%mapM_length.
  destruct wf, rows; simpl in H; split; intros; congruence.
Qed.

(** ** Division by a zero sum of weights, in binary64 *)

Section Binary64.
Import LocalizeCenterOfMass.

Lemma is_zero_spec (w : float) :
  is_zero w = true -> exists s, Prim2SF w = S754_zero s.
Proof.
  unfold is_zero. rewrite FloatAxioms.eqb_spec. unfold SFeqb.
  change (Prim2SF PrimFloat.zero) with (S754_zero false).
  destruct (Prim2SF w) as [s|s| |s m e]; simpl; eauto; try discriminate;
    destruct s; discriminate.
Qed.

Lemma mul_zero_weight (w p : float) :
  is_zero w = true -> zero_or_nan (PrimFloat.mul w p).
Proof.
  intros [s Hw]%is_zero_spec. unfold zero_or_nan.
  rewrite mul_spec, Hw. unfold SF64mul.
  destruct (Prim2SF p) as [sp|sp| |sp m e]; simpl; eauto.
Qed.

Lemma add_pzero_or_nan (acc t : float) :
  pzero_or_nan acc -> zero_or_nan t -> pzero_or_nan (PrimFloat.add acc t).
Proof.
  unfold pzero_or_nan, zero_or_nan. intros Hacc Ht.
  rewrite add_spec. unfold SF64add.
  destruct Hacc as [-> | ->]; [|by right].
  destruct Ht as [[s ->] | ->]; [|by right].
  left. by destruct s.
Qed.

Lemma fold_add_pzero_or_nan (ts : list float) (acc : float) :
  pzero_or_nan acc -> Forall zero_or_nan ts ->
  pzero_or_nan (fold_left PrimFloat.add ts acc).
Proof.
  intros Hacc Hts. revert acc Hacc.
  induction Hts as [|t ts Ht _ IH]; intros acc Hacc; simpl; [assumption|].
  apply IH. by apply add_pzero_or_nan.
Qed.

Lemma fold_add_zero_weights (ws : list float) (acc : float) :
  Prim2SF acc = S754_zero false -> Forall (fun w => is_zero w = true) ws ->
  Prim2SF (fold_left PrimFloat.add ws acc) = S754_zero false.
Proof.
  intros Hacc Hws. revert acc Hacc.
  induction Hws as [|w ws Hw _ IH]; intros acc Hacc; simpl; [assumption|].
  apply IH. apply is_zero_spec in Hw as [s Hw].
  rewrite add_spec, Hacc, Hw. by destruct s.
Qed.

Lemma Prim2SF_nan (f : float) : Prim2SF f = S754_nan -> f = nan.
Proof.
  intros H. rewrite <- (SF2Prim_Prim2SF f), H. reflexivity.
Qed.

(** Accumulating from left to right keeps the zeros. *)
Lemma sequential_keeps_zeros : keeps_zeros sequential.
Proof.
  split.
  - intros ws Hws. simpl. unfold fsum, is_zero. simpl.
    pose proof (fold_add_zero_weights ws PrimFloat.zero eq_refl Hws) as H.
    rewrite FloatAxioms.eqb_spec, H. reflexivity.
  - intros n i j ws ps Hws. simpl. unfold fdot, fsum. simpl.
    assert (H : pzero_or_nan
                  (fold_left PrimFloat.add (zip_with PrimFloat.mul ws ps)
                             PrimFloat.zero)).
    { apply fold_add_pzero_or_nan; [by left|].
      clear -Hws. revert ps.
      induction Hws as [|w ws Hw _ IH]; intros [|p ps]; simpl;
        constructor; [by apply mul_zero_weight | apply IH]. }
    destruct H as [H|H]; [left; eauto | by right].
Qed.

(** With every weight zero the quotient of [np.dot] and [np.sum] is [0 / 0]
    or [NaN / 0]: NaN, whatever the order of the sums. *)
Lemma com_zero_weights {N : Numpy float} (n k j : nat) (ws ps : list float) :
  keeps_zeros N -> Forall (fun w => is_zero w = true) ws ->
  com n k j ws ps = nan.
Proof.
  intros [Hsum Hdot] Hws. apply Prim2SF_nan. unfold com. simpl.
  destruct (is_zero_spec _ (Hsum ws Hws)) as [s Hden].
  rewrite div_spec, Hden. unfold SF64div.
  destruct (Hdot n k j ws ps Hws) as [[s' ->] | ->]; reflexivity.
Qed.
End Binary64.

Lemma Forall2_Ok_functional {A B : Type} (f : A -> result B) (l : list A)
  (bs bs' : list B) :
  Forall2 (fun a b => f a = Ok b) l bs ->
  Forall2 (fun a b => f a = Ok b) l bs' -> bs = bs'.
Proof.
  intros H%mapM_Ok H'%mapM_Ok. congruence.
Qed.

(** ** The store: what a call reads and what it writes *)

Section StoreFacts.
Context {F : Type} {SF : Scalar F}.
Import Store.
Implicit Types (h temps : store F) (r : ref).

Lemma lookup_input (h0 : store F) (rest : store F) r (o : ndarray F) :
  h0 !! r = Some o -> (h0 ++ rest) !! r = Some o.
Proof. apply lookup_app_l_Some. Qed.

Lemma lookup_fresh (h0 : store F) temps (o : ndarray F) :
  (h0 ++ o :: temps) !! length h0 = Some o.
Proof. apply list_lookup_middle. reflexivity. Qed.

Lemma insert_fresh (h0 : store F) temps (o o' : ndarray F) :
  <[length h0 := o']> (h0 ++ o :: temps) = h0 ++ o' :: temps.
Proof.
  rewrite <- (Nat.add_0_r (length h0)). rewrite insert_app_r. reflexivity.
Qed.

(** A loop whose passes read the inputs, update the object allocated right
    after them, and leave [k] new objects each: it computes what the loop
    over values computes, and the store it leaves is the store it found, the
    updated object, and the new objects. *)
Lemma for_each_pure {A S : Type} (inj : S -> ndarray F)
  (P : ndarray F -> Prop) (k : nat)
  (body : A -> St F unit) (pure : S -> A -> result S) (h0 : store F) :
  (forall a s temps,
     match pure s a with
     | Ok s' =>
         exists temps',
           body a (h0 ++ inj s :: temps) =
             Ok (tt, h0 ++ inj s' :: temps ++ temps') /\
           length temps' = k /\ Forall P temps'
     | Raise e => body a (h0 ++ inj s :: temps) = Raise e
     end) ->
  forall l s temps,
    match foldM pure l s with
    | Ok s' =>
        exists temps',
          for_each body l (h0 ++ inj s :: temps) =
            Ok (tt, h0 ++ inj s' :: temps ++ temps') /\
          length temps' = (k * length l)%nat /\ Forall P temps'
    | Raise e => for_each body l (h0 ++ inj s :: temps) = Raise e
    end.
Proof.
  intros Hbody l. induction l as [|a l IH]; intros s temps; simpl.
  - exists []. rewrite app_nil_r. split; [reflexivity|].
    split; [by rewrite Nat.mul_0_r | constructor].
  - specialize (Hbody a s temps). unfold bindS.
    destruct (pure s a) as [s1|e]; simpl.
    + destruct Hbody as (temps1 & -> & Hlen1 & HP1).
      specialize (IH s1 (temps ++ temps1)).
      destruct (foldM pure l s1) as [s'|e].
      * destruct IH as (temps2 & -> & Hlen2 & HP2).
        exists (temps1 ++ temps2). rewrite app_assoc.
        split; [reflexivity|]. split.
        -- rewrite length_app, Nat.mul_succ_r. lia.
        -- by apply Forall_app.
      * exact IH.
    + by rewrite Hbody.
Qed.
End StoreFacts.

Section StoreSteps.
Context {F : Type} {SF : Scalar F} {N : Numpy F}.
Import Store.
Implicit Types (h temps : store F) (r : ref).

Lemma bindS_Ok {A B : Type} (m : St F A) (k : A -> St F B) h (a : A)
  (h' : store F) :
  m h = Ok (a, h') -> bindS m k h = k a h'.
Proof. intros H. unfold bindS. by rewrite H. Qed.

Lemma bindS_Raise {A B : Type} (m : St F A) (k : A -> St F B) h (e : exn) :
  m h = Raise e -> bindS m k h = Raise e.
Proof. intros H. unfold bindS. by rewrite H. Qed.

Lemma bindS_assoc {A B C : Type} (m : St F A) (f : A -> St F B)
  (g : B -> St F C) h :
  bindS (bindS m f) g h = bindS m (fun a => bindS (f a) g) h.
Proof. unfold bindS. by destruct (m h) as [[a h']|e]. Qed.

Lemma bindS_ret {A B : Type} (a : A) (k : A -> St F B) h :
  bindS (ret a) k h = k a h.
Proof. reflexivity. Qed.

Lemma bindS_load_array1 {B : Type} r (v : list F) (k : list F -> St F B) h :
  h !! r = Some (Array1 v) -> bindS (load_array1 r) k h = k v h.
Proof. intros H. unfold bindS, load_array1, bindS, load. by rewrite H. Qed.

Lemma bindS_load_array2 {B : Type} r (m : list (list F))
  (k : list (list F) -> St F B) h :
  h !! r = Some (Array2 m) -> bindS (load_array2 r) k h = k m h.
Proof. intros H. unfold bindS, load_array2, bindS, load. by rewrite H. Qed.

Lemma bindS_load_array3 {B : Type} r (t : list (list (list F)))
  (k : list (list (list F)) -> St F B) h :
  h !! r = Some (Array3 t) -> bindS (load_array3 r) k h = k t h.
Proof. intros H. unfold bindS, load_array3, bindS, load. by rewrite H. Qed.

Lemma bindS_load_mask {B : Type} r (m : list (list bool))
  (k : list (list bool) -> St F B) h :
  h !! r = Some (Mask m) -> bindS (load_mask r) k h = k m h.
Proof. intros H. unfold bindS, load_mask, bindS, load. by rewrite H. Qed.

Lemma bindS_load_peaks {B : Type} r (p : list Peak)
  (k : list Peak -> St F B) h :
  h !! r = Some (PeakArray p) -> bindS (load_peaks r) k h = k p h.
Proof. intros H. unfold bindS, load_peaks, bindS, load. by rewrite H. Qed.

Lemma bindS_load_parents {B : Type} r (p : RadialParents)
  (k : RadialParents -> St F B) h :
  h !! r = Some (Parents p) -> bindS (load_parents r) k h = k p h.
Proof. intros H. unfold bindS, load_parents, bindS, load. by rewrite H. Qed.

Lemma bindS_load_xy {B : Type} r (l : list (XY.t F))
  (k : list (XY.t F) -> St F B) h :
  h !! r = Some (LocationsXY l) -> bindS (load_xy r) k h = k l h.
Proof. intros H. unfold bindS, load_xy, bindS, load. by rewrite H. Qed.

Lemma bindS_load_xyza {B : Type} r (l : list (XYZA.t F))
  (k : list (XYZA.t F) -> St F B) h :
  h !! r = Some (LocationsXYZA l) -> bindS (load_xyza r) k h = k l h.
Proof. intros H. unfold bindS, load_xyza, bindS, load. by rewrite H. Qed.

Lemma bindS_write {B : Type} r (o o' : ndarray F) (k : unit -> St F B) h :
  h !! r = Some o -> bindS (write r o') k h = k tt (<[r := o']> h).
Proof. intros H. unfold bindS, write. by rewrite H. Qed.

Lemma write_Ok r (o o' : ndarray F) h :
  h !! r = Some o -> write r o' h = Ok (tt, <[r := o']> h).
Proof. intros H. unfold write. by rewrite H. Qed.

Lemma bindS_lift {A B : Type} (m : result A) (k : A -> St F B) h :
  bindS (lift m) k h =
  match m with Ok a => k a h | Raise e => Raise e end.
Proof. unfold bindS, lift. by destruct m. Qed.

Lemma bindS_new {B : Type} (o : ndarray F) (k : ref -> St F B) h :
  bindS (new o) k h = k (length h) (h ++ [o]).
Proof. reflexivity. Qed.

Lemma bindS_load_step {B : Type} (self : Self) (cl : list (list F))
  (mask : list (list bool)) (k : PeakPipelineStep F -> St F B) h :
  h !! contact_locations_ref self = Some (Array2 cl) ->
  h !! neighbours_mask_ref self = Some (Mask mask) ->
  bindS (load_step self) k h =
  k {| contact_locations := cl; neighbours_mask := mask;
       nbefore := self_nbefore self; nafter := self_nafter self |} h.
Proof.
  intros Hcl Hmask. unfold load_step.
  unfold bindS at 1. rewrite (bindS_load_array2 _ cl) by assumption.
  rewrite (bindS_load_mask _ mask) by assumption. reflexivity.
Qed.

(** The store a step works on: the inputs [h0], each behind its reference. *)
Variables (h0 : store F) (self : Self).
Variables (cl : list (list F)) (mask : list (list bool)).
Hypothesis Hcl : h0 !! contact_locations_ref self = Some (Array2 cl).
Hypothesis Hmask : h0 !! neighbours_mask_ref self = Some (Mask mask).

Let step : PeakPipelineStep F :=
  {| contact_locations := cl; neighbours_mask := mask;
     nbefore := self_nbefore self; nafter := self_nafter self |}.

Lemma peak_channel_store (traces peaks : ref) (ps : list Peak)
  (tr : list (list F)) :
  h0 !! peaks = Some (PeakArray ps) ->
  match LocalizePeakChannel.compute_buffer step tr ps with
  | Ok out =>
      peak_channel_compute_buffer self traces peaks h0 =
      Ok (length h0, h0 ++ [LocationsXY out])
  | Raise e => peak_channel_compute_buffer self traces peaks h0 = Raise e
  end.
Proof.
  intros Hps. unfold peak_channel_compute_buffer.
  rewrite (bindS_load_peaks _ ps) by assumption. rewrite bindS_new.
  unfold LocalizePeakChannel.compute_buffer. cbv zeta.
  match goal with
  | |- context [for_each ?b ?l] =>
      pose proof (for_each_pure LocationsXY (fun _ => False) 0 b
        (fun peak_locations '(index, main_chan) =>
           locations <- np_index (contact_locations step) main_chan ;;
           l0 <- np_index locations 0 ;;
           let peak_locations := alter (XY.set_x l0) index peak_locations in
           l1 <- np_index locations 1 ;;
           Ok (alter (XY.set_y l1) index peak_locations)) h0) as Hloop
  end.
  specialize (Hloop ltac:(
    intros [index main_chan] pl temps;
    rewrite (bindS_load_step self cl mask)
      by (apply lookup_input; assumption);
    rewrite bindS_lift; fold step;
    destruct (np_index (contact_locations step) main_chan) as [loc|e];
      simpl; [|reflexivity];
    rewrite bindS_lift;
    destruct (np_index loc 0) as [l0|e]; simpl; [|reflexivity];
    rewrite (bindS_load_xy _ pl) by apply lookup_fresh;
    rewrite (bindS_write _ (LocationsXY pl)) by apply lookup_fresh;
    rewrite insert_fresh, bindS_lift;
    destruct (np_index loc 1) as [l1|e]; simpl; [|reflexivity];
    rewrite (bindS_load_xy _ (alter (XY.set_x l0) index pl))
      by apply lookup_fresh;
    rewrite (write_Ok _ (LocationsXY (alter (XY.set_x l0) index pl)))
      by apply lookup_fresh;
    rewrite insert_fresh;
    exists []; rewrite app_nil_r; repeat split; constructor)).
  specialize (Hloop (enumerate (map channel_ind ps))
                    (np_zeros (length ps) XY.zero) []).
  destruct (foldM _ _ _) as [out|e].
  - destruct Hloop as (temps' & Hfor & Hlen & _).
    rewrite (bindS_Ok _ _ _ _ _ Hfor).
    destruct temps'; [reflexivity | discriminate].
  - by rewrite (bindS_Raise _ _ _ _ Hloop).
Qed.

Lemma center_of_mass_store (feature : string) (traces peaks waveforms : ref)
  (ps : list Peak) (wfs : list (list (list F))) (tr : list (list F)) :
  h0 !! peaks = Some (PeakArray ps) ->
  h0 !! waveforms = Some (Array3 wfs) ->
  match LocalizeCenterOfMass.compute_buffer
          {| LocalizeCenterOfMass.base := step;
             LocalizeCenterOfMass.feature := feature |} tr ps wfs with
  | Ok out =>
      center_of_mass_compute_buffer self feature traces peaks waveforms h0 =
      Ok (length h0, h0 ++ [LocationsXY out])
  | Raise e =>
      center_of_mass_compute_buffer self feature traces peaks waveforms h0 =
      Raise e
  end.
Proof.
  intros Hps Hwfs. unfold center_of_mass_compute_buffer.
  rewrite (bindS_load_peaks _ ps) by assumption. rewrite bindS_new.
  unfold LocalizeCenterOfMass.compute_buffer. cbv zeta.
  match goal with
  | |- context [for_each ?b ?l] =>
      pose proof (for_each_pure LocationsXY (fun _ => False) 0 b
        (LocalizeCenterOfMass.group
           {| LocalizeCenterOfMass.base := step;
              LocalizeCenterOfMass.feature := feature |} ps wfs) h0) as Hloop
  end.
  specialize (Hloop ltac:(
    intros main_chan pl temps; cbv beta;
    rewrite (bindS_load_step self cl mask)
      by (apply lookup_input; assumption);
    rewrite (bindS_load_peaks _ ps) by (apply lookup_input; assumption);
    rewrite (bindS_load_array3 _ wfs) by (apply lookup_input; assumption);
    rewrite (bindS_load_xy _ pl) by apply lookup_fresh;
    rewrite bindS_lift; fold step;
    destruct (LocalizeCenterOfMass.group _ ps wfs pl main_chan) as [pl'|e];
      [|reflexivity];
    rewrite (write_Ok _ (LocationsXY pl)) by apply lookup_fresh;
    rewrite insert_fresh;
    exists []; rewrite app_nil_r; repeat split; constructor)).
  specialize (Hloop (np_unique (map channel_ind ps))
                    (np_zeros (length ps) XY.zero) []).
  destruct (foldM _ _ _) as [out|e].
  - destruct Hloop as (temps' & Hfor & Hlen & _).
    rewrite (bindS_Ok _ _ _ _ _ Hfor).
    destruct temps'; [reflexivity | discriminate].
  - by rewrite (bindS_Raise _ _ _ _ Hloop).
Qed.

Lemma lookup_last_fresh (h : store F) (o : ndarray F) :
  (h ++ [o]) !! length h = Some o.
Proof. apply lookup_fresh. Qed.

Lemma insert_last_fresh (h : store F) (o o' : ndarray F) :
  <[length h := o']> (h ++ [o]) = h ++ [o'].
Proof. apply insert_fresh. Qed.

Lemma monopolar_triangulation_store
  (solve_monopolar_triangulation :
     list F -> list (list F) -> F -> string -> result (XYZA.t F))
  (parents : option ref) (rp : option RadialParents)
  (max_distance_um : F) (optimizer : string) (traces peaks : ref)
  (ps : list Peak) (tr : list (list F)) :
  h0 !! peaks = Some (PeakArray ps) ->
  h0 !! traces = Some (Array2 tr) ->
  parents_in_store h0 parents rp ->
  match LocalizeMonopolarTriangulation.compute_buffer
          solve_monopolar_triangulation
          {| LocalizeMonopolarTriangulation.base := step;
             LocalizeMonopolarTriangulation.max_distance_um := max_distance_um;
             LocalizeMonopolarTriangulation.optimizer := optimizer;
             LocalizeMonopolarTriangulation.enforce_decrease_radial_parents :=
               rp |} tr ps with
  | Ok out =>
      exists temps,
        monopolar_triangulation_compute_buffer solve_monopolar_triangulation
          self parents max_distance_um optimizer traces peaks h0 =
        Ok (length h0, h0 ++ LocationsXYZA out :: temps) /\
        length temps = length ps /\
        Forall is_array1 temps
  | Raise e =>
      monopolar_triangulation_compute_buffer solve_monopolar_triangulation
        self parents max_distance_um optimizer traces peaks h0 = Raise e
  end.
Proof.
  intros Hps Htr Hparents. unfold monopolar_triangulation_compute_buffer.
  rewrite (bindS_load_peaks _ ps) by assumption. rewrite bindS_new.
  unfold LocalizeMonopolarTriangulation.compute_buffer. cbv zeta.
  match goal with
  | |- context [foldM ?p _ _] =>
      match goal with
      | |- context [for_each ?b ?l] =>
          pose proof (for_each_pure LocationsXYZA
                        is_array1 1 b p h0) as Hloop
      end
  end.
  assert (Hbody : forall (a : nat * Peak) (s : list (XYZA.t F)) temps,
    match
      (let '(i, peak) := a in
       location <- LocalizeMonopolarTriangulation.localize
                     solve_monopolar_triangulation
                     {| LocalizeMonopolarTriangulation.base := step;
                        LocalizeMonopolarTriangulation.max_distance_um :=
                          max_distance_um;
                        LocalizeMonopolarTriangulation.optimizer := optimizer;
                        LocalizeMonopolarTriangulation.enforce_decrease_radial_parents
                          := rp |} tr peak ;;
       Ok (<[i := location]> s))
    with
    | Ok s' =>
        exists temps',
          (let '(i, peak) := a in
           step <~ load_step self ;;
           chan_mask <~ lift (np_index (neighbours_mask step)
                                       (channel_ind peak)) ;;
           local_contact_locations <~
             lift (np_take (contact_locations step) (np_nonzero chan_mask)) ;;
           tr <~ load_array2 traces ;;
           wf <~ lift (select_channels
                         (py_slice tr (sample_ind peak - nbefore step)
                                      (sample_ind peak + nafter step))
                         (np_nonzero chan_mask)) ;;
           ptp <~ lift (np_ptp wf) ;;
           wf_ptp <~ new (Array1 ptp) ;;
           _ <~ match parents with
                | Some radial_parents =>
                    enforce_decrease_shells_ptp_in_place wf_ptp
                      (channel_ind peak) radial_parents
                | None => ret tt
                end ;;
           amps <~ load_array1 wf_ptp ;;
           location <~ lift (solve_monopolar_triangulation amps
                               local_contact_locations max_distance_um
                               optimizer) ;;
           pl <~ load_xyza (length h0) ;;
           write (length h0) (LocationsXYZA (<[i := location]> pl)))
            (h0 ++ LocationsXYZA s :: temps) =
          Ok (tt, h0 ++ LocationsXYZA s' :: temps ++ temps') /\
          length temps' = 1%nat /\
          Forall is_array1 temps'
    | Raise e =>
        (let '(i, peak) := a in
           step <~ load_step self ;;
           chan_mask <~ lift (np_index (neighbours_mask step)
                                       (channel_ind peak)) ;;
           local_contact_locations <~
             lift (np_take (contact_locations step) (np_nonzero chan_mask)) ;;
           tr <~ load_array2 traces ;;
           wf <~ lift (select_channels
                         (py_slice tr (sample_ind peak - nbefore step)
                                      (sample_ind peak + nafter step))
                         (np_nonzero chan_mask)) ;;
           ptp <~ lift (np_ptp wf) ;;
           wf_ptp <~ new (Array1 ptp) ;;
           _ <~ match parents with
                | Some radial_parents =>
                    enforce_decrease_shells_ptp_in_place wf_ptp
                      (channel_ind peak) radial_parents
                | None => ret tt
                end ;;
           amps <~ load_array1 wf_ptp ;;
           location <~ lift (solve_monopolar_triangulation amps
                               local_contact_locations max_distance_um
                               optimizer) ;;
           pl <~ load_xyza (length h0) ;;
           write (length h0) (LocationsXYZA (<[i := location]> pl)))
            (h0 ++ LocationsXYZA s :: temps) = Raise e
    end).
  { intros [i peak] pl temps.
    unfold LocalizeMonopolarTriangulation.localize,
      LocalizeMonopolarTriangulation.amplitudes,
      LocalizeMonopolarTriangulation.window. cbv zeta. simpl.
    rewrite (bindS_load_step self cl mask)
      by (apply lookup_input; assumption).
    rewrite bindS_lift. unfold step. simpl.
    destruct (np_index mask (channel_ind peak)) as [chan_mask|e]; simpl;
      [|reflexivity].
    rewrite bindS_lift.
    destruct (np_take cl (np_nonzero chan_mask)) as [local|e]; simpl;
      [|reflexivity].
    rewrite (bindS_load_array2 _ tr) by (apply lookup_input; assumption).
    rewrite bindS_lift.
    destruct (select_channels _ (np_nonzero chan_mask)) as [wf|e]; simpl;
      [|reflexivity].
    rewrite bindS_lift.
    destruct (np_ptp wf) as [ptp|e]; simpl; [|reflexivity].
    rewrite bindS_new.
    set (h := h0 ++ LocationsXYZA pl :: temps).
    assert (Hfinish : forall amps : list F,
      match (location <- solve_monopolar_triangulation amps local
                           max_distance_um optimizer ;;
             Ok (<[i := location]> pl)) with
      | Ok s' =>
          exists temps',
            (amps0 <~ load_array1 (length h) ;;
             location <~ lift (solve_monopolar_triangulation amps0 local
                                 max_distance_um optimizer) ;;
             pl0 <~ load_xyza (length h0) ;;
             write (length h0) (LocationsXYZA (<[i := location]> pl0)))
              (h ++ [Array1 amps]) =
            Ok (tt, h0 ++ LocationsXYZA s' :: temps ++ temps') /\
            length temps' = 1%nat /\
            Forall is_array1 temps'
      | Raise e =>
          (amps0 <~ load_array1 (length h) ;;
           location <~ lift (solve_monopolar_triangulation amps0 local
                               max_distance_um optimizer) ;;
           pl0 <~ load_xyza (length h0) ;;
           write (length h0) (LocationsXYZA (<[i := location]> pl0)))
            (h ++ [Array1 amps]) = Raise e
      end).
    { intros amps.
      rewrite (bindS_load_array1 _ amps) by apply lookup_last_fresh.
      rewrite bindS_lift.
      destruct (solve_monopolar_triangulation amps local max_distance_um
                  optimizer) as [location|e]; simpl; [|reflexivity].
      subst h. rewrite <- app_assoc. simpl.
      rewrite (bindS_load_xyza _ pl) by apply lookup_fresh.
      rewrite (write_Ok _ (LocationsXYZA pl)) by apply lookup_fresh.
      rewrite insert_fresh.
      exists [Array1 amps]. repeat split; repeat constructor.
      unfold is_array1. eauto. }
    destruct parents as [pr|], rp as [p|]; simpl in Hparents;
      try contradiction.
    - unfold enforce_decrease_shells_ptp_in_place.
      rewrite !bindS_assoc.
      rewrite (bindS_load_array1 _ ptp) by apply lookup_last_fresh.
      cbv beta. rewrite !bindS_assoc.
      rewrite (bindS_load_parents _ p)
        by (apply lookup_input; subst h; apply lookup_input; assumption).
      cbv beta. rewrite !bindS_assoc.
      rewrite bindS_lift.
      destruct (enforce_decrease_shells_ptp ptp (channel_ind peak) p)
        as [amps'|e]; simpl; [|reflexivity].
      rewrite (bindS_write _ (Array1 ptp)) by apply lookup_last_fresh.
      rewrite insert_last_fresh. apply Hfinish.
    - rewrite bindS_ret. apply Hfinish. }
  specialize (Hloop Hbody (enumerate ps) (np_zeros (length ps) XYZA.zero) []).
  destruct (foldM _ _ _) as [out|e].
  - destruct Hloop as (temps' & Hfor & Hlen & HP).
    rewrite (bindS_Ok _ _ _ _ _ Hfor). exists temps'.
    split; [reflexivity|]. split; [|assumption].
    rewrite Hlen. unfold enumerate. rewrite length_enumerate_from. lia.
  - by rewrite (bindS_Raise _ _ _ _ Hloop).
Qed.
End StoreSteps.

(** * The claims *)

Lemma mapM_Ok_iff_lookup {A B : Type} (f : A -> result B) (l : list A)
  (bs : list B) :
  mapM f l = Ok bs <->
  length bs = length l /\
  forall i a, l !! i = Some a -> exists b, f a = Ok b /\ bs !! i = Some b.
Proof.
  split; [apply mapM_Ok_lookup|].
  intros [Hlen H]. apply mapM_Ok, Forall2_same_length_lookup_2.
  - by symmetry.
  - intros i a b Ha Hb. destruct (H i a Ha) as (b' & Hf & Hb'). congruence.
Qed.







(** C2. Order preservation, for the three strategies: [compute_buffer]
    returns [out] exactly when [out] has one record per input peak and the
    record at index [i] is the location computed for the peak at index [i];
    no peak is dropped or moved. For the center of mass that location is the
    one the peak has as a row of the group of its channel. *)
Theorem compute_buffer_preserves_order {F : Type} {SF : Scalar F}
  {N : Numpy F}
  (solve_monopolar_triangulation :
     list F -> list (list F) -> F -> string -> result (XYZA.t F))
  (traces : list (list F)) (peaks : list Peak) :
  (forall (self : PeakPipelineStep F) (out : list (XY.t F)),
     LocalizePeakChannel.compute_buffer self traces peaks = Ok out <->
     length out = length peaks /\
     forall i p, peaks !! i = Some p ->
       exists r, LocalizePeakChannel.localize self p = Ok r /\
                 out !! i = Some r) /\
  (forall (self : LocalizeCenterOfMass.t F)
          (waveforms : list (list (list F))) (out : list (XY.t F)),
     LocalizeCenterOfMass.compute_buffer self traces peaks waveforms = Ok out
     <->
     length out = length peaks /\
     forall i p, peaks !! i = Some p ->
       exists k wf r,
         LocalizeCenterOfMass.group_indices peaks (channel_ind p) !! k
         = Some i /\
         waveforms !! i = Some wf /\
         LocalizeCenterOfMass.localize self
           (length (LocalizeCenterOfMass.group_indices peaks (channel_ind p)))
           k p wf = Ok r /\
         out !! i = Some r) /\
  (forall (self : LocalizeMonopolarTriangulation.t F)
          (out : list (XYZA.t F)),
     LocalizeMonopolarTriangulation.compute_buffer
       solve_monopolar_triangulation self traces peaks = Ok out <->
     length out = length peaks /\
     forall i p, peaks !! i = Some p ->
       exists r,
         LocalizeMonopolarTriangulation.localize
           solve_monopolar_triangulation self traces p = Ok r /\
         out !! i = Some r).
Proof.
  split; [|split].
  - intros self out. rewrite peak_channel_compute_buffer_mapM.
    apply mapM_Ok_iff_lookup.
  - intros self waveforms out. apply com_compute_buffer_Ok.
  - intros self out. rewrite monopolar_compute_buffer_mapM.
    apply mapM_Ok_iff_lookup.
Qed.

Lemma compute_buffer_preserves_order_witness :
  (length Example.peak_channel_out = length Example.peaks /\
   forall i p, Example.peaks !! i = Some p ->
     exists r, LocalizePeakChannel.localize Example.probe p = Ok r /\
               Example.peak_channel_out !! i = Some r) /\
  (length Example.center_of_mass_out = length Example.peaks /\
   forall i p, Example.peaks !! i = Some p ->
     exists k wf r,
       LocalizeCenterOfMass.group_indices Example.peaks (channel_ind p) !! k
       = Some i /\
       Example.waveforms !! i = Some wf /\
       LocalizeCenterOfMass.localize (N := sequential)
         (Example.center_of_mass "ptp")
         (length (LocalizeCenterOfMass.group_indices Example.peaks
                    (channel_ind p)))
         k p wf = Ok r /\
       Example.center_of_mass_out !! i = Some r) /\
  (length Example.triangulation_out = length Example.peaks /\
   forall i p, Example.peaks !! i = Some p ->
     exists r,
       LocalizeMonopolarTriangulation.localize Example.solver
         (Example.triangulation false) Example.traces p = Ok r /\
       Example.triangulation_out !! i = Some r).
Proof.
  destruct (compute_buffer_preserves_order (N := sequential) Example.solver
              Example.traces Example.peaks) as (Hpc & Hcom & Htri).
  split; [|split].
  - apply (Hpc Example.probe). reflexivity.
  - apply (Hcom (Example.center_of_mass "ptp") Example.waveforms).
    reflexivity.
  - apply (Htri (Example.triangulation false)). reflexivity.
Defined.

(** C3. Peak channel: the record of every peak holds the first two
    coordinates of the contact of the peak's channel; the result is the same
    whatever the trace buffer holds; and the call returns whenever every
    peak sits on a channel of the probe. *)
Theorem peak_channel_is_contact_position {F : Type} {SF : Scalar F}
  (self : PeakPipelineStep F) (traces : list (list F)) (peaks : list Peak) :
  (forall traces',
     LocalizePeakChannel.compute_buffer self traces' peaks =
     LocalizePeakChannel.compute_buffer self traces peaks) /\
  (forall out,
     LocalizePeakChannel.compute_buffer self traces peaks = Ok out ->
     forall i p, peaks !! i = Some p ->
       exists loc x y,
         np_index (contact_locations self) (channel_ind p) = Ok loc /\
         loc !! 0%nat = Some x /\ loc !! 1%nat = Some y /\
         out !! i = Some {| XY.x := x; XY.y := y |}) /\
  (Forall (fun loc => (2 <= length loc)%nat) (contact_locations self) ->
   Forall (fun p => 0 <= channel_ind p
                    < Z.of_nat (length (contact_locations self))) peaks ->
   exists out, LocalizePeakChannel.compute_buffer self traces peaks = Ok out).
Proof.
  split; [|split].
  - intros traces'. by rewrite !peak_channel_compute_buffer_mapM.
  - intros out Hout i p Hp. rewrite peak_channel_compute_buffer_mapM in Hout.
    destruct (mapM_lookup _ _ _ _ _ Hout Hp) as (r & Hr & Hloc).
    unfold LocalizePeakChannel.localize in Hloc.
    apply bind_Ok in Hloc as (loc & Hl & Hloc).
    apply bind_Ok in Hloc as (x & Hx & Hloc).
    apply bind_Ok in Hloc as (y & Hy & Hloc).
    injection Hloc as <-.
    change 0 with (Z.of_nat 0) in Hx. change 1 with (Z.of_nat 1) in Hy.
    rewrite np_index_nat in Hx, Hy.
    exists loc, x, y. repeat split; try assumption.
    + destruct (loc !! 0%nat); congruence.
    + destruct (loc !! 1%nat); congruence.
  - intros Hloc Hpeaks. rewrite peak_channel_compute_buffer_mapM.
    apply mapM_total. intros p Hp.
    rewrite Forall_forall in Hloc. rewrite Forall_forall in Hpeaks.
    destruct (np_index_total _ _ (Hpeaks p Hp)) as [loc Hl].
    pose proof (Hloc loc (np_index_elem_of _ _ _ Hl)) as Hlen.
    destruct (np_index_total loc 0) as [x Hx]; [lia|].
    destruct (np_index_total loc 1) as [y Hy]; [lia|].
    unfold LocalizePeakChannel.localize.
    rewrite Hl. simpl. rewrite Hx. simpl. rewrite Hy. simpl. eauto.
Qed.

Lemma peak_channel_is_contact_position_witness :
  (exists loc x y,
     np_index (contact_locations Example.probe)
              (channel_ind Example.peak0) = Ok loc /\
     loc !! 0%nat = Some x /\ loc !! 1%nat = Some y /\
     Example.peak_channel_out !! 0%nat = Some {| XY.x := x; XY.y := y |}) /\
  (exists out,
     LocalizePeakChannel.compute_buffer Example.probe Example.traces
       Example.peaks = Ok out).
Proof.
  destruct (peak_channel_is_contact_position Example.probe Example.traces
              Example.peaks) as (_ & Hout & Htotal).
  split.
  - apply (Hout Example.peak_channel_out eq_refl 0%nat Example.peak0).
    reflexivity.
  - apply Htotal; repeat constructor; simpl; lia.
Defined.





(** ** localize_peaks and the constructors *)

Section Dispatch.
Context {F : Type} {SF : Scalar F}.
Variables (Recording Kwargs JobKwargs Output : Type).
Variable split_job_kwargs : Kwargs -> MethodKwargs F * JobKwargs.
Variable pipeline_step_init :
  Recording -> F -> F -> F -> result (PeakPipelineStep F).
Variable make_radial_order_parents :
  list (list F) -> list (list bool) -> RadialParents.
Variable run_peak_pipeline :
  Recording -> list Peak -> list (step F) -> JobKwargs -> result Output.

Lemma method_supported_elem_of (method : string) :
  method_supported method = true <-> method ∈ possible_localization_methods.
Proof.
  unfold method_supported. rewrite existsb_exists. split.
  - intros (m & Hin & Heq%String.eqb_eq). subst. by apply list_elem_of_In.
  - intros Hin. exists method. split; [by apply list_elem_of_In|].
    apply String.eqb_refl.
Qed.

(** C8. [localize_peaks] with a method outside the three supported names
    raises at its assertion, whatever the constructors and the pipeline
    engine would do: nothing is built and no buffer is processed. With one of
    the three names the assertion passes and the dispatch selects the
    constructor of that method; what [localize_peaks] returns is then what
    the constructor and the engine return. *)
Theorem localize_peaks_checks_method (recording : Recording)
  (peaks : list Peak) (method : string) (kwargs : Kwargs) :
  (method ∉ possible_localization_methods ->
   localize_peaks Recording Kwargs JobKwargs Output split_job_kwargs
     pipeline_step_init make_radial_order_parents run_peak_pipeline
     recording peaks method kwargs = Raise AssertionError) /\
  (method ∈ possible_localization_methods ->
   exists new,
     (method, new) ∈
       [("peak_channel"%string,
         new_peak_channel Recording pipeline_step_init);
        ("center_of_mass"%string,
         new_center_of_mass Recording pipeline_step_init);
        ("monopolar_triangulation"%string,
         new_monopolar_triangulation Recording pipeline_step_init
           make_radial_order_parents)] /\
     dispatch Recording pipeline_step_init make_radial_order_parents
       recording method (split_job_kwargs kwargs).1 =
     new recording (split_job_kwargs kwargs).1 /\
     localize_peaks Recording Kwargs JobKwargs Output split_job_kwargs
       pipeline_step_init make_radial_order_parents run_peak_pipeline
       recording peaks method kwargs =
     (step <- new recording (split_job_kwargs kwargs).1 ;;
      run_peak_pipeline recording peaks [step] (split_job_kwargs kwargs).2)).
Proof.
  unfold localize_peaks. split.
  - intros Hout. destruct (method_supported method) eqn:Hs; [|reflexivity].
    apply method_supported_elem_of in Hs. contradiction.
  - intros Hin. pose proof Hin as Hs. apply method_supported_elem_of in Hs.
    rewrite Hs. simpl. destruct (split_job_kwargs kwargs) as [mk jk]. simpl.
    unfold possible_localization_methods in Hin.
    rewrite !elem_of_cons, elem_of_nil in Hin.
    destruct Hin as [->|[->|[->|[]]]]; eexists; (split; [|split]);
      [ | reflexivity | reflexivity | | reflexivity | reflexivity
        | | reflexivity | reflexivity ].
    + apply list_elem_of_here.
    + apply list_elem_of_further, list_elem_of_here.
    + do 2 apply list_elem_of_further. apply list_elem_of_here.
Qed.
End Dispatch.

Lemma localize_peaks_checks_method_witness :
  Example.run "median" Example.no_kwargs = Raise AssertionError /\
  exists new,
    Example.run "center_of_mass" Example.no_kwargs =
    (step <- new tt Example.no_kwargs ;;
     Example.engine tt Example.peaks [step] tt).
Proof.
  split.
  - apply (localize_peaks_checks_method unit (MethodKwargs float) unit
             (list (list float)) (fun kw => (kw, tt)) Example.step_init
             Example.shells Example.engine tt Example.peaks "median"
             Example.no_kwargs).
    unfold possible_localization_methods.
    rewrite !not_elem_of_cons. repeat split; try discriminate.
    apply not_elem_of_nil.
  - destruct (localize_peaks_checks_method unit (MethodKwargs float) unit
                (list (list float)) (fun kw => (kw, tt)) Example.step_init
                Example.shells Example.engine tt Example.peaks
                "center_of_mass" Example.no_kwargs) as [_ Hin].
    destruct Hin as (new & _ & _ & Hrun).
    + unfold possible_localization_methods.
      apply list_elem_of_further, list_elem_of_here.
    + exists new. exact Hrun.
Defined.

(** C6. The constructor of the center-of-mass step takes any feature name:
    for a name outside ptp, mean, energy and v_origin it still returns a
    step. That step returns an empty array on a buffer without peaks, and on
    a buffer with peaks it never returns; on well-shaped inputs it raises
    [UnboundLocalError] from inside [compute_buffer]. *)
Theorem center_of_mass_feature_unchecked {F : Type} {SF : Scalar F}
  {N : Numpy F}
  (step : PeakPipelineStep F) (feature : string) :
  LocalizeCenterOfMass.supported feature = false ->
  exists self,
    LocalizeCenterOfMass.__init__ step feature = Ok self /\
    (forall traces waveforms,
       LocalizeCenterOfMass.compute_buffer self traces [] waveforms = Ok []) /\
    (forall traces p peaks waveforms out,
       LocalizeCenterOfMass.compute_buffer self traces (p :: peaks) waveforms
       <> Ok out) /\
    (forall traces p waveforms,
       LocalizeCenterOfMass.geometry_ok step ->
       0 <= channel_ind p < Z.of_nat (length (neighbours_mask step)) ->
       LocalizeCenterOfMass.compute_buffer self traces [p] waveforms =
       Raise UnboundLocalError).
Proof.
  intros Hsup. eexists. split; [reflexivity|].
  unfold LocalizeCenterOfMass.supported, LocalizeCenterOfMass.supported_features
    in Hsup. simpl in Hsup.
  destruct (String.eqb feature "ptp") eqn:E1; [discriminate|].
  destruct (String.eqb feature "mean") eqn:E2; [discriminate|].
  destruct (String.eqb feature "energy") eqn:E3; [discriminate|].
  destruct (String.eqb feature "v_origin") eqn:E4; [discriminate|].
  split; [reflexivity|]. split.
  - intros traces p peaks waveforms out [_ H]%com_compute_buffer_Ok.
    destruct (H 0%nat p eq_refl) as (k & wf & r & _ & _ & Hr & _).
    unfold LocalizeCenterOfMass.localize in Hr. cbv zeta in Hr.
    apply bind_Ok in Hr as (row & _ & Hr).
    apply bind_Ok in Hr as (loc & _ & Hr).
    apply bind_Ok in Hr as (w & Hw & _).
    unfold LocalizeCenterOfMass.feature_row in Hw. simpl in Hw.
    rewrite E1, E2, E3, E4 in Hw. discriminate.
  - intros traces p waveforms Hgeo Hch.
    destruct (np_index_total _ _ Hch) as [row Hrow].
    pose proof (neighbours_in_range _ _ _ Hgeo Hrow) as Hc.
    destruct (local_locations_total _ _ Hgeo Hc) as (local & _ & _ & Hl & _).
    unfold LocalizeCenterOfMass.compute_buffer. simpl.
    unfold LocalizeCenterOfMass.group. simpl. rewrite Hrow. simpl.
    rewrite Hl. simpl.
    unfold LocalizeCenterOfMass.feature_data. simpl.
    rewrite E1, E2, E3, E4. reflexivity.
Qed.

Lemma center_of_mass_feature_unchecked_witness :
  exists self,
    LocalizeCenterOfMass.__init__ Example.probe "median" = Ok self /\
    LocalizeCenterOfMass.compute_buffer (N := sequential) self
      Example.traces [] Example.waveforms = Ok [] /\
    LocalizeCenterOfMass.compute_buffer (N := sequential) self
      Example.traces [Example.peak0] Example.waveforms
    = Raise UnboundLocalError.
Proof.
  destruct (center_of_mass_feature_unchecked (N := sequential)
              Example.probe "median" eq_refl)
    as (self & Hinit & Hempty & _ & Hraise).
  exists self. split; [exact Hinit|]. split; [apply Hempty|].
  apply Hraise.
  - unfold LocalizeCenterOfMass.geometry_ok. simpl.
    repeat split; repeat constructor.
  - simpl. lia.
Defined.

(** ** The monotonicity enforcer in the triangulation step *)

Lemma float_ltb_irrefl (a : float) : PrimFloat.ltb a a = false.
Proof.
  rewrite ltb_spec. unfold SFltb.
  destruct (Prim2SF a) as [s|s| |s m e]; simpl; try reflexivity.
  - by destruct s.
  - rewrite Z.compare_refl, Pos.compare_cont_refl. by destruct s.
Qed.

(** For binary64 amplitudes other than NaN, [m] not below [a] is
    [a <= m]. *)
Lemma SFcompare_antisym (x y : spec_float) :
  SFcompare y x =
  match SFcompare x y with Some c => Some (CompOpp c) | None => None end.
Proof.
  destruct x as [sx|sx| |sx mx ex], y as [sy|sy| |sy my ey]; simpl;
    try reflexivity; try (destruct sx; reflexivity);
    try (destruct sy; reflexivity); try (destruct sx, sy; reflexivity).
  destruct sx, sy; simpl; try reflexivity;
    rewrite (Z.compare_antisym ey ex); destruct (Z.compare ey ex) eqn:E;
    simpl; try reflexivity; rewrite (Pos.compare_cont_antisym mx my Eq);
    simpl; destruct (Pos.compare_cont Eq my mx); reflexivity.
Qed.

Lemma is_nan_false (a : float) :
  PrimFloat.is_nan a = false -> Prim2SF a <> S754_nan.
Proof.
  unfold PrimFloat.is_nan. rewrite FloatAxioms.eqb_spec. unfold SFeqb.
  intros H E. rewrite E in H. discriminate.
Qed.

Lemma SFcompare_defined (x y : spec_float) :
  x <> S754_nan -> y <> S754_nan -> exists c, SFcompare x y = Some c.
Proof.
  intros Hx Hy. destruct x, y; simpl; try contradiction; eauto.
Qed.

Lemma float_not_ltb_leb (m a : float) :
  PrimFloat.is_nan m = false -> PrimFloat.is_nan a = false ->
  PrimFloat.ltb m a = false -> PrimFloat.leb a m = true.
Proof.
  intros Hm%is_nan_false Ha%is_nan_false.
  rewrite ltb_spec, leb_spec. unfold SFltb, SFleb.
  rewrite (SFcompare_antisym (Prim2SF m) (Prim2SF a)).
  destruct (SFcompare_defined _ _ Hm Ha) as [c ->].
  destruct c; simpl; congruence.
Qed.

Lemma float_min_not_nan (a b : float) :
  PrimFloat.is_nan a = false -> PrimFloat.is_nan b = false ->
  PrimFloat.is_nan (float_min a b) = false.
Proof.
  intros Ha Hb. unfold float_min. rewrite Ha, Hb.
  by destruct (PrimFloat.ltb b a).
Qed.

(** What [localize] of the triangulation step runs through, for a step
    whose radial parents are [parents]. *)
Lemma monopolar_localize_Ok {F : Type} {SF : Scalar F}
  (solve_monopolar_triangulation :
     list F -> list (list F) -> F -> string -> result (XYZA.t F))
  (self : LocalizeMonopolarTriangulation.t F) (traces : list (list F))
  (p : Peak) (r : XYZA.t F) :
  LocalizeMonopolarTriangulation.localize solve_monopolar_triangulation self
    traces p = Ok r <->
  exists chan_mask locations wf wf_ptp amplitudes,
    np_index (neighbours_mask (LocalizeMonopolarTriangulation.base self))
             (channel_ind p) = Ok chan_mask /\
    np_take (contact_locations (LocalizeMonopolarTriangulation.base self))
            (np_nonzero chan_mask) = Ok locations /\
    select_channels (LocalizeMonopolarTriangulation.window self traces p)
                    (np_nonzero chan_mask) = Ok wf /\
    np_ptp wf = Ok wf_ptp /\
    match LocalizeMonopolarTriangulation.enforce_decrease_radial_parents self
    with
    | Some radial_parents =>
        enforce_decrease_shells_ptp wf_ptp (channel_ind p) radial_parents
    | None => Ok wf_ptp
    end = Ok amplitudes /\
    solve_monopolar_triangulation amplitudes locations
      (LocalizeMonopolarTriangulation.max_distance_um self)
      (LocalizeMonopolarTriangulation.optimizer self) = Ok r.
Proof.
  unfold LocalizeMonopolarTriangulation.localize,
    LocalizeMonopolarTriangulation.amplitudes. cbv zeta. split.
  - intros H.
    apply bind_Ok in H as (chan_mask & Hmask & H).
    apply bind_Ok in H as (locations & Hloc & H).
    apply bind_Ok in H as (amplitudes & Hamps & H).
    apply bind_Ok in Hamps as (wf & Hwf & Hamps).
    apply bind_Ok in Hamps as (wf_ptp & Hptp & Hamps).
    exists chan_mask, locations, wf, wf_ptp, amplitudes. by repeat split.
  - intros (chan_mask & locations & wf & wf_ptp & amplitudes & Hmask & Hloc
            & Hwf & Hptp & Hamps & Hsolve).
    rewrite Hmask. simpl. rewrite Hloc. simpl. rewrite Hwf. simpl.
    rewrite Hptp. simpl. rewrite Hamps. simpl. exact Hsolve.
Qed.

(** C4, amended. Triangulation: [compute_buffer] hands the solver, for
    every peak, the peak-to-peak amplitudes of the neighbour channels over
    the window, passed through the enforcer exactly when [enforce_decrease]
    was true at construction. After the enforcer has run for the peak
    channel [c], the shells of [c] being a partition, the amplitudes of
    shell 0 are what they were, and for every shell k > 0 no amplitude of
    shell k exceeds the minimum amplitude of shell k-1; for binary64
    amplitudes without NaN, every amplitude of shell k is less than or equal
    to that minimum. The enforcer returns whenever the shells are non-empty
    and within the vector. *)
Theorem enforcer_runs_iff_configured :
  (forall (F : Type) (SF : Scalar F)
          (make_radial_order_parents :
             list (list F) -> list (list bool) -> RadialParents)
          (solve_monopolar_triangulation :
             list F -> list (list F) -> F -> string -> result (XYZA.t F))
          step max_distance_um optimizer (enforce_decrease : bool) self,
     LocalizeMonopolarTriangulation.__init__ make_radial_order_parents step
       max_distance_um optimizer enforce_decrease = Ok self ->
     forall traces peaks out,
       LocalizeMonopolarTriangulation.compute_buffer
         solve_monopolar_triangulation self traces peaks = Ok out <->
       length out = length peaks /\
       forall i p, peaks !! i = Some p ->
         exists chan_mask locations wf wf_ptp amplitudes r,
           np_index (neighbours_mask step) (channel_ind p) = Ok chan_mask /\
           np_take (contact_locations step) (np_nonzero chan_mask)
           = Ok locations /\
           select_channels
             (py_slice traces (sample_ind p - nbefore step)
                              (sample_ind p + nafter step))
             (np_nonzero chan_mask) = Ok wf /\
           np_ptp wf = Ok wf_ptp /\
           (if enforce_decrease
            then enforce_decrease_shells_ptp wf_ptp (channel_ind p)
                   (make_radial_order_parents (contact_locations step)
                                              (neighbours_mask step))
            else Ok wf_ptp) = Ok amplitudes /\
           solve_monopolar_triangulation amplitudes locations
             max_distance_um optimizer = Ok r /\
           out !! i = Some r) /\
  (forall (F : Type) (SF : Scalar F),
     (forall a : F, fltb a a = false) ->
     forall (wf_ptp : list F) (c : Z) (radial_parents : RadialParents)
            (shells : ShellOrder),
       np_index radial_parents c = Ok shells ->
       NoDup (concat shells) ->
       (forall out,
          enforce_decrease_shells_ptp wf_ptp c radial_parents = Ok out ->
          length out = length wf_ptp /\
          (forall shell0 j, shells !! 0%nat = Some shell0 -> j ∈ shell0 ->
             out !! j = wf_ptp !! j) /\
          forall k sp sk,
            shells !! k = Some sp -> shells !! S k = Some sk ->
            exists vals m,
              np_take out sp = Ok vals /\ np_min vals = Ok m /\
              forall j, j ∈ sk ->
                exists a, out !! j = Some a /\ fltb m a = false) /\
       (Forall (shell_ok (length wf_ptp)) shells ->
        exists out,
          enforce_decrease_shells_ptp wf_ptp c radial_parents = Ok out)) /\
  (forall (wf_ptp : list float) (c : Z) (radial_parents : RadialParents)
          (shells : ShellOrder) (out : list float),
     np_index radial_parents c = Ok shells ->
     NoDup (concat shells) ->
     Forall (fun a => PrimFloat.is_nan a = false) wf_ptp ->
     enforce_decrease_shells_ptp wf_ptp c radial_parents = Ok out ->
     forall k sp sk,
       shells !! k = Some sp -> shells !! S k = Some sk ->
       exists vals m,
         np_take out sp = Ok vals /\ np_min vals = Ok m /\
         forall j, j ∈ sk ->
           exists a, out !! j = Some a /\ PrimFloat.leb a m = true).
Proof.
  split; [|split].
  - intros F SF mrp solve step maxd opt enforce self [= <-] traces peaks out.
    rewrite monopolar_compute_buffer_mapM, mapM_Ok_iff_lookup.
    split; intros [Hlen H]; (split; [assumption|]); intros i p Hp.
    + destruct (H i p Hp) as (r & Hr & Hout).
      apply monopolar_localize_Ok in Hr
        as (chan_mask & locations & wf & wf_ptp & amplitudes & Hmask & Hloc
            & Hwf & Hptp & Hamps & Hsolve).
      simpl in *. exists chan_mask, locations, wf, wf_ptp, amplitudes, r.
      repeat split; try assumption. by destruct enforce.
    + destruct (H i p Hp)
        as (chan_mask & locations & wf & wf_ptp & amplitudes & r & Hmask
            & Hloc & Hwf & Hptp & Hamps & Hsolve & Hout).
      exists r. split; [|assumption].
      apply monopolar_localize_Ok. simpl.
      exists chan_mask, locations, wf, wf_ptp, amplitudes.
      repeat split; try assumption. by destruct enforce.
  - intros F SF Hirr wf_ptp c parents shells Hshells Hnd. split.
    + intros out. by apply enforce_decrease_shells_ptp_Ok.
    + by apply enforce_decrease_shells_ptp_total.
  - intros wf_ptp c parents shells out Hshells Hnd Hnan Hout k sp sk Hsp Hsk.
    pose proof (enforce_decrease_shells_ptp_P
                  (fun a => PrimFloat.is_nan a = false) float_min_not_nan
                  wf_ptp c parents out Hnan Hout) as Hout_nan.
    destruct (enforce_decrease_shells_ptp_Ok (SF := float_scalar)
                float_ltb_irrefl wf_ptp c
                parents shells out Hshells Hnd Hout) as (_ & _ & Hpairs).
    destruct (Hpairs k sp sk Hsp Hsk) as (vals & m & Hvals & Hm & Hle).
    exists vals, m. split; [assumption|]. split; [assumption|].
    intros j Hj. destruct (Hle j Hj) as (a & Ha & Hlt).
    exists a. split; [assumption|].
    apply float_not_ltb_leb; [| |assumption].
    + apply (np_min_P (SF := float_scalar)
               (fun a => PrimFloat.is_nan a = false)
               float_min_not_nan vals m); [|assumption].
      by eapply (np_take_P (fun a => PrimFloat.is_nan a = false)).
    + rewrite Forall_forall in Hout_nan. apply Hout_nan.
      eapply list_elem_of_lookup_2, Ha.
Qed.

Lemma enforcer_runs_iff_configured_witness :
  (let out :=
     Example.returned
       (LocalizeMonopolarTriangulation.compute_buffer Example.solver
          (Example.triangulation true) Example.traces Example.peaks) in
   length out = length Example.peaks /\
   forall i p, Example.peaks !! i = Some p ->
     exists chan_mask locations wf wf_ptp amplitudes r,
       np_index (neighbours_mask Example.probe) (channel_ind p)
       = Ok chan_mask /\
       np_take (contact_locations Example.probe) (np_nonzero chan_mask)
       = Ok locations /\
       select_channels
         (py_slice Example.traces
                   (sample_ind p - nbefore Example.probe)
                   (sample_ind p + nafter Example.probe))
         (np_nonzero chan_mask) = Ok wf /\
       np_ptp wf = Ok wf_ptp /\
       enforce_decrease_shells_ptp wf_ptp (channel_ind p)
         (Example.shells (contact_locations Example.probe)
                         (neighbours_mask Example.probe)) = Ok amplitudes /\
       Example.solver amplitudes locations 1000%float
         "minimize_with_log_penality"%string = Ok r /\
       out !! i = Some r) /\
  (forall k sp sk,
     [[2]; [1; 3]; [0]]%nat !! k = Some sp ->
     [[2]; [1; 3]; [0]]%nat !! S k = Some sk ->
     exists vals m,
       np_take Example.enforced_ptp sp = Ok vals /\ np_min vals = Ok m /\
       forall j, j ∈ sk ->
         exists a, Example.enforced_ptp !! j = Some a /\
                   PrimFloat.leb a m = true).
Proof.
  destruct enforcer_runs_iff_configured as (Hconfigured & _ & Hdecrease).
  split.
  - apply (Hconfigured float float_scalar Example.shells Example.solver
             Example.probe 1000%float "minimize_with_log_penality"%string
             true (Example.triangulation true) eq_refl Example.traces
             Example.peaks).
    reflexivity.
  - apply (Hdecrease Example.rising_ptp 2
             (Example.shells (contact_locations Example.probe)
                             (neighbours_mask Example.probe))
             [[2]; [1; 3]; [0]]%nat Example.enforced_ptp).
    + reflexivity.
    + simpl. repeat constructor; rewrite ?elem_of_cons, ?elem_of_nil; lia.
    + repeat constructor.
    + reflexivity.
Defined.

(** C4, as first stated, fails on a window that holds a NaN: the amplitude
    of that channel is NaN, the enforcer clamps nothing, and afterwards the
    amplitude 5 of shell 2 is not less than or equal to the minimum of shell
    1, nor is the amplitude of shell 1 less than or equal to the one of
    shell 0. *)
Lemma enforcer_keeps_nan_amplitudes :
  np_ptp NotANumber.window = Ok [3; nan; 5]%float /\
  enforce_decrease_shells_ptp [3; nan; 5]%float 0 NotANumber.radial_parents
  = Ok [3; nan; 5]%float /\
  np_index NotANumber.radial_parents 0 = Ok [[0]; [1]; [2]]%nat /\
  np_min [nan] = Ok nan /\
  PrimFloat.leb 5 nan = false /\
  np_min [3%float] = Ok 3%float /\
  PrimFloat.leb nan 3 = false.
Proof. repeat split. Qed.

(** ** The window of the triangulation step near the ends of the buffer *)

(** C10. Triangulation, peak near an end of the trace buffer. Cutting the
    window never raises: the slice is the run of rows between its two clipped
    bounds. Near the end of the buffer it is a shortened window. With
    [sample_ind < nbefore] the start is negative and counts from the end of
    the buffer, and the window is empty as soon as the buffer is at least
    [nbefore + nafter] samples long. A window with at least one sample gives
    the peak-to-peak amplitudes that go to the fit; on an empty window the
    peak-to-peak reduction raises [ValueError], and [compute_buffer] returns
    no records for a buffer that holds such a peak. *)
Theorem window_near_buffer_edge {F : Type} {SF : Scalar F}
  (self : LocalizeMonopolarTriangulation.t F) (traces : list (list F))
  (peak : Peak) :
  let n := Z.of_nat (length traces) in
  let s := sample_ind peak in
  let nb := nbefore (LocalizeMonopolarTriangulation.base self) in
  let na := nafter (LocalizeMonopolarTriangulation.base self) in
  let lo := slice_bound n (s - nb) in
  let hi := slice_bound n (s + na) in
  let window := LocalizeMonopolarTriangulation.window self traces peak in
  (forall k : nat,
     window !! k =
     if decide (Z.of_nat k < hi - lo) then traces !! (Z.to_nat lo + k)%nat
     else None) /\
  (0 <= nb -> 0 <= na -> nb <= s <= n -> n < s + na ->
   lo = s - nb /\ hi = n /\
   Z.of_nat (length window) = n - (s - nb) /\
   Z.of_nat (length window) < nb + na) /\
  (0 <= s < nb -> 0 <= na ->
   lo = Z.max (s - nb + n) 0 /\ hi = Z.min (s + na) n /\
   (nb + na <= n -> window = [])) /\
  (forall chan_inds,
     (window = [] ->
      LocalizeMonopolarTriangulation.amplitudes self traces peak chan_inds =
      Raise ValueError) /\
     (forall wf,
        window <> [] -> select_channels window chan_inds = Ok wf ->
        exists wf_ptp,
          np_ptp wf = Ok wf_ptp /\
          LocalizeMonopolarTriangulation.amplitudes self traces peak chan_inds
          = match LocalizeMonopolarTriangulation.enforce_decrease_radial_parents
                    self with
            | Some radial_parents =>
                enforce_decrease_shells_ptp wf_ptp (channel_ind peak)
                  radial_parents
            | None => Ok wf_ptp
            end)) /\
  (window = [] ->
   forall (solve_monopolar_triangulation :
             list F -> list (list F) -> F -> string -> result (XYZA.t F))
          (peaks : list Peak) out,
     peak ∈ peaks ->
     LocalizeMonopolarTriangulation.compute_buffer
       solve_monopolar_triangulation self traces peaks <> Ok out).
Proof.
  intros n s nb na lo hi window.
  assert (Hlen : Z.of_nat (length window) = Z.max 0 (hi - lo)).
  { apply py_slice_length. }
  assert (Hn : 0 <= n) by apply Nat2Z.is_nonneg.
  split; [|split; [|split; [|split]]].
  - intros k. apply py_slice_lookup.
  - intros Hnb Hna Hs Hend.
    assert (lo = s - nb) as Hlo.
    { subst lo. rewrite slice_bound_nonneg; lia. }
    assert (hi = n) as Hhi.
    { subst hi. rewrite slice_bound_nonneg; lia. }
    repeat split; try assumption; lia.
  - intros Hs Hna.
    assert (lo = Z.max (s - nb + n) 0) as Hlo.
    { subst lo. apply slice_bound_neg. lia. }
    assert (hi = Z.min (s + na) n) as Hhi.
    { subst hi. apply slice_bound_nonneg. lia. }
    repeat split; try assumption.
    intros Hfit. apply length_zero_iff_nil. lia.
  - intros chan_inds.
    unfold LocalizeMonopolarTriangulation.amplitudes. fold window. split.
    + intros ->. reflexivity.
    + intros wf Hne Hsel. rewrite Hsel. simpl.
      destruct wf as [|r0 rest].
      * apply select_channels_nil in Hsel. destruct Hsel as [Hnil _].
        contradiction Hne. by apply Hnil.
      * simpl. eauto.
  - intros Hempty solve peaks out [i Hi]%list_elem_of_lookup Hok.
    rewrite monopolar_compute_buffer_mapM in Hok.
    destruct (mapM_lookup _ _ _ _ _ Hok Hi) as (r & _ & Hr).
    apply monopolar_localize_Ok in Hr
      as (chan_mask & locations & wf & wf_ptp & amplitudes & _ & _ & Hwf
          & Hptp & _).
    fold window in Hwf. rewrite Hempty in Hwf. injection Hwf as <-.
    discriminate Hptp.
Qed.

Lemma window_near_buffer_edge_witness :
  (Z.of_nat (length (LocalizeMonopolarTriangulation.window
                       (Example.triangulation false) Example.traces
                       Example.late_peak)) = 6 - (5 - 1) /\
   Z.of_nat (length (LocalizeMonopolarTriangulation.window
                       (Example.triangulation false) Example.traces
                       Example.late_peak)) < 1 + 2) /\
  LocalizeMonopolarTriangulation.window (Example.triangulation false)
    Example.traces Example.early_peak = [] /\
  LocalizeMonopolarTriangulation.amplitudes (Example.triangulation false)
    Example.traces Example.early_peak [0; 1; 2; 3]%nat = Raise ValueError /\
  (forall out,
     LocalizeMonopolarTriangulation.compute_buffer Example.solver
       (Example.triangulation false) Example.traces
       [Example.peak0; Example.early_peak] <> Ok out).
Proof.
  split; [|split; [|split]].
  - destruct (window_near_buffer_edge (Example.triangulation false)
                Example.traces Example.late_peak) as (_ & Hend & _).
    destruct (Hend ltac:(simpl; lia) ltac:(simpl; lia) ltac:(simpl; lia)
                   ltac:(simpl; lia)) as (_ & _ & Hlen & Hshort).
    split; [exact Hlen | exact Hshort].
  - destruct (window_near_buffer_edge (Example.triangulation false)
                Example.traces Example.early_peak) as (_ & _ & Hstart & _).
    destruct (Hstart ltac:(simpl; lia) ltac:(simpl; lia))
      as (_ & _ & Hempty).
    apply Hempty. simpl. lia.
  - destruct (window_near_buffer_edge (Example.triangulation false)
                Example.traces Example.early_peak)
      as (_ & _ & _ & Hamp & _).
    apply Hamp. reflexivity.
  - destruct (window_near_buffer_edge (Example.triangulation false)
                Example.traces Example.early_peak)
      as (_ & _ & _ & _ & Hnone).
    intros out. apply (Hnone eq_refl Example.solver).
    apply list_elem_of_further, list_elem_of_here.
Defined.

(** C10, as first stated, fails on a peak at the first sample of the
    buffer: the window is empty, no amplitude is computed from it and the
    call raises [ValueError]. *)
Lemma window_near_start_raises :
  LocalizeMonopolarTriangulation.window (Example.triangulation false)
    Example.traces Example.early_peak = [] /\
  ~ (exists wf_ptp,
       LocalizeMonopolarTriangulation.amplitudes (Example.triangulation false)
         Example.traces Example.early_peak [0; 1; 2; 3]%nat = Ok wf_ptp) /\
  LocalizeMonopolarTriangulation.compute_buffer Example.solver
    (Example.triangulation false) Example.traces [Example.early_peak] =
  Raise ValueError.
Proof.
  split; [reflexivity|]. split; [|reflexivity].
  intros [wf_ptp H]. vm_compute in H. discriminate.
Qed.

(** ** Center of mass with a zero sum of weights *)

(** C5, amended. Center of mass in binary64, on well-shaped inputs and
    with kernels that keep the zeros, as every order of summation does: the
    call returns one record per peak, every peak having the record of its own
    centroid; nothing guards the division by the sum of the weights, and for
    a peak whose neighbour-channel weights are all zero that division yields
    the record (NaN, NaN). *)
Theorem center_of_mass_zero_weights_nan {N : Numpy float}
  (self : LocalizeCenterOfMass.t float) (traces : list (list float))
  (peaks : list Peak) (waveforms : list (list (list float))) :
  keeps_zeros N ->
  LocalizeCenterOfMass.well_shaped self peaks waveforms ->
  exists out,
    LocalizeCenterOfMass.compute_buffer self traces peaks waveforms = Ok out /\
    length out = length peaks /\
    (forall i p, peaks !! i = Some p ->
       exists k wf r,
         LocalizeCenterOfMass.group_indices peaks (channel_ind p) !! k
         = Some i /\
         waveforms !! i = Some wf /\
         LocalizeCenterOfMass.localize self
           (length (LocalizeCenterOfMass.group_indices peaks (channel_ind p)))
           k p wf = Ok r /\
         out !! i = Some r) /\
    (forall i p wf mask_row ws,
       peaks !! i = Some p -> waveforms !! i = Some wf ->
       np_index (neighbours_mask (LocalizeCenterOfMass.base self))
                (channel_ind p) = Ok mask_row ->
       Forall2 (fun c w => LocalizeCenterOfMass.feature_weight self wf c = Ok w)
               (LocalizeCenterOfMass.neighbour_channels mask_row) ws ->
       Forall (fun w => is_zero w = true) ws ->
       out !! i = Some {| XY.x := nan; XY.y := nan |}).
Proof.
  intros Hzeros Hws.
  destruct (com_compute_buffer_total self traces peaks waveforms Hws)
    as [out Hout].
  exists out. split; [assumption|].
  pose proof Hout as [Hlen Hall]%com_compute_buffer_Ok.
  split; [assumption|]. split; [assumption|].
  intros i p wf mask_row ws Hp Hwf Hrow Hweights Hzero.
  destruct (Hall i p Hp) as (k & wf' & r & _ & Hwf' & Hr & ->).
  assert (wf' = wf) as -> by congruence.
  apply localize_centroid in Hr
    as (row' & ws' & xs & ys & Hrow' & Hws' & _ & _ & ->).
  assert (row' = mask_row) as -> by congruence.
  rewrite (Forall2_Ok_functional _ _ _ _ Hws' Hweights).
  by rewrite !com_zero_weights.
Qed.

Lemma silent_well_shaped :
  LocalizeCenterOfMass.well_shaped (Example.center_of_mass "mean")
    Example.silent_peaks Example.silent_waveforms.
Proof.
  unfold LocalizeCenterOfMass.well_shaped, LocalizeCenterOfMass.geometry_ok,
    LocalizeCenterOfMass.snippet_ok.
  simpl. repeat split; repeat constructor; simpl; lia.
Qed.

Lemma center_of_mass_zero_weights_nan_witness :
  exists out,
    LocalizeCenterOfMass.compute_buffer (N := sequential)
      (Example.center_of_mass "mean")
      Example.traces Example.silent_peaks Example.silent_waveforms = Ok out /\
    length out = 2%nat /\
    out !! 1%nat = Some {| XY.x := nan; XY.y := nan |}.
Proof.
  destruct (center_of_mass_zero_weights_nan (N := sequential)
              (Example.center_of_mass "mean")
              Example.traces Example.silent_peaks Example.silent_waveforms
              sequential_keeps_zeros silent_well_shaped)
    as (out & Hout & Hlen & _ & Hnan).
  exists out. split; [exact Hout|]. split; [exact Hlen|].
  apply (Hnan 1%nat Example.peak2
           (replicate 3 [0%float; 0%float; 0%float; 0%float])
           (replicate 4 true)
           [0%float; 0%float; 0%float; 0%float]).
  - reflexivity.
  - reflexivity.
  - reflexivity.
  - repeat constructor.
  - repeat constructor.
Defined.

(** C5, as first stated, fails: no record serves as the sentinel of the
    peaks whose weights sum to zero. Of two such peaks of one buffer, the one
    with cancelling weights gets (-inf, NaN), the silent one (NaN, NaN). *)
Lemma center_of_mass_zero_sum_no_sentinel :
  ~ (exists sentinel : XY.t float,
       forall (self : LocalizeCenterOfMass.t float) traces peaks waveforms
              out i p wf mask_row ws,
         LocalizeCenterOfMass.compute_buffer (N := sequential) self traces
           peaks waveforms = Ok out ->
         peaks !! i = Some p -> waveforms !! i = Some wf ->
         np_index (neighbours_mask (LocalizeCenterOfMass.base self))
                  (channel_ind p) = Ok mask_row ->
         Forall2 (fun c w =>
                    LocalizeCenterOfMass.feature_weight (N := sequential)
                      self wf c = Ok w)
                 (LocalizeCenterOfMass.neighbour_channels mask_row) ws ->
         is_zero (fsum ws) = true ->
         out !! i = Some sentinel).
Proof.
  intros [sentinel H].
  pose proof (H (Example.center_of_mass "mean") Example.traces
                Example.silent_peaks Example.silent_waveforms
                Example.silent_out 0%nat Example.peak0
                (replicate 3 [0%float; 0%float; 1%float; (-1)%float])
                (replicate 4 true)
                [0%float; 0%float; 1%float; (-1)%float]
                eq_refl eq_refl eq_refl eq_refl) as H0.
  pose proof (H (Example.center_of_mass "mean") Example.traces
                Example.silent_peaks Example.silent_waveforms
                Example.silent_out 1%nat Example.peak2
                (replicate 3 [0%float; 0%float; 0%float; 0%float])
                (replicate 4 true)
                [0%float; 0%float; 0%float; 0%float]
                eq_refl eq_refl eq_refl eq_refl) as H1.
  assert (Hs0 : Example.silent_out !! 0%nat = Some sentinel).
  { apply H0; [repeat constructor | reflexivity]. }
  assert (Hs1 : Example.silent_out !! 1%nat = Some sentinel).
  { apply H1; [repeat constructor | reflexivity]. }
  assert (Hx : PrimFloat.is_nan (XY.x sentinel) = false).
  { injection Hs0 as <-. reflexivity. }
  injection Hs1 as <-. discriminate Hx.
Qed.

(** ** What a call of compute_buffer writes *)

Lemma unchanged_app {F : Type} (h fresh : list (Store.ndarray F)) :
  Store.unchanged h (h ++ fresh).
Proof. intros r o. apply lookup_app_l_Some. Qed.

(** C9. Over the store of objects, for the three strategies: a call of
    [compute_buffer] that returns leaves every object it found (the trace
    buffer, the peaks, the snippets, the contact locations, the neighbour
    mask, the radial parents) as it was. It adds the array of records it
    returns, the one array it assigns into, and, for the triangulation, one
    new amplitude vector per peak, the only array handed to the enforcer. The
    records are those of the value reading of the step. *)
Theorem compute_buffer_leaves_inputs_unchanged {F : Type} {SF : Scalar F}
  {N : Numpy F}
  (solve_monopolar_triangulation :
     list F -> list (list F) -> F -> string -> result (XYZA.t F))
  (h0 : list (Store.ndarray F)) (self : Store.Self)
  (traces peaks waveforms : Store.ref)
  (tr : list (list F)) (ps : list Peak) (wfs : list (list (list F)))
  (cl : list (list F)) (mask : list (list bool)) :
  h0 !! traces = Some (Store.Array2 tr) ->
  h0 !! peaks = Some (Store.PeakArray ps) ->
  h0 !! waveforms = Some (Store.Array3 wfs) ->
  h0 !! Store.contact_locations_ref self = Some (Store.Array2 cl) ->
  h0 !! Store.neighbours_mask_ref self = Some (Store.Mask mask) ->
  let step :=
    {| contact_locations := cl; neighbours_mask := mask;
       nbefore := Store.self_nbefore self;
       nafter := Store.self_nafter self |} in
  (forall out h',
     Store.peak_channel_compute_buffer self traces peaks h0 = Ok (out, h') ->
     Store.unchanged h0 h' /\ out = length h0 /\
     exists locs,
       h' = h0 ++ [Store.LocationsXY locs] /\
       LocalizePeakChannel.compute_buffer step tr ps = Ok locs) /\
  (forall feature out h',
     Store.center_of_mass_compute_buffer self feature traces peaks waveforms
       h0 = Ok (out, h') ->
     Store.unchanged h0 h' /\ out = length h0 /\
     exists locs,
       h' = h0 ++ [Store.LocationsXY locs] /\
       LocalizeCenterOfMass.compute_buffer
         {| LocalizeCenterOfMass.base := step;
            LocalizeCenterOfMass.feature := feature |} tr ps wfs = Ok locs) /\
  (forall parents rp max_distance_um optimizer out h',
     Store.parents_in_store h0 parents rp ->
     Store.monopolar_triangulation_compute_buffer
       solve_monopolar_triangulation self parents max_distance_um optimizer
       traces peaks h0 = Ok (out, h') ->
     Store.unchanged h0 h' /\ out = length h0 /\
     exists locs temps,
       h' = h0 ++ Store.LocationsXYZA locs :: temps /\
       length temps = length ps /\ Forall Store.is_array1 temps /\
       LocalizeMonopolarTriangulation.compute_buffer
         solve_monopolar_triangulation
         {| LocalizeMonopolarTriangulation.base := step;
            LocalizeMonopolarTriangulation.max_distance_um := max_distance_um;
            LocalizeMonopolarTriangulation.optimizer := optimizer;
            LocalizeMonopolarTriangulation.enforce_decrease_radial_parents :=
              rp |} tr ps = Ok locs).
Proof.
  intros Htr Hps Hwfs Hcl Hmask step. split; [|split].
  - intros out h' Hrun.
    pose proof (peak_channel_store h0 self cl mask Hcl Hmask traces peaks ps
                  tr Hps) as H.
    fold step in H.
    destruct (LocalizePeakChannel.compute_buffer step tr ps) as [locs|e];
      rewrite H in Hrun; [|discriminate].
    injection Hrun as <- <-.
    split; [apply unchanged_app|]. split; [reflexivity|]. eauto.
  - intros feature out h' Hrun.
    pose proof (center_of_mass_store h0 self cl mask Hcl Hmask feature traces
                  peaks waveforms ps wfs tr Hps Hwfs) as H.
    fold step in H.
    destruct (LocalizeCenterOfMass.compute_buffer _ tr ps wfs) as [locs|e];
      rewrite H in Hrun; [|discriminate].
    injection Hrun as <- <-.
    split; [apply unchanged_app|]. split; [reflexivity|]. eauto.
  - intros parents rp maxd opt out h' Hparents Hrun.
    pose proof (monopolar_triangulation_store h0 self cl mask Hcl Hmask
                  solve_monopolar_triangulation parents rp maxd opt traces
                  peaks ps tr Hps Htr Hparents) as H.
    fold step in H.
    destruct (LocalizeMonopolarTriangulation.compute_buffer _ _ tr ps)
      as [locs|e].
    + destruct H as (temps & H & Hlen & Htemps).
      rewrite H in Hrun. injection Hrun as <- <-.
      split; [apply unchanged_app|]. split; [reflexivity|].
      exists locs, temps. by repeat split.
    + rewrite H in Hrun. discriminate.
Qed.

Lemma compute_buffer_leaves_inputs_unchanged_witness :
  Store.unchanged Example.inputs Example.after_peak_channel /\
  Store.unchanged Example.inputs Example.after_center_of_mass /\
  (Store.unchanged Example.inputs Example.after_triangulation /\
   exists locs temps,
     Example.after_triangulation =
       Example.inputs ++ Store.LocationsXYZA locs :: temps /\
     length temps = length Example.peaks /\
     Forall Store.is_array1 temps).
Proof.
  destruct (compute_buffer_leaves_inputs_unchanged (N := sequential)
              Example.solver Example.inputs Example.self 0%nat 1%nat 2%nat
              Example.traces Example.peaks Example.waveforms
              (contact_locations Example.probe)
              (neighbours_mask Example.probe)
              eq_refl eq_refl eq_refl eq_refl eq_refl)
    as (Hpc & Hcom & Htri).
  split; [|split].
  - apply (Hpc 6%nat Example.after_peak_channel). reflexivity.
  - apply (Hcom "ptp"%string 6%nat Example.after_center_of_mass).
    reflexivity.
  - destruct (Htri (Some 5%nat)
                (Some (Example.shells (contact_locations Example.probe)
                                      (neighbours_mask Example.probe)))
                1000%float "minimize_with_log_penality"%string 6%nat
                Example.after_triangulation eq_refl eq_refl)
      as (Hunchanged & _ & locs & temps & Hstore & Hlen & Htemps & _).
    split; [exact Hunchanged|]. exists locs, temps. by repeat split.
Defined.

(** * More of the module *)

(** ** Buffers in pieces *)

Lemma mapM_app {A B : Type} (f : A -> result B) (l1 l2 : list A) :
  mapM f (l1 ++ l2) =
  (b1 <- mapM f l1 ;; b2 <- mapM f l2 ;; Ok (b1 ++ b2)).
Proof.
  induction l1 as [|a l1 IH]; simpl.
  - by destruct (mapM f l2).
  - destruct (f a) as [b|e]; simpl; [|reflexivity]. rewrite IH.
    destruct (mapM f l1) as [b1|e]; simpl; [|reflexivity].
    by destruct (mapM f l2).
Qed.

(** X1. Peak channel and triangulation: the peaks of a buffer may be handed
    over in two calls. The records of the whole list are the records of the
    first part followed by those of the second, and the exception of the
    whole list is the first exception of the parts. *)
Theorem sequential_steps_concatenate {F : Type} {SF : Scalar F}
  (solve_monopolar_triangulation :
     list F -> list (list F) -> F -> string -> result (XYZA.t F))
  (traces : list (list F)) (peaks1 peaks2 : list Peak) :
  (forall self : PeakPipelineStep F,
     LocalizePeakChannel.compute_buffer self traces (peaks1 ++ peaks2) =
     (out1 <- LocalizePeakChannel.compute_buffer self traces peaks1 ;;
      out2 <- LocalizePeakChannel.compute_buffer self traces peaks2 ;;
      Ok (out1 ++ out2))) /\
  (forall self : LocalizeMonopolarTriangulation.t F,
     LocalizeMonopolarTriangulation.compute_buffer
       solve_monopolar_triangulation self traces (peaks1 ++ peaks2) =
     (out1 <- LocalizeMonopolarTriangulation.compute_buffer
                solve_monopolar_triangulation self traces peaks1 ;;
      out2 <- LocalizeMonopolarTriangulation.compute_buffer
                solve_monopolar_triangulation self traces peaks2 ;;
      Ok (out1 ++ out2))).
Proof.
  split; intros self.
  - rewrite !peak_channel_compute_buffer_mapM. apply mapM_app.
  - rewrite !monopolar_compute_buffer_mapM. apply mapM_app.
Qed.



(** X3. Center of mass and the number of snippets: a call with fewer
    snippets than peaks never returns, and snippets past the last peak are
    not looked at. *)
Theorem center_of_mass_snippet_count {F : Type} {SF : Scalar F}
  {N : Numpy F}
  (self : LocalizeCenterOfMass.t F) (traces : list (list F))
  (peaks : list Peak) (waveforms : list (list (list F))) :
  ((length waveforms < length peaks)%nat ->
   forall out,
     LocalizeCenterOfMass.compute_buffer self traces peaks waveforms
     <> Ok out) /\
  (length waveforms = length peaks ->
   forall more out,
     LocalizeCenterOfMass.compute_buffer self traces peaks
       (waveforms ++ more) = Ok out <->
     LocalizeCenterOfMass.compute_buffer self traces peaks waveforms
     = Ok out).
Proof.
  split.
  - intros Hlt out [_ H]%com_compute_buffer_Ok.
    destruct (lookup_lt_is_Some_2 peaks (length waveforms) Hlt) as [p Hp].
    destruct (H _ p Hp) as (k & wf & _ & _ & Hwf & _).
    apply lookup_lt_Some in Hwf. lia.
  - intros Hlen more out. rewrite !com_compute_buffer_Ok.
    split; intros [Hout H]; (split; [assumption|]); intros i p Hp;
      destruct (H i p Hp) as (k & wf & r & Hk & Hwf & Hr & Ho);
      exists k, wf, r;
      pose proof (lookup_lt_Some _ _ _ Hp) as Hi;
      (split; [assumption|]); (split; [|by split]).
    + by rewrite lookup_app_l in Hwf by lia.
    + by apply lookup_app_l_Some.
Qed.

Lemma center_of_mass_snippet_count_witness :
  (forall out,
     LocalizeCenterOfMass.compute_buffer (N := sequential)
       (Example.center_of_mass "ptp")
       Example.traces Example.peaks (take 2 Example.waveforms) <> Ok out) /\
  LocalizeCenterOfMass.compute_buffer (N := sequential)
    (Example.center_of_mass "ptp")
    Example.traces Example.peaks (Example.waveforms ++ Example.waveforms)
  = Ok Example.center_of_mass_out.
Proof.
  destruct (center_of_mass_snippet_count (N := sequential)
              (Example.center_of_mass "ptp")
              Example.traces Example.peaks (take 2 Example.waveforms))
    as [Hfew _].
  destruct (center_of_mass_snippet_count (N := sequential)
              (Example.center_of_mass "ptp")
              Example.traces Example.peaks Example.waveforms)
    as [_ Hmore].
  split.
  - apply Hfew. simpl. lia.
  - apply (Hmore eq_refl Example.waveforms Example.center_of_mass_out).
    reflexivity.
Defined.

(** ** Channels outside the probe *)


Lemma np_index_outside {A : Type} (l : list A) (c : Z) :
  c < - Z.of_nat (length l) \/ Z.of_nat (length l) <= c ->
  np_index l c = Raise IndexError.
Proof.
  intros Hc. destruct (np_index l c) as [a|e] eqn:E.
  - apply np_index_Ok in E. lia.
  - unfold np_index in E. cbv zeta in E.
    destruct (_ && _); [destruct (l !! _)|]; congruence.
Qed.




(** X5. A [channel_ind] outside the probe (at or past the number of
    channels, or below its opposite) is never skipped: a buffer that holds
    such a peak makes each of the three steps raise, and a buffer with that
    peak alone raises [IndexError]. *)
Theorem channel_outside_probe_raises {F : Type} {SF : Scalar F}
  {N : Numpy F}
  (solve_monopolar_triangulation :
     list F -> list (list F) -> F -> string -> result (XYZA.t F))
  (traces : list (list F)) (peaks : list Peak) (p : Peak) (n : nat) :
  p ∈ peaks ->
  channel_ind p < - Z.of_nat n \/ Z.of_nat n <= channel_ind p ->
  (forall self : PeakPipelineStep F,
     length (contact_locations self) = n ->
     (forall out,
        LocalizePeakChannel.compute_buffer self traces peaks <> Ok out) /\
     LocalizePeakChannel.compute_buffer self traces [p] = Raise IndexError) /\
  (forall (self : LocalizeCenterOfMass.t F) waveforms,
     length (neighbours_mask (LocalizeCenterOfMass.base self)) = n ->
     (forall out,
        LocalizeCenterOfMass.compute_buffer self traces peaks waveforms
        <> Ok out) /\
     LocalizeCenterOfMass.compute_buffer self traces [p] waveforms
     = Raise IndexError) /\
  (forall self : LocalizeMonopolarTriangulation.t F,
     length (neighbours_mask (LocalizeMonopolarTriangulation.base self)) = n ->
     (forall out,
        LocalizeMonopolarTriangulation.compute_buffer
          solve_monopolar_triangulation self traces peaks <> Ok out) /\
     LocalizeMonopolarTriangulation.compute_buffer
       solve_monopolar_triangulation self traces [p] = Raise IndexError).
Proof.
  intros Hin Hout. apply list_elem_of_lookup in Hin as [i Hi].
  split; [|split].
  - intros self Hn.
    assert (Hp : LocalizePeakChannel.localize self p = Raise IndexError).
    { unfold LocalizePeakChannel.localize.
      rewrite np_index_outside by (rewrite Hn; exact Hout). reflexivity. }
    split.
    + intros out Hok. rewrite peak_channel_compute_buffer_mapM in Hok.
      destruct (mapM_lookup _ _ _ _ _ Hok Hi) as (r & _ & Hr). congruence.
    + rewrite peak_channel_compute_buffer_mapM. simpl. by rewrite Hp.
  - intros self waveforms Hn. split.
    + intros out [_ H]%com_compute_buffer_Ok.
      destruct (H i p Hi) as (k & wf & r & _ & _ & Hr & _).
      unfold LocalizeCenterOfMass.localize in Hr.
      rewrite np_index_outside in Hr by (rewrite Hn; exact Hout).
      discriminate.
    + unfold LocalizeCenterOfMass.compute_buffer. simpl.
      unfold LocalizeCenterOfMass.group.
      rewrite np_index_outside by (rewrite Hn; exact Hout). reflexivity.
  - intros self Hn.
    assert (Hp : LocalizeMonopolarTriangulation.localize
                   solve_monopolar_triangulation self traces p
                 = Raise IndexError).
    { unfold LocalizeMonopolarTriangulation.localize.
      rewrite np_index_outside by (rewrite Hn; exact Hout). reflexivity. }
    split.
    + intros out Hok. rewrite monopolar_compute_buffer_mapM in Hok.
      destruct (mapM_lookup _ _ _ _ _ Hok Hi) as (r & _ & Hr). congruence.
    + rewrite monopolar_compute_buffer_mapM. simpl. by rewrite Hp.
Qed.

Lemma channel_outside_probe_raises_witness :
  LocalizePeakChannel.compute_buffer Example.probe Example.traces
    [{| sample_ind := 2; channel_ind := 4; segment_ind := 0 |}]
  = Raise IndexError /\
  LocalizeCenterOfMass.compute_buffer (N := sequential)
    (Example.center_of_mass "ptp") Example.traces
    [{| sample_ind := 2; channel_ind := 4; segment_ind := 0 |}]
    Example.waveforms = Raise IndexError /\
  LocalizeMonopolarTriangulation.compute_buffer Example.solver
    (Example.triangulation false) Example.traces
    [{| sample_ind := 2; channel_ind := 4; segment_ind := 0 |}]
  = Raise IndexError.
Proof.
  destruct (channel_outside_probe_raises (N := sequential) Example.solver
              Example.traces
              [{| sample_ind := 2; channel_ind := 4; segment_ind := 0 |}]
              {| sample_ind := 2; channel_ind := 4; segment_ind := 0 |}
              4%nat) as (Hpc & Hcom & Htri).
  - apply list_elem_of_here.
  - right. simpl. lia.
  - split; [|split].
    + apply (Hpc Example.probe). reflexivity.
    + apply (Hcom (Example.center_of_mass "ptp")). reflexivity.
    + apply (Htri (Example.triangulation false)). reflexivity.
Defined.

(** ** What a step reads of the traces and of the snippets *)

Lemma agree_on_sym {F : Type} (chans : list nat) (wf wf' : list (list F)) :
  agree_on chans wf wf' -> agree_on chans wf' wf.
Proof.
  unfold agree_on. intros H. apply Forall2_flip.
  eapply Forall2_impl; [exact H|]. intros row row' Hr c Hc. simpl.
  symmetry. by apply Hr.
Qed.

Lemma np_take_agree_rows {A : Type} (row row' : list A) (chans : list nat) :
  (forall c, c ∈ chans -> row !! c = row' !! c) ->
  np_take row chans = np_take row' chans.
Proof. intros H. apply mapM_ext. intros c Hc. by rewrite H. Qed.

Lemma select_channels_agree {F : Type} (chans : list nat)
  (wf wf' : list (list F)) :
  agree_on chans wf wf' ->
  select_channels wf chans = select_channels wf' chans.
Proof.
  unfold agree_on, select_channels. intros H.
  induction H as [|row row' wf wf' Hrow _ IH]; simpl; [reflexivity|].
  rewrite (np_take_agree_rows row row' chans Hrow), IH. reflexivity.
Qed.

Lemma np_index_take_agree {F : Type} (chans : list nat)
  (wf wf' : list (list F)) (k : Z) :
  agree_on chans wf wf' ->
  (row <- np_index wf k ;; np_take row chans) =
  (row <- np_index wf' k ;; np_take row chans).
Proof.
  intros H. pose proof (Forall2_length _ _ _ H) as Hlen.
  unfold np_index. cbv zeta. rewrite <- Hlen.
  destruct (_ && _); [|reflexivity].
  set (j := Z.to_nat _).
  destruct (wf !! j) as [row|] eqn:E.
  - destruct (Forall2_lookup_l _ _ _ _ _ H E) as (row' & -> & Hrow). simpl.
    by apply np_take_agree_rows.
  - apply lookup_ge_None in E. rewrite lookup_ge_None_2 by lia. reflexivity.
Qed.

Lemma group_indices_channels (peaks peaks' : list Peak) (mc : Z) :
  map channel_ind peaks = map channel_ind peaks' ->
  LocalizeCenterOfMass.group_indices peaks mc =
  LocalizeCenterOfMass.group_indices peaks' mc.
Proof.
  intros H. unfold LocalizeCenterOfMass.group_indices.
  rewrite <- !(map_map channel_ind (fun c => c =? mc)). by rewrite H.
Qed.

Section ReadsNeighbours.
Context {F : Type} {SF : Scalar F} {N : Numpy F}.

Lemma feature_row_agree (self : LocalizeCenterOfMass.t F) (chans : list nat)
  (wf wf' : list (list F)) :
  agree_on chans wf wf' ->
  LocalizeCenterOfMass.feature_row self chans wf =
  LocalizeCenterOfMass.feature_row self chans wf'.
Proof.
  intros H. unfold LocalizeCenterOfMass.feature_row.
  rewrite (select_channels_agree chans wf wf' H).
  rewrite (np_index_take_agree chans wf wf' _ H). reflexivity.
Qed.

Lemma com_localize_agree (self : LocalizeCenterOfMass.t F) (n k : nat)
  (p p' : Peak) (wf wf' : list (list F)) :
  channel_ind p = channel_ind p' ->
  (forall mask_row,
     np_index (neighbours_mask (LocalizeCenterOfMass.base self))
              (channel_ind p) = Ok mask_row ->
     agree_on (LocalizeCenterOfMass.neighbour_channels mask_row) wf wf') ->
  LocalizeCenterOfMass.localize self n k p wf =
  LocalizeCenterOfMass.localize self n k p' wf'.
Proof.
  intros Hch Hagree. unfold LocalizeCenterOfMass.localize. rewrite <- Hch.
  destruct (np_index _ (channel_ind p)) as [row|e]; simpl; [|reflexivity].
  specialize (Hagree row eq_refl).
  rewrite <- np_nonzero_neighbour_channels in Hagree.
  by rewrite (feature_row_agree self _ wf wf' Hagree).
Qed.

Lemma com_reads_one_way (self : LocalizeCenterOfMass.t F)
  (traces traces' : list (list F)) (peaks peaks' : list Peak)
  (waveforms waveforms' : list (list (list F))) (out : list (XY.t F)) :
  map channel_ind peaks = map channel_ind peaks' ->
  length waveforms = length waveforms' ->
  (forall i p wf wf' mask_row,
     peaks !! i = Some p -> waveforms !! i = Some wf ->
     waveforms' !! i = Some wf' ->
     np_index (neighbours_mask (LocalizeCenterOfMass.base self))
              (channel_ind p) = Ok mask_row ->
     agree_on (LocalizeCenterOfMass.neighbour_channels mask_row) wf wf') ->
  LocalizeCenterOfMass.compute_buffer self traces peaks waveforms = Ok out ->
  LocalizeCenterOfMass.compute_buffer self traces' peaks' waveforms' = Ok out.
Proof.
  intros Hch Hlen Hagree [Hout H]%com_compute_buffer_Ok.
  apply com_compute_buffer_Ok.
  assert (Hpl : length peaks = length peaks').
  { by rewrite <- (length_map channel_ind peaks), Hch, length_map. }
  split; [congruence|]. intros i p' Hp'.
  destruct (lookup_lt_is_Some_2 peaks i) as [p Hp].
  { rewrite Hpl. eapply lookup_lt_Some, Hp'. }
  assert (Hc : channel_ind p = channel_ind p').
  { assert (Hm : map channel_ind peaks !! i = map channel_ind peaks' !! i)
      by by rewrite Hch.
    rewrite !list_lookup_fmap, Hp, Hp' in Hm. simpl in Hm. congruence. }
  destruct (H i p Hp) as (k & wf & r & Hk & Hwf & Hr & Ho).
  destruct (lookup_lt_is_Some_2 waveforms' i) as [wf' Hwf'].
  { rewrite <- Hlen. eapply lookup_lt_Some, Hwf. }
  rewrite (group_indices_channels peaks peaks' _ Hch), Hc in Hk, Hr.
  exists k, wf', r. split; [assumption|]. split; [assumption|].
  split; [|assumption].
  rewrite <- Hr. symmetry. apply com_localize_agree; [assumption|].
  intros mask_row Hrow. by apply (Hagree i p wf wf' mask_row).
Qed.
End ReadsNeighbours.

(** X6. Center of mass reads a peak's channel and, of its snippet, the
    neighbour channels of that channel, and nothing else: two calls whose
    peaks sit on the same channels and whose snippets agree on the neighbour
    channels return the same records, whatever the traces, the sample and
    segment indices and the other channels of the snippets hold. *)
Theorem center_of_mass_reads_neighbour_channels {F : Type} {SF : Scalar F}
  {N : Numpy F}
  (self : LocalizeCenterOfMass.t F)
  (traces traces' : list (list F)) (peaks peaks' : list Peak)
  (waveforms waveforms' : list (list (list F))) :
  map channel_ind peaks = map channel_ind peaks' ->
  length waveforms = length waveforms' ->
  (forall i p wf wf' mask_row,
     peaks !! i = Some p -> waveforms !! i = Some wf ->
     waveforms' !! i = Some wf' ->
     np_index (neighbours_mask (LocalizeCenterOfMass.base self))
              (channel_ind p) = Ok mask_row ->
     agree_on (LocalizeCenterOfMass.neighbour_channels mask_row) wf wf') ->
  forall out,
    LocalizeCenterOfMass.compute_buffer self traces peaks waveforms = Ok out
    <->
    LocalizeCenterOfMass.compute_buffer self traces' peaks' waveforms'
    = Ok out.
Proof.
  intros Hch Hlen Hagree out. split.
  - by apply com_reads_one_way.
  - apply com_reads_one_way; [by symmetry | by symmetry |].
    intros i p' wf' wf mask_row Hp' Hwf' Hwf Hrow.
    destruct (lookup_lt_is_Some_2 peaks i) as [p Hp].
    { rewrite <- (length_map channel_ind peaks), Hch, length_map.
      eapply lookup_lt_Some, Hp'. }
    assert (Hc : channel_ind p = channel_ind p').
    { assert (Hm : map channel_ind peaks !! i = map channel_ind peaks' !! i)
        by by rewrite Hch.
      rewrite !list_lookup_fmap, Hp, Hp' in Hm. simpl in Hm. congruence. }
    apply agree_on_sym. apply (Hagree i p wf wf' mask_row); try assumption.
    by rewrite Hc.
Qed.

(** X7. The triangulation reads the trace buffer only inside the window of
    a peak and only on the neighbour channels of the peak's channel: two
    buffers that agree there give the same records and the same
    exceptions. *)
Theorem triangulation_reads_window {F : Type} {SF : Scalar F}
  (solve_monopolar_triangulation :
     list F -> list (list F) -> F -> string -> result (XYZA.t F))
  (self : LocalizeMonopolarTriangulation.t F)
  (traces traces' : list (list F)) (peaks : list Peak) :
  (forall p mask_row,
     p ∈ peaks ->
     np_index (neighbours_mask (LocalizeMonopolarTriangulation.base self))
              (channel_ind p) = Ok mask_row ->
     agree_on (np_nonzero mask_row)
              (LocalizeMonopolarTriangulation.window self traces p)
              (LocalizeMonopolarTriangulation.window self traces' p)) ->
  LocalizeMonopolarTriangulation.compute_buffer
    solve_monopolar_triangulation self traces peaks =
  LocalizeMonopolarTriangulation.compute_buffer
    solve_monopolar_triangulation self traces' peaks.
Proof.
  intros Hagree. rewrite !monopolar_compute_buffer_mapM.
  apply mapM_ext. intros p Hp.
  unfold LocalizeMonopolarTriangulation.localize,
    LocalizeMonopolarTriangulation.amplitudes.
  destruct (np_index _ (channel_ind p)) as [row|e] eqn:Hrow; simpl;
    [|reflexivity].
  by rewrite (select_channels_agree _ _ _ (Hagree p row Hp Hrow)).
Qed.

(** ** The window of a peak away from the ends of the buffer *)

Lemma py_slice_margins {A : Type} (pre l post : list A) (a b : Z) :
  0 <= a -> 0 <= b <= Z.of_nat (length l) ->
  py_slice (pre ++ l ++ post) (a + Z.of_nat (length pre))
           (b + Z.of_nat (length pre)) =
  py_slice l a b.
Proof.
  intros Ha Hb. unfold py_slice. cbv zeta.
  rewrite !slice_bound_nonneg by lia. rewrite !length_app.
  destruct (Z.le_gt_cases a b) as [Hab|Hab].
  - rewrite !Z.min_l by lia.
    replace (Z.to_nat (a + Z.of_nat (length pre)))
      with (length pre + Z.to_nat a)%nat by lia.
    replace (b + Z.of_nat (length pre) - (a + Z.of_nat (length pre)))
      with (b - a) by lia.
    rewrite <- drop_drop, drop_app_length.
    rewrite drop_app_le by lia.
    apply take_app_le. rewrite length_drop. lia.
  - replace (Z.to_nat (Z.min (b + Z.of_nat (length pre))
                             (Z.of_nat (length pre + (length l + length post)))
                       - Z.min (a + Z.of_nat (length pre))
                               (Z.of_nat (length pre
                                          + (length l + length post)))))
      with 0%nat by lia.
    replace (Z.to_nat (Z.min b (Z.of_nat (length l))
                       - Z.min a (Z.of_nat (length l))))
      with 0%nat by lia.
    reflexivity.
Qed.

(** X8. Triangulation and margins: when the window of every peak lies
    inside the buffer, adding samples before and after the buffer, and
    counting the sample indices of the peaks from the new start, changes
    neither the records nor the exceptions. *)
Theorem triangulation_margins {F : Type} {SF : Scalar F}
  (solve_monopolar_triangulation :
     list F -> list (list F) -> F -> string -> result (XYZA.t F))
  (self : LocalizeMonopolarTriangulation.t F)
  (before traces after : list (list F)) (peaks : list Peak) :
  Forall (fun p =>
            0 <= sample_ind p
                 - nbefore (LocalizeMonopolarTriangulation.base self) /\
            0 <= sample_ind p
                 + nafter (LocalizeMonopolarTriangulation.base self)
              <= Z.of_nat (length traces)) peaks ->
  LocalizeMonopolarTriangulation.compute_buffer
    solve_monopolar_triangulation self (before ++ traces ++ after)
    (map (shift_peak (Z.of_nat (length before))) peaks) =
  LocalizeMonopolarTriangulation.compute_buffer
    solve_monopolar_triangulation self traces peaks.
Proof.
  intros Hpeaks. rewrite Forall_forall in Hpeaks.
  rewrite !monopolar_compute_buffer_mapM, mapM_map.
  apply mapM_ext. intros p Hp. destruct (Hpeaks p Hp) as [Hlo Hhi].
  unfold LocalizeMonopolarTriangulation.localize,
    LocalizeMonopolarTriangulation.amplitudes,
    LocalizeMonopolarTriangulation.window. simpl.
  replace (sample_ind p + Z.of_nat (length before)
           - nbefore (LocalizeMonopolarTriangulation.base self))
    with (sample_ind p - nbefore (LocalizeMonopolarTriangulation.base self)
          + Z.of_nat (length before)) by lia.
  replace (sample_ind p + Z.of_nat (length before)
           + nafter (LocalizeMonopolarTriangulation.base self))
    with (sample_ind p + nafter (LocalizeMonopolarTriangulation.base self)
          + Z.of_nat (length before)) by lia.
  by rewrite py_slice_margins.
Qed.

Lemma triangulation_margins_witness :
  LocalizeMonopolarTriangulation.compute_buffer Example.solver
    (Example.triangulation true)
    (Example.traces ++ Example.traces ++ Example.traces)
    (map (shift_peak 6) [Example.peak0; Example.peak1]) =
  LocalizeMonopolarTriangulation.compute_buffer Example.solver
    (Example.triangulation true) Example.traces
    [Example.peak0; Example.peak1].
Proof.
  apply (triangulation_margins Example.solver (Example.triangulation true)
           Example.traces Example.traces Example.traces
           [Example.peak0; Example.peak1]).
  repeat constructor; simpl; lia.
Defined.

(** X9. Triangulation, peak away from the ends: when the window lies inside
    the buffer it holds exactly the [nbefore + nafter] samples around the
    peak, starting [nbefore] samples before it, and, as soon as it holds a
    sample, the peak-to-peak reduction does not raise and gives one
    amplitude per selected channel. *)
Theorem triangulation_window_inside {F : Type} {SF : Scalar F}
  (self : LocalizeMonopolarTriangulation.t F) (traces : list (list F))
  (peak : Peak) :
  let nb := nbefore (LocalizeMonopolarTriangulation.base self) in
  let na := nafter (LocalizeMonopolarTriangulation.base self) in
  let window := LocalizeMonopolarTriangulation.window self traces peak in
  0 <= nb -> 0 <= na ->
  nb <= sample_ind peak ->
  sample_ind peak + na <= Z.of_nat (length traces) ->
  Z.of_nat (length window) = nb + na /\
  (forall k : nat,
     Z.of_nat k < nb + na ->
     window !! k = traces !! Z.to_nat (sample_ind peak - nb + Z.of_nat k)) /\
  (0 < nb + na ->
   forall chan_inds wf,
     select_channels window chan_inds = Ok wf ->
     exists wf_ptp,
       np_ptp wf = Ok wf_ptp /\ length wf_ptp = length chan_inds).
Proof.
  intros nb na window Hnb Hna Hlo Hhi.
  assert (Hlen : Z.of_nat (length window) = nb + na).
  { subst window. unfold LocalizeMonopolarTriangulation.window.
    rewrite py_slice_length, !slice_bound_nonneg by (fold nb na; lia).
    fold nb na. lia. }
  split; [assumption|]. split.
  - intros k Hk. subst window.
    unfold LocalizeMonopolarTriangulation.window.
    rewrite py_slice_lookup, !slice_bound_nonneg by (fold nb na; lia).
    fold nb na. rewrite decide_True by lia.
    f_equal. lia.
  - intros Hpos chan_inds wf Hsel.
    destruct (select_channels_rows _ _ _ Hsel) as [Hrows Hwf].
    destruct wf as [|r0 rest]; [simpl in Hwf; lia|].
    simpl. eexists. split; [reflexivity|].
    apply Forall_cons in Hrows as [Hr0 Hrest].
    rewrite length_zip_with.
    rewrite !(reduce_rows_length _ (length chan_inds)) by assumption. lia.
Qed.

Lemma triangulation_window_inside_witness :
  Z.of_nat (length (LocalizeMonopolarTriangulation.window
                      (Example.triangulation false) Example.traces
                      Example.peak0)) = 1 + 2 /\
  (forall k : nat,
     Z.of_nat k < 1 + 2 ->
     LocalizeMonopolarTriangulation.window (Example.triangulation false)
       Example.traces Example.peak0 !! k =
     Example.traces !! Z.to_nat (2 - 1 + Z.of_nat k)).
Proof.
  destruct (triangulation_window_inside (Example.triangulation false)
              Example.traces Example.peak0) as (Hlen & Hrows & _);
    simpl; try lia.
  split; [exact Hlen | exact Hrows].
Defined.

Ltac in_concrete_list H :=
  repeat (apply elem_of_cons in H as [->|H]; [reflexivity|]);
  by apply elem_of_nil in H.

Lemma center_of_mass_reads_neighbour_channels_witness :
  LocalizeCenterOfMass.compute_buffer (N := sequential)
    Sparse.center_of_mass Sparse.traces' [Sparse.peak'] [Sparse.snippet']
  = Ok Sparse.center_of_mass_out.
Proof.
  apply (center_of_mass_reads_neighbour_channels (N := sequential)
           Sparse.center_of_mass
           Example.traces Sparse.traces' [Sparse.peak] [Sparse.peak']
           [Sparse.snippet] [Sparse.snippet']).
  - reflexivity.
  - reflexivity.
  - intros [|i] p wf wf' mask_row Hp Hwf Hwf' Hrow; [|destruct i; discriminate].
    injection Hp as <-. injection Hwf as <-. injection Hwf' as <-.
    injection Hrow as <-.
    repeat constructor; intros c Hc; simpl in Hc; in_concrete_list Hc.
  - reflexivity.
Defined.

Lemma triangulation_reads_window_witness :
  LocalizeMonopolarTriangulation.compute_buffer Example.solver
    Sparse.triangulation Example.traces [Sparse.peak] =
  LocalizeMonopolarTriangulation.compute_buffer Example.solver
    Sparse.triangulation Sparse.traces' [Sparse.peak].
Proof.
  apply (triangulation_reads_window Example.solver Sparse.triangulation
           Example.traces Sparse.traces' [Sparse.peak]).
  intros p mask_row Hp Hrow.
  apply list_elem_of_singleton in Hp as ->. injection Hrow as <-.
  repeat constructor; intros c Hc; simpl in Hc; in_concrete_list Hc.
Defined.

(** ** The registry and the dispatch *)

(** X10. The dictionary [localize_peak_methods] holds exactly the names of
    the classes of [_methods_list], each with its class; the dispatch of
    [localize_peaks] on the name of a class builds a step of that class, for
    the two registered classes and for [LocalizePeakChannel], and it binds no
    step for any other name. *)
Theorem registry_matches_dispatch {F : Type} {SF : Scalar F}
  (Recording : Type)
  (pipeline_step_init :
     Recording -> F -> F -> F -> result (PeakPipelineStep F))
  (make_radial_order_parents :
     list (list F) -> list (list bool) -> RadialParents) :
  (forall nm cls,
     dict_get localize_peak_methods nm = Some cls <->
     nm = name cls /\ cls ∈ _methods_list) /\
  (forall cls recording kwargs s,
     dispatch Recording pipeline_step_init make_radial_order_parents
       recording (name cls) kwargs = Ok s ->
     class_of s = cls) /\
  (forall nm recording kwargs,
     (forall cls, nm <> name cls) ->
     dispatch Recording pipeline_step_init make_radial_order_parents
       recording nm kwargs = Raise UnboundLocalError).
Proof.
  split; [|split].
  - intros nm cls. unfold localize_peak_methods, _methods_list. simpl.
    rewrite !elem_of_cons, elem_of_nil.
    destruct (String.eqb_spec nm "monopolar_triangulation") as [->|Hm].
    + split.
      * intros [= <-]. split; [reflexivity | tauto].
      * intros [Hn [->|[->|[]]]]; [discriminate | reflexivity].
    + destruct (String.eqb_spec nm "center_of_mass") as [->|Hc].
      * split.
        -- intros [= <-]. split; [reflexivity | tauto].
        -- intros [Hn [->|[->|[]]]]; [reflexivity | discriminate].
      * split; [discriminate|].
        intros [-> [->|[->|[]]]]; contradiction.
  - intros cls recording kw s. unfold dispatch.
    destruct cls; simpl; intros H.
    + unfold new_peak_channel in H. destruct (_ || _); [discriminate|].
      apply bind_Ok in H as (base & _ & [= <-]). reflexivity.
    + unfold new_center_of_mass in H. destruct (_ || _); [discriminate|].
      apply bind_Ok in H as (base & _ & H).
      apply bind_Ok in H as (c & _ & [= <-]). reflexivity.
    + unfold new_monopolar_triangulation in H.
      destruct (given _); [discriminate|].
      apply bind_Ok in H as (base & _ & H).
      apply bind_Ok in H as (c & _ & [= <-]). reflexivity.
  - intros nm recording kw Hnm. unfold dispatch.
    destruct (String.eqb_spec nm "center_of_mass") as [->|_].
    { contradiction (Hnm LocalizeCenterOfMassClass). reflexivity. }
    destruct (String.eqb_spec nm "monopolar_triangulation") as [->|_].
    { contradiction (Hnm LocalizeMonopolarTriangulationClass). reflexivity. }
    destruct (String.eqb_spec nm "peak_channel") as [->|_].
    { contradiction (Hnm LocalizePeakChannelClass). reflexivity. }
    reflexivity.
Qed.

Lemma registry_matches_dispatch_witness :
  (dict_get localize_peak_methods "center_of_mass"
   = Some LocalizeCenterOfMassClass) /\
  (class_of (CenterOfMassStep (Example.center_of_mass "ptp"))
   = LocalizeCenterOfMassClass) /\
  (dispatch unit Example.step_init Example.shells tt "median"
     Example.no_kwargs = Raise UnboundLocalError).
Proof.
  destruct (registry_matches_dispatch unit Example.step_init Example.shells)
    as (Hdict & Hclass & Hother).
  split; [|split].
  - apply Hdict. split; [reflexivity | apply list_elem_of_here].
  - apply (Hclass LocalizeCenterOfMassClass tt Example.no_kwargs).
    reflexivity.
  - apply Hother. intros cls. destruct cls; discriminate.
Defined.

(** ** Calling a step again *)

Section Repeatable.
Context {F : Type} {SF : Scalar F}.
Import Store.

Lemma parents_in_store_app (h fresh : list (ndarray F)) (r : option ref)
  (rp : option RadialParents) :
  parents_in_store h r rp -> parents_in_store (h ++ fresh) r rp.
Proof.
  unfold parents_in_store. destruct r, rp; try tauto. apply lookup_input.
Qed.
End Repeatable.

(** X11. A step keeps nothing from a call: after a call of [compute_buffer]
    that returned, a second call with the same references returns a new
    array with the same records, and leaves the store of the first call,
    its result included, as it was. *)
Theorem compute_buffer_repeatable {F : Type} {SF : Scalar F}
  {N : Numpy F}
  (solve_monopolar_triangulation :
     list F -> list (list F) -> F -> string -> result (XYZA.t F))
  (h0 : list (Store.ndarray F)) (self : Store.Self)
  (traces peaks waveforms : Store.ref)
  (tr : list (list F)) (ps : list Peak) (wfs : list (list (list F)))
  (cl : list (list F)) (mask : list (list bool)) :
  h0 !! traces = Some (Store.Array2 tr) ->
  h0 !! peaks = Some (Store.PeakArray ps) ->
  h0 !! waveforms = Some (Store.Array3 wfs) ->
  h0 !! Store.contact_locations_ref self = Some (Store.Array2 cl) ->
  h0 !! Store.neighbours_mask_ref self = Some (Store.Mask mask) ->
  (forall out h',
     Store.peak_channel_compute_buffer self traces peaks h0 = Ok (out, h') ->
     exists out2 h'',
       Store.peak_channel_compute_buffer self traces peaks h'
       = Ok (out2, h'') /\
       out2 <> out /\ h'' !! out2 = h' !! out /\ Store.unchanged h' h'') /\
  (forall feature out h',
     Store.center_of_mass_compute_buffer self feature traces peaks waveforms
       h0 = Ok (out, h') ->
     exists out2 h'',
       Store.center_of_mass_compute_buffer self feature traces peaks
         waveforms h' = Ok (out2, h'') /\
       out2 <> out /\ h'' !! out2 = h' !! out /\ Store.unchanged h' h'') /\
  (forall parents rp max_distance_um optimizer out h',
     Store.parents_in_store h0 parents rp ->
     Store.monopolar_triangulation_compute_buffer
       solve_monopolar_triangulation self parents max_distance_um optimizer
       traces peaks h0 = Ok (out, h') ->
     exists out2 h'',
       Store.monopolar_triangulation_compute_buffer
         solve_monopolar_triangulation self parents max_distance_um
         optimizer traces peaks h' = Ok (out2, h'') /\
       out2 <> out /\ h'' !! out2 = h' !! out /\ Store.unchanged h' h'').
Proof.
  intros Htr Hps Hwfs Hcl Hmask. split; [|split].
  - intros out h' Hrun.
    pose proof (peak_channel_store h0 self cl mask Hcl Hmask traces peaks ps
                  tr Hps) as H.
    destruct (LocalizePeakChannel.compute_buffer _ tr ps) as [locs|e] eqn:E;
      rewrite H in Hrun; [|discriminate].
    injection Hrun as <- <-.
    pose proof (peak_channel_store (h0 ++ [Store.LocationsXY locs]) self cl
                  mask (lookup_input _ _ _ _ Hcl) (lookup_input _ _ _ _ Hmask)
                  traces peaks ps tr (lookup_input _ _ _ _ Hps)) as H2.
    rewrite E in H2. eexists _, _. split; [exact H2|].
    split; [rewrite length_app; simpl; lia|].
    split; [|apply unchanged_app].
    rewrite lookup_last_fresh. symmetry. apply lookup_last_fresh.
  - intros feature out h' Hrun.
    pose proof (center_of_mass_store h0 self cl mask Hcl Hmask feature traces
                  peaks waveforms ps wfs tr Hps Hwfs) as H.
    destruct (LocalizeCenterOfMass.compute_buffer _ tr ps wfs) as [locs|e]
      eqn:E; rewrite H in Hrun; [|discriminate].
    injection Hrun as <- <-.
    pose proof (center_of_mass_store (h0 ++ [Store.LocationsXY locs]) self cl
                  mask (lookup_input _ _ _ _ Hcl) (lookup_input _ _ _ _ Hmask)
                  feature traces peaks waveforms ps wfs tr
                  (lookup_input _ _ _ _ Hps) (lookup_input _ _ _ _ Hwfs))
      as H2.
    rewrite E in H2. eexists _, _. split; [exact H2|].
    split; [rewrite length_app; simpl; lia|].
    split; [|apply unchanged_app].
    rewrite lookup_last_fresh. symmetry. apply lookup_last_fresh.
  - intros parents rp maxd opt out h' Hparents Hrun.
    pose proof (monopolar_triangulation_store h0 self cl mask Hcl Hmask
                  solve_monopolar_triangulation parents rp maxd opt traces
                  peaks ps tr Hps Htr Hparents) as H.
    destruct (LocalizeMonopolarTriangulation.compute_buffer _ _ tr ps)
      as [locs|e] eqn:E.
    + destruct H as (temps & H & _). rewrite H in Hrun.
      injection Hrun as <- <-.
      pose proof (monopolar_triangulation_store
                    (h0 ++ Store.LocationsXYZA locs :: temps) self cl mask
                    (lookup_input _ _ _ _ Hcl) (lookup_input _ _ _ _ Hmask)
                    solve_monopolar_triangulation parents rp maxd opt traces
                    peaks ps tr (lookup_input _ _ _ _ Hps)
                    (lookup_input _ _ _ _ Htr)
                    (parents_in_store_app _ _ _ _ Hparents)) as H2.
      rewrite E in H2. destruct H2 as (temps2 & H2 & _).
      eexists _, _. split; [exact H2|].
      split; [rewrite length_app; simpl; lia|].
      split; [|apply unchanged_app].
      rewrite lookup_fresh. symmetry. apply lookup_fresh.
    + rewrite H in Hrun. discriminate.
Qed.

Lemma compute_buffer_repeatable_witness :
  exists out2 h'',
    Store.monopolar_triangulation_compute_buffer Example.solver Example.self
      (Some 5%nat) 1000%float "minimize_with_log_penality" 0%nat 1%nat
      Example.after_triangulation = Ok (out2, h'') /\
    out2 <> 6%nat /\
    h'' !! out2 = Example.after_triangulation !! 6%nat /\
    Store.unchanged Example.after_triangulation h''.
Proof.
  destruct (compute_buffer_repeatable (N := sequential) Example.solver
              Example.inputs
              Example.self 0%nat 1%nat 2%nat Example.traces Example.peaks
              Example.waveforms (contact_locations Example.probe)
              (neighbours_mask Example.probe)
              eq_refl eq_refl eq_refl eq_refl eq_refl) as (_ & _ & Htri).
  apply (Htri (Some 5%nat)
           (Some (Example.shells (contact_locations Example.probe)
                                 (neighbours_mask Example.probe)))
           1000%float "minimize_with_log_penality"%string 6%nat
           Example.after_triangulation eq_refl eq_refl).
Defined.

(** ** Keywords of another method *)

(** X12. [localize_peaks] passes the method keywords on to the constructor
    of the chosen class as they are. A keyword that class does not take is
    refused with a [TypeError] before the base constructor and the pipeline
    run: [feature] by the triangulation and by [LocalizePeakChannel],
    [max_distance_um], [optimizer] and [enforce_decrease] by the center of
    mass and by [LocalizePeakChannel]. *)
Theorem unexpected_keyword_raises {F : Type} {SF : Scalar F}
  (Recording Kwargs JobKwargs Output : Type)
  (split_job_kwargs : Kwargs -> MethodKwargs F * JobKwargs)
  (pipeline_step_init :
     Recording -> F -> F -> F -> result (PeakPipelineStep F))
  (make_radial_order_parents :
     list (list F) -> list (list bool) -> RadialParents)
  (run_peak_pipeline :
     Recording -> list Peak -> list (step F) -> JobKwargs -> result Output)
  (recording : Recording) (peaks : list Peak) (kwargs : Kwargs) :
  let run :=
    fun method =>
      localize_peaks Recording Kwargs JobKwargs Output split_job_kwargs
        pipeline_step_init make_radial_order_parents run_peak_pipeline
        recording peaks method kwargs in
  let method_kwargs := fst (split_job_kwargs kwargs) in
  (given (kw_feature method_kwargs) = true ->
   run "monopolar_triangulation"%string = Raise TypeError /\
   run "peak_channel"%string = Raise TypeError) /\
  (given (kw_max_distance_um method_kwargs)
   || given (kw_optimizer method_kwargs)
   || given (kw_enforce_decrease method_kwargs) = true ->
   run "center_of_mass"%string = Raise TypeError /\
   run "peak_channel"%string = Raise TypeError).
Proof.
  intros run mk. subst run mk. unfold localize_peaks.
  destruct (split_job_kwargs kwargs) as [mk jk]. simpl.
  unfold dispatch. simpl.
  unfold new_center_of_mass, new_monopolar_triangulation, new_peak_channel.
  split.
  - intros ->. split; reflexivity.
  - destruct (kw_feature mk), (kw_max_distance_um mk), (kw_optimizer mk),
      (kw_enforce_decrease mk); simpl; intros H;
      try discriminate H; split; reflexivity.
Qed.

Lemma unexpected_keyword_raises_witness :
  Example.run "monopolar_triangulation"
    {| kw_ms_before := None; kw_ms_after := None; kw_local_radius_um := None;
       kw_feature := Some "ptp"%string; kw_max_distance_um := None;
       kw_optimizer := None; kw_enforce_decrease := None |}
  = Raise TypeError.
Proof.
  destruct (unexpected_keyword_raises unit (MethodKwargs float) unit
              (list (list float)) (fun kw => (kw, tt)) Example.step_init
              Example.shells Example.engine tt Example.peaks
              {| kw_ms_before := None; kw_ms_after := None;
                 kw_local_radius_um := None; kw_feature := Some "ptp"%string;
                 kw_max_distance_um := None; kw_optimizer := None;
                 kw_enforce_decrease := None |}) as [Hfeature _].
  exact (proj1 (Hfeature eq_refl)).
Defined.
